(** * carbon_map: the metric estimation and colour-scaling engine of [app.js]

    A shallow embedding of the numeric core of [src/app.js] and of the
    [refreshLayer] scheduler.

    JavaScript numbers are IEEE 754 binary64 values; they are embedded as
    Rocq's primitive [float], which is the same format with the same
    round-to-nearest-even arithmetic.  Builtins that the kernel does not
    provide ([Math.round], [Math.floor], [Math.ceil], [Math.max],
    [Math.min]) are written out below from their ECMAScript definitions. *)

From Stdlib Require Import ZArith Bool List Lia Ascii String.
From Stdlib Require Import Floats.
From Stdlib Require Import Sorted.
From stdpp Require Import gmap strings list fin_maps.

Set Warnings "-inexact-float".
Open Scope Z_scope.

(** ** JavaScript numbers *)

Module JS.

(** [Number.isFinite] and [Number.isNaN]. *)
Definition isFinite (x : float) : bool := PrimFloat.is_finite x.
Definition isNaN (x : float) : bool := PrimFloat.is_nan x.

(** The exact integer [z] as a number (exact for [|z| < 2^53], the only
    use made of it here). *)
Definition ofZ (z : Z) : float :=
  match z with
  | Z0 => PrimFloat.zero
  | Zpos _ => PrimFloat.of_uint63 (Uint63.of_Z z)
  | Zneg _ => PrimFloat.opp (PrimFloat.of_uint63 (Uint63.of_Z (- z)))
  end.

(** A finite non-zero number is [+/- m * 2^e]; when [e < 0] its magnitude
    splits into an integer part [m / 2^-e] and a fractional numerator
    [m mod 2^-e] over the denominator [2^-e]. *)
Definition split (m : positive) (e : Z) : Z * Z * Z :=
  let d := 2 ^ (- e) in (Zpos m / d, Zpos m mod d, d).

(** [Math.floor]: the greatest integer not above [x]. *)
Definition floor (x : float) : float :=
  match Prim2SF x with
  | S754_finite s m e =>
      if 0 <=? e then x
      else let '(q, r, _) := split m e in
           if r =? 0 then x
           else if s then ofZ (- (q + 1)) else ofZ q
  | _ => x
  end.

(** [Math.ceil]: the least integer not below [x]; a result of zero
    reached from a negative [x] is [-0]. *)
Definition ceil (x : float) : float :=
  match Prim2SF x with
  | S754_finite s m e =>
      if 0 <=? e then x
      else let '(q, r, _) := split m e in
           if r =? 0 then x
           else if s then (if q =? 0 then PrimFloat.neg_zero else ofZ (- q))
                else ofZ (q + 1)
  | _ => x
  end.

(** [Math.round]: the nearest integer, ties towards [+Infinity]; a
    result of zero reached from a negative [x] is [-0]. *)
Definition round (x : float) : float :=
  match Prim2SF x with
  | S754_finite s m e =>
      if 0 <=? e then x
      else let '(q, r, d) := split m e in
           if r =? 0 then x
           else if s then
                  (if d <? 2 * r then ofZ (- (q + 1))
                   else if q =? 0 then PrimFloat.neg_zero else ofZ (- q))
                else (if d <=? 2 * r then ofZ (q + 1) else ofZ q)
  | _ => x
  end.

(** [Math.max] and [Math.min] of two arguments: [NaN] if either is
    [NaN]; [+0] counts as larger than [-0]. *)
Definition max (a b : float) : float :=
  if isNaN a || isNaN b then PrimFloat.nan
  else if PrimFloat.ltb a b then b
  else if PrimFloat.ltb b a then a
  else if PrimFloat.get_sign a then b else a.

Definition min (a b : float) : float :=
  if isNaN a || isNaN b then PrimFloat.nan
  else if PrimFloat.ltb a b then a
  else if PrimFloat.ltb b a then b
  else if PrimFloat.get_sign a then a else b.

(** Strict equality [x === c] and the relational operators against a
    value that may be [null] (an [option]).  [null === c] is false for a
    number [c]; [null >= 0] is true in JavaScript but every such test in
    the source is guarded by [v !== null]. *)
Definition seq (x : option float) (c : float) : bool :=
  match x with Some v => PrimFloat.eqb v c | None => false end.

(** Truthiness of a number: [0], [-0] and [NaN] are falsy. *)
Definition truthy (x : float) : bool :=
  negb (isNaN x || PrimFloat.is_zero x).

End JS.

Close Scope Z_scope.
Open Scope float_scope.


(** ** Rows

    A row is one object produced by the CSV parser.  The numeric code reads
    a cell only through [parseNum], that is through the builtin coercion
    [Number(cell)], and [enrichAverageMetric] stores a number back; so a
    numeric cell is represented by the number [Number(cell)]: [NaN] for a
    missing column ([undefined]) or non-numeric text, the parsed value for
    numeric text, [0] for blank text.  Every binary64 value is the image of
    some cell.  The two country columns are text, [None] when the column is
    missing. *)

Module Row.
Record t := mk {
  src_country : option string;
  dst_country : option string;
  n : float;
  mean_ms : float;
  min_ms : float;
  max_ms : float;
  p50_ms : float;
  p90_ms : float;
  p95_ms : float;
  average_ms : float
}.

(** [row.average_ms = v] *)
Definition set_average_ms (r : t) (v : float) : t :=
  mk (src_country r) (dst_country r) (n r) (mean_ms r) (min_ms r) (max_ms r)
     (p50_ms r) (p90_ms r) (p95_ms r) v.

(** [row[metric]] under [Number], for the names of the numeric columns.
    A row of the model carries no other cell: for any other name (a text
    column, or a further column of the CSV, whose cell may hold numeric
    text) [get] answers [NaN], which is what the code reads only when
    that cell is missing or is not numeric text.  Statements about
    [row[metric]] therefore take the metric from [METRIC_FIELDS]. *)
Definition get (r : t) (metric : string) : float :=
  if String.eqb metric "average_ms" then average_ms r
  else if String.eqb metric "mean_ms" then mean_ms r
  else if String.eqb metric "p50_ms" then p50_ms r
  else if String.eqb metric "p90_ms" then p90_ms r
  else if String.eqb metric "p95_ms" then p95_ms r
  else if String.eqb metric "min_ms" then min_ms r
  else if String.eqb metric "max_ms" then max_ms r
  else if String.eqb metric "n" then n r
  else PrimFloat.nan.
End Row.

Definition DEFAULT_METRIC : string := "average_ms".
Definition METRIC_FIELDS : list string :=
  [DEFAULT_METRIC; "mean_ms"; "p50_ms"; "p90_ms"; "p95_ms"; "min_ms"; "max_ms"]%string.

(** ** NumericCoercion *)

(** [isFiniteNumber(x)], for [x] a number or [undefined]/[null] ([None]). *)
Definition isFiniteNumber (x : option float) : bool :=
  match x with Some v => JS.isFinite v | None => false end.

(** [parseNum(v)]: the argument is [Number(v)]; [None] is [null]. *)
Definition parseNum (v : float) : option float :=
  if JS.isFinite v then Some v else None.

(** ** StatisticsEstimator *)

(** [firstNonNegative(...values)] *)
Fixpoint firstNonNegative (values : list (option float)) : option float :=
  match values with
  | [] => None
  | Some v :: rest => if PrimFloat.leb 0 v then Some v else firstNonNegative rest
  | None :: rest => firstNonNegative rest
  end.

(** [v !== null && v < 0] *)
Definition negative (v : option float) : bool :=
  match v with Some x => PrimFloat.ltb x 0 | None => false end.

(** The value of [invalidFrac] in [estimateInvalidCount] when the function
    reaches its last two lines. *)
Definition invalidFrac (row : Row.t) (n : float) : float :=
  let p50 := parseNum (Row.p50_ms row) in
  let p90 := parseNum (Row.p90_ms row) in
  let p95 := parseNum (Row.p95_ms row) in
  let f0 := JS.max (1 / JS.max 1 n) 0.01 in
  let f1 := if negative p50 then JS.max f0 0.70 else f0 in
  let f2 := if negative p90 then JS.max f1 0.925 else f1 in
  if negative p95 then JS.max f2 0.975 else f2.

Definition estimateInvalidCount (row : Row.t) (n : float) : float :=
  let min := parseNum (Row.min_ms row) in
  let max := parseNum (Row.max_ms row) in
  if JS.seq max (-1) then n
  else if negb (JS.seq min (-1)) then 0
  else
    let invalidCount := JS.round (invalidFrac row n * n) in
    JS.min (n - 1) (JS.max 1 invalidCount).

Definition computeAverageMs (row : Row.t) : float :=
  match parseNum (Row.average_ms row) with
  | Some existing => existing
  | None =>
    let nRaw := parseNum (Row.n row) in
    let n := match nRaw with Some x => JS.round x | None => 0 end in
    let mean := parseNum (Row.mean_ms row) in
    let min := parseNum (Row.min_ms row) in
    let max := parseNum (Row.max_ms row) in
    match PrimFloat.leb n 0, mean with
    | false, Some mean =>
      if JS.seq max (-1) then -1
      else if negb (JS.seq min (-1)) && PrimFloat.leb 0 mean then mean
      else
        let invalidCount := estimateInvalidCount row n in
        if PrimFloat.leb n invalidCount then -1
        else
          let corrected := (mean * n + invalidCount) / (n - invalidCount) in
          if JS.isFinite corrected && PrimFloat.leb 0 corrected then corrected
          else
            match firstNonNegative
                    [parseNum (Row.p50_ms row); parseNum (Row.p90_ms row);
                     parseNum (Row.p95_ms row); parseNum (Row.max_ms row)] with
            | Some fallback => fallback
            | None => -1
            end
    | _, _ => -1
    end
  end.

(** [enrichAverageMetric(rows)]: every row object gets its [average_ms]
    overwritten in place. *)
Definition enrichAverageMetric (rows : list Row.t) : list Row.t :=
  map (fun row => Row.set_average_ms row (computeAverageMs row)) rows.

(** ** Text helpers

    Text is embedded as ASCII [string]s.  [trim] removes the ASCII members
    of the ECMAScript white-space and line-terminator classes;
    [toUpperCase] maps [a-z] to [A-Z]. *)

Definition isSpace (c : ascii) : bool :=
  let k := nat_of_ascii c in
  Nat.eqb k 32 || (Nat.leb 9 k && Nat.leb k 13).

Fixpoint trimStart (s : string) : string :=
  match s with
  | String c rest => if isSpace c then trimStart rest else s
  | EmptyString => EmptyString
  end.

Definition trim (s : string) : string :=
  String.rev (trimStart (String.rev (trimStart s))).

Definition upperChar (c : ascii) : ascii :=
  let k := nat_of_ascii c in
  if Nat.leb 97 k && Nat.leb k 122 then ascii_of_nat (k - 32) else c.

Fixpoint toUpperCase (s : string) : string :=
  match s with
  | String c rest => String (upperChar c) (toUpperCase rest)
  | EmptyString => EmptyString
  end.

(** [(v || '')] for a text cell that may be missing. *)
Definition orEmpty (v : option string) : string :=
  match v with Some s => s | None => EmptyString end.

(** ** Scale configuration and render state *)

Record ScaleCfg := mkScaleCfg {
  auto : bool;
  minMs : float;
  maxMs : float;
  pLow : float;
  pHigh : float;
  transform : string;
  missingColor : string
}.

(** The initial value of the global [scaleCfg]. *)
Definition scaleCfg0 : ScaleCfg :=
  mkScaleCfg true 20 300 5 95 "linear" "#dddddd".

Definition selectedSourceColor : string := "#2f6bff".

(** A scale range [{min, max}]; [min] can be [undefined] ([None]) when a
    percentile index falls outside the array. *)
Record Scale := mkScale { scaleMin : option float; scaleMax : float }.

(** [ToNumber] of a number-or-[undefined]. *)
Definition toNumber (v : option float) : float :=
  match v with Some x => x | None => PrimFloat.nan end.

(** ** ColorMapper *)

Definition clamp01 (t : float) : float := JS.max 0 (JS.min 1 t).

Definition lerp (a b t : float) : float := a + (b - a) * t.

Record Rgb := mkRgb { red_ : float; green_ : float; blue_ : float }.

Definition hexDigit (c : ascii) : option Z :=
  let k := Z.of_nat (nat_of_ascii c) in
  if ((48 <=? k) && (k <=? 57))%Z then Some (k - 48)%Z
  else if ((97 <=? k) && (k <=? 102))%Z then Some (k - 87)%Z
  else if ((65 <=? k) && (k <=? 70))%Z then Some (k - 55)%Z
  else None.

(** [parseInt(xy, 16)] for a two-character group matched by [[a-f\d]{2}]. *)
Definition hexPair (x y : ascii) : option float :=
  match hexDigit x, hexDigit y with
  | Some h, Some l => Some (JS.ofZ (16 * h + l))
  | _, _ => None
  end.

(** [hexToRgb(hex)]: the regular expression
    [/^#?([a-f\d]{2})([a-f\d]{2})([a-f\d]{2})$/i] against [hex.trim()];
    [None] is [null]. *)
Definition hexToRgb (hex : string) : option Rgb :=
  let t := trim hex in
  let body := match t with
              | String "#" rest => rest
              | _ => t
              end in
  match body with
  | String a (String b (String c (String d (String e (String f EmptyString))))) =>
      match hexPair a b, hexPair c d, hexPair e f with
      | Some r, Some g, Some bl => Some (mkRgb r g bl)
      | _, _, _ => None
      end
  | _ => None
  end.

Definition hexChar (d : Z) : ascii :=
  ascii_of_nat (Z.to_nat (if (d <? 10)%Z then 48 + d else 87 + d)%Z).

(** Hexadecimal digits of a positive integer, most significant first;
    [fuel] bounds the number of digits. *)
Fixpoint hexDigits (fuel : nat) (z : Z) (acc : string) : string :=
  match fuel with
  | O => acc
  | S fuel' =>
      let acc' := String (hexChar (z mod 16)%Z) acc in
      if (z / 16 =? 0)%Z then acc' else hexDigits fuel' (z / 16)%Z acc'
  end.

(** The integer value of an integral number ([+0] and [-0] are [0]). *)
Definition toInteger (x : float) : option Z :=
  match Prim2SF x with
  | S754_zero _ => Some 0%Z
  | S754_finite s m e =>
      if (0 <=? e)%Z then Some (if s then - (Zpos m * 2 ^ e) else Zpos m * 2 ^ e)%Z
      else let '(q, r, _) := JS.split m e in
           if (r =? 0)%Z then Some (if s then - q else q)%Z else None
  | _ => None
  end.

(** [n.toString(16)].  In [rgbToHex] the argument is a result of
    [Math.round], so it is integral, [NaN] or infinite; the fraction
    digits of a non-integral number are not produced here. *)
Definition toString16 (n : float) : string :=
  match toInteger n with
  | Some z =>
      let digits := hexDigits 300 (Z.abs z) EmptyString in
      if (z <? 0)%Z then String "-" digits else digits
  | None =>
      if JS.isNaN n then "NaN"%string
      else if PrimFloat.ltb 0 n then "Infinity"%string
      else if PrimFloat.ltb n 0 then "-Infinity"%string
      else "NaN"%string
  end.

(** [s.padStart(2, '0')] *)
Definition padStart2 (s : string) : string :=
  match s with
  | EmptyString => "00"%string
  | String c EmptyString => String "0" s
  | _ => s
  end.

Definition toHex (n : float) : string := padStart2 (toString16 n).

Definition rgbToHex (c : Rgb) : string :=
  String "#" (toHex (red_ c) ++ toHex (green_ c) ++ toHex (blue_ c))%string.

Section Color.
(** [Math.log10] is implementation-approximated; it is a parameter. *)
Variable log10 : float -> float.
(** The global [scaleCfg] at the time of the call. *)
Variable scaleCfg : ScaleCfg.

(** [valueToColor(v, minV, maxV)].  [v] is a number or absent
    ([undefined]/[null], [None]); an [undefined] bound enters the
    arithmetic as [NaN].  [None] as a result stands for the [TypeError]
    raised by [green.r] on a [null] colour, which the two constant
    colours never produce. *)
Definition valueToColor (v : option float) (minV maxV : float) : option string :=
  match v with
  | Some v' =>
    if negb (isFiniteNumber v) then Some (missingColor scaleCfg)
    else
      let eps := 1e-6 in
      let '(vv, a, b) :=
        if String.eqb (transform scaleCfg) "log"
        then (log10 (JS.max eps v'), log10 (JS.max eps minV), log10 (JS.max eps maxV))
        else (v', minV, maxV) in
      let d := b - a in
      let t := clamp01 ((vv - a) / (if JS.truthy d then d else 1)) in
      match hexToRgb "#00b050", hexToRgb "#ff0000" with
      | Some green, Some red =>
          Some (rgbToHex (mkRgb
            (JS.round (lerp (red_ green) (red_ red) t))
            (JS.round (lerp (green_ green) (green_ red) t))
            (JS.round (lerp (blue_ green) (blue_ red) t))))
      | _, _ => None
      end
  | None => Some (missingColor scaleCfg)
  end.
End Color.

(** ** MetricValueIndex *)

(** [values.sort((a, b) => a - b)].  [Array.prototype.sort] is stable;
    the comparator is a consistent order on the finite values stored, so
    the result is the stable sorted arrangement, built here by insertion:
    [x] goes after [y] exactly when [comparator(x, y) > 0]. *)
Fixpoint insertSorted (x : float) (l : list float) : list float :=
  match l with
  | [] => [x]
  | y :: rest =>
      if PrimFloat.ltb 0 (x - y) then y :: insertSorted x rest
      else x :: y :: rest
  end.

Definition sortNumbers (l : list float) : list float :=
  foldr insertSorted [] l.

(** The loop body [if (v !== null && v >= 0) metricValues.get(metric).push(v)]. *)
Definition pushMetric (row : Row.t) (mv : gmap string (list float)) (metric : string)
  : gmap string (list float) :=
  match parseNum (Row.get row metric) with
  | Some v => if PrimFloat.leb 0 v then alter (fun l => l ++ [v]) metric mv else mv
  | None => mv
  end.

Definition buildMetricValues (rows : list Row.t) : gmap string (list float) :=
  let empty := foldl (fun mv metric => <[metric := []]> mv) ∅ METRIC_FIELDS in
  let filled := foldl (fun mv row => foldl (pushMetric row) mv METRIC_FIELDS) empty rows in
  foldl (fun mv metric => alter sortNumbers metric mv) filled METRIC_FIELDS.

(** ** ScaleComputer *)

(** [vals[i]] for a number [i]: the element when [i] is an integer within
    the array, [undefined] otherwise. *)
Definition index (vals : list float) (i : float) : option float :=
  match toInteger i with
  | Some z => if (z <? 0)%Z then None else vals !! Z.to_nat z
  | None => None
  end.

(** The closure [q] of [computeGlobalScale]. *)
Definition q (vals : list float) (p : float) : option float :=
  let idx := (p / 100) * (JS.ofZ (Z.of_nat (length vals)) - 1) in
  let lo := JS.floor idx in
  let hi := JS.ceil idx in
  if PrimFloat.eqb lo hi then index vals lo
  else
    let t := idx - lo in
    Some (toNumber (index vals lo) * (1 - t) + toNumber (index vals hi) * t).

Definition computeGlobalScale (scaleCfg : ScaleCfg)
    (metricValues : gmap string (list float)) (metric : string) : Scale :=
  let vals := default [] (metricValues !! metric) in
  match vals with
  | [] => mkScale (Some 0) 1
  | _ =>
      let min := q vals (pLow scaleCfg) in
      let max := q vals (pHigh scaleCfg) in
      mkScale min (JS.max (toNumber max) (toNumber min + 1e-6))
  end.

(** ** RenderStateCoordinator *)

Record RenderState := mkRenderState {
  rs_src : string;
  rs_metric : string;
  rs_scaleMin : option float;
  rs_scaleMax : float
}.

(** [buildRenderState()]; [src] and [metric] are what [getCurrentSrc()]
    and [getCurrentMetric()] return. *)
Definition buildRenderState (scaleCfg : ScaleCfg)
    (metricValues : gmap string (list float)) (src metric : string) : RenderState :=
  let s := if auto scaleCfg
           then computeGlobalScale scaleCfg metricValues metric
           else mkScale (Some (minMs scaleCfg)) (maxMs scaleCfg) in
  mkRenderState src metric (scaleMin s) (scaleMax s).

(** ** Source index *)

Record Index := mkIndex {
  bySrc : gmap string (gmap string Row.t);
  allSrcCountrySet : gset string
}.

Definition indexRow (ix : Index) (r : Row.t) : Index :=
  let src := toUpperCase (trim (orEmpty (Row.src_country r))) in
  let dst := toUpperCase (trim (orEmpty (Row.dst_country r))) in
  if String.eqb src "" || String.eqb dst "" then ix
  else
    let inner := default ∅ (bySrc ix !! src) in
    mkIndex (<[src := <[dst := r]> inner]> (bySrc ix)) ({[src]} ∪ allSrcCountrySet ix).

Definition buildIndex (rows : list Row.t) : Index :=
  foldl indexRow (mkIndex ∅ ∅) rows.

(** ** Feature style *)

Record Style := mkStyle {
  weight : float;
  opacity : float;
  color : string;
  fillOpacity : float;
  fillColor : option string
}.

Section Style.
Variable log10 : float -> float.
Variable scaleCfg : ScaleCfg.
Variable ix : Index.
Variable renderState : RenderState.

(** [styleForFeature(feature)], with [iso2 = getFeatureIso2(feature)].
    The cell [row[metric]] is read through [Row.get], which covers the
    metric names of the numeric columns. *)
Definition styleForFeature (iso2 : string) : Style :=
  let metric := rs_metric renderState in
  let src := rs_src renderState in
  let isSelectedSource := negb (String.eqb src "") && String.eqb iso2 src in
  let row := bySrc ix !! src ≫= (fun srcMap => srcMap !! iso2) in
  let v := row ≫= (fun r => parseNum (Row.get r metric)) in
  let valid := match v with Some x => PrimFloat.leb 0 x | None => false end in
  let fill :=
    if isSelectedSource then Some selectedSourceColor
    else if valid
         then valueToColor log10 scaleCfg v
                (toNumber (rs_scaleMin renderState)) (rs_scaleMax renderState)
         else Some (missingColor scaleCfg) in
  mkStyle (if isSelectedSource then 2 else 1)
          (if isSelectedSource then 1 else 0.9)
          (if isSelectedSource then "#163dba" else "#666")
          (if isSelectedSource then 0.95 else 0.85)
          fill.
End Style.

Close Scope float_scope.

(** ** Country features

    The properties of a GeoJSON feature that the code reads.  A property
    is a string or is missing ([None]); [feature] itself or its
    [properties] may be missing too. *)

Module Feature.

Record properties := mkProperties {
  ISO3166_1_Alpha_2 : option string;
  ISO_A2 : option string;
  iso_a2 : option string;
  iso2 : option string;
  ISO2 : option string;
  name : option string;
  ADMIN : option string;
  admin : option string;
  NAME : option string
}.

(** [{}] *)
Definition empty : properties :=
  mkProperties None None None None None None None None None.

Record t := mk { props : option properties }.

End Feature.

(** [a || b] on text that may be missing: the empty string is falsy. *)
Definition orText (a b : option string) : option string :=
  match a with
  | Some s => if String.eqb s "" then b else a
  | None => b
  end.

(** [getFeatureIso2(feature)] *)
Definition getFeatureIso2 (feature : option Feature.t) : string :=
  let props := default Feature.empty (feature ≫= Feature.props) in
  let raw :=
    orText (orText (orText (orText (orText (Feature.ISO3166_1_Alpha_2 props)
                                           (Feature.ISO_A2 props))
                                   (Feature.iso_a2 props))
                           (Feature.iso2 props))
                   (Feature.ISO2 props))
           (Some ""%string) in
  toUpperCase (trim (orEmpty raw)).

(** [setSourceFromIso2(iso2)] for a string [iso2]: [None] when it returns
    [false]; [Some src] when it selects [src] in the source dropdown and
    returns [true]. *)
Definition setSourceFromIso2 (ix : Index) (iso2 : string) : option string :=
  let src := toUpperCase (trim (orEmpty (orText (Some iso2) (Some ""%string)))) in
  if String.eqb src "" || negb (bool_decide (src ∈ allSrcCountrySet ix)) then None
  else Some src.

(** ** RefreshScheduler

    [refreshLayer] and its closure [runRefresh] as a step function over
    the two flags and the animation-frame queue.  The queue holds at most
    one callback at any time: the outer arrow function
    [() => requestAnimationFrame(runRefresh)] or [runRefresh] itself.  The
    body of [runRefresh] is split at the [try] block, so that a call of
    [refreshLayer] made while the block runs is an event of its own. *)

Module Refresh.

Inductive phase :=
| Idle          (* no callback queued *)
| WaitOuter     (* the outer arrow function is queued *)
| WaitRun       (* [runRefresh] is queued *)
| Running.      (* inside the [try] block of [runRefresh] *)

Record state := mkState {
  geoLayer : bool;            (* [geoLayer] is not [null] *)
  refreshScheduled : bool;
  refreshPending : bool;
  mapLoading : bool;
  queue : phase;
  passes : nat                (* entries into the [try] block so far *)
}.

Inductive event :=
| Signal                      (* a call of [refreshLayer()] *)
| Frame                       (* the browser runs the queued callback *)
| PassEnd (thrown : bool).    (* the [try] block ends, normally or not *)

Definition refreshLayer (s : state) : state :=
  if negb (geoLayer s) then s
  else
    let s1 := mkState (geoLayer s) (refreshScheduled s) true (mapLoading s)
                      (queue s) (passes s) in
    if refreshScheduled s1 then s1
    else mkState (geoLayer s1) true (refreshPending s1) true WaitOuter (passes s1).

Definition step (s : state) (e : event) : option state :=
  match e, queue s with
  | Signal, _ => Some (refreshLayer s)
  | Frame, Idle => Some s
  | Frame, WaitOuter =>
      Some (mkState (geoLayer s) (refreshScheduled s) (refreshPending s)
                    (mapLoading s) WaitRun (passes s))
  | Frame, WaitRun =>
      Some (mkState (geoLayer s) (refreshScheduled s) false
                    (mapLoading s) Running (S (passes s)))
  | Frame, Running => None
  | PassEnd true, Running =>
      Some (mkState (geoLayer s) false (refreshPending s) false Idle (passes s))
  | PassEnd false, Running =>
      if refreshPending s
      then Some (mkState (geoLayer s) (refreshScheduled s) (refreshPending s)
                         (mapLoading s) WaitRun (passes s))
      else Some (mkState (geoLayer s) false (refreshPending s) false Idle (passes s))
  | PassEnd _, _ => None
  end.

Fixpoint run (s : state) (t : list event) : option state :=
  match t with
  | [] => Some s
  | e :: t' => match step s e with
               | Some s' => run s' t'
               | None => None
               end
  end.

(** The state once the map layer exists and nothing is scheduled. *)
Definition idle (k : nat) : state := mkState true false false false Idle k.

Definition signals (k : nat) : list event := replicate k Signal.

(** A state in which a refresh is scheduled. *)
Definition scheduled (pending : bool) (q : phase) (k : nat) : state :=
  mkState true true pending true q k.

(** A burst: [a] signals while idle, [b] more before [runRefresh] is
    called, [c] while the first pass runs, and, when a second pass has
    been queued, [d] more before it starts. *)
Definition burst (a b c d : nat) : list event :=
  signals a ++ [Frame] ++ signals b ++ [Frame] ++ signals c ++ [PassEnd false]
  ++ match c with
     | O => []
     | S _ => signals d ++ [Frame; PassEnd false]
     end.

End Refresh.

(** * Vocabulary of the statements

    Example rows and auxiliary notions used to state the properties. *)

Open Scope float_scope.

(** The row with a provided average of [-5] and otherwise usable data. *)
Definition row_negative_average : Row.t :=
  Row.mk (Some "US"%string) (Some "DE"%string) 100 50 10 80 40 60 70 (-5).

(** The row with a provided average and the [max_ms] sentinel. *)
Definition row_average_and_max_sentinel : Row.t :=
  Row.mk (Some "US"%string) (Some "DE"%string) 100 50 (-1) (-1) (-1) (-1) (-1) 5.

(** The row of the worked example: no average, [n = 100], [mean_ms = 50],
    [min_ms = -1], [p50_ms = -1], [p90_ms = 10], [p95_ms = 20],
    [max_ms = 80]. *)
Definition row_example : Row.t :=
  Row.mk (Some "US"%string) (Some "DE"%string) 100 50 (-1) 80 (-1) 10 20 PrimFloat.nan.

(** A row whose mean is [2 * 10^10] ms. *)
Definition row_huge : Row.t :=
  Row.mk (Some "US"%string) (Some "DE"%string) 100 20000000000 1 80 5 10 20 PrimFloat.nan.

(** [max <= min] as JavaScript evaluates it on a range. *)
Definition degenerate (s : Scale) : bool :=
  PrimFloat.leb (scaleMax s) (toNumber (scaleMin s)).

(** The values one row contributes to one metric. *)
Definition contribution (row : Row.t) (metric : string) : list float :=
  match parseNum (Row.get row metric) with
  | Some v => if PrimFloat.leb 0 v then [v] else []
  | None => []
  end.

(** The values of a metric over all rows, in row order. *)
Definition collected (rows : list Row.t) (metric : string) : list float :=
  concat (map (fun row => contribution row metric) rows).

(** The normalised country code of a cell. *)
Definition countryCode (v : option string) : string :=
  toUpperCase (trim (orEmpty v)).

(** The row shown for destination [dst] when [src] is selected. *)
Definition displayed (ix : Index) (src dst : string) : option Row.t :=
  bySrc ix !! src ≫= fun srcMap => srcMap !! dst.

(** A row that can be displayed and a row with a blank source country. *)
Definition row_visible : Row.t :=
  Row.mk (Some "us"%string) (Some "de"%string) 100 10 1 80 5 10 20 PrimFloat.nan.

Definition row_hidden : Row.t :=
  Row.mk (Some "  "%string) (Some "fr"%string) 100 1000 900 2000 950 980 990 PrimFloat.nan.

(** [computeAverageMs] calls [estimateInvalidCount(row, n)]: no finite
    [average_ms], [n] the rounded count and positive, a mean, no [max_ms]
    sentinel, and not both [min_ms !== -1] and [mean >= 0]. *)
Definition reachesEstimate (row : Row.t) (n : float) : bool :=
  match parseNum (Row.average_ms row), parseNum (Row.mean_ms row) with
  | None, Some mean =>
      PrimFloat.eqb n (match parseNum (Row.n row) with
                       | Some x => JS.round x
                       | None => 0
                       end)
      && negb (PrimFloat.leb n 0)
      && negb (JS.seq (parseNum (Row.max_ms row)) (-1))
      && negb (negb (JS.seq (parseNum (Row.min_ms row)) (-1)) && PrimFloat.leb 0 mean)
  | _, _ => false
  end.

(** A single sample whose minimum is the sentinel. *)
Definition row_single_sample : Row.t :=
  Row.mk (Some "US"%string) (Some "DE"%string) 1 (-1) (-1) 80 40 60 70 PrimFloat.nan.

(** A negative mean without the [min_ms] sentinel. *)
Definition row_negative_mean : Row.t :=
  Row.mk (Some "US"%string) (Some "DE"%string) 100 (-3) 5 80 40 60 70 PrimFloat.nan.

(** A non-decreasing sequence of numbers. *)
Definition ascending (vals : list float) : Prop :=
  forall (i j : nat) (x y : float),
    (i <= j)%nat -> vals !! i = Some x -> vals !! j = Some y ->
    PrimFloat.leb x y = true.

(** The binary64 forms that the facts below speak about. *)

Module FloatForm.

Definition sf_one : spec_float := S754_finite false 4503599627370496 (-52).

(** The result of rounding carries the sign it was given. *)
Inductive signed (s : bool) : spec_float -> Prop :=
| signed_zero : signed s (S754_zero s)
| signed_infinity : signed s (S754_infinity s)
| signed_finite m e : signed s (S754_finite s m e).

(** The mantissa and exponent of the integer [k] in binary64. *)
Definition int_m (k : positive) : positive :=
  Nat.iter (Z.to_nat (53 - Zpos (digits2_pos k))) xO k.

Definition int_e (k : positive) : Z := (Zpos (digits2_pos k) - 53)%Z.

Definition sf_int (z : Z) : spec_float :=
  match z with
  | Zpos k => S754_finite false (int_m k) (int_e k)
  | _ => S754_zero false
  end.

End FloatForm.

(** Shapes of binary64 values. *)

Module FloatShape.

(** A zero or a finite non-zero number. *)
Definition is_number (x : spec_float) : Prop :=
  match x with
  | S754_zero _ | S754_finite _ _ _ => True
  | _ => False
  end.

(** A non-zero value of sign [s]. *)
Inductive positive_result (s : bool) : spec_float -> Prop :=
| positive_infinity : positive_result s (S754_infinity s)
| positive_finite m e : positive_result s (S754_finite s m e).

End FloatShape.

(** A value [firstNonNegative] passes over: [null], or not [>= 0]. *)
Definition skipped (v : option float) : Prop :=
  match v with
  | Some y => PrimFloat.leb 0 y = false
  | None => True
  end.

(** The position of [x] on the axis of the colour ramp: [x] itself, or
    [log10(max(1e-6, x))] when the transform is ['log']. *)
Definition rampPosition (log10 : float -> float) (cfg : ScaleCfg) (x : float) : float :=
  if String.eqb (transform cfg) "log" then log10 (JS.max 1e-6 x) else x.

(** The two hexadecimal digits [toHex] prints for a channel value
    [0 <= z < 256], checked against [hexDigit]. *)
Definition hexChannelOk (z : Z) : bool :=
  match padStart2 (hexDigits 300 (Z.abs z) EmptyString) with
  | String a (String b EmptyString) =>
      negb (isSpace a) && negb (isSpace b)
      && match hexDigit a, hexDigit b with
         | Some h, Some l => Z.eqb (16 * h + l) z
         | _, _ => false
         end
  | _ => false
  end.

(** The value of a zero or finite binary64 form, as an integer multiple
    of [2^B], for [B] not above its exponent. *)

Module FloatValue.

Definition scaled (B : Z) (x : spec_float) : Z :=
  match x with
  | S754_finite s m e => cond_Zopp s (Zpos m * 2 ^ (e - B))
  | _ => 0
  end.

(** A zero, or a finite form that is valid and whose exponent is at
    least [B]. *)
Definition numeric (B : Z) (x : spec_float) : Prop :=
  match x with
  | S754_zero _ => True
  | S754_finite _ m e => bounded prec emax m e = true /\ (B <= e)%Z
  | _ => False
  end.

End FloatValue.

(** The normalised position of a value on the ramp: the distance of the
    value from [min] over the width [max - min] of the range (a zero
    width counts as [1]), both taken on the axis of the transform, and
    clamped to [0, 1]. *)
Definition rampFraction (log10 : float -> float) (cfg : ScaleCfg)
    (v minV maxV : float) : float :=
  let w := (rampPosition log10 cfg maxV - rampPosition log10 cfg minV)%float in
  clamp01 ((rampPosition log10 cfg v - rampPosition log10 cfg minV)
           / (if JS.truthy w then w else 1))%float.

(** The colour of the ramp at position [t]: each channel is interpolated
    linearly between the "fast" anchor [#00b050] = (0, 176, 80) and the
    "slow" anchor [#ff0000] = (255, 0, 0) and rounded to the nearest
    integer. *)
Definition rampColor (t : float) : string :=
  rgbToHex (mkRgb (JS.round (lerp 0 255 t))
                  (JS.round (lerp 176 0 t))
                  (JS.round (lerp 80 0 t)))%float.

(** Whether [buildIndex] files row [r] under source [src] and destination
    [dst]: both codes are non-empty and equal to the row's. *)
Definition filedUnder (src dst : string) (r : Row.t) : bool :=
  negb (String.eqb (countryCode (Row.src_country r)) "")
  && negb (String.eqb (countryCode (Row.dst_country r)) "")
  && String.eqb (countryCode (Row.src_country r)) src
  && String.eqb (countryCode (Row.dst_country r)) dst.

(** A string that is empty or starts with a character that [trim] keeps. *)
Definition headKept (s : string) : Prop :=
  match s with
  | String c _ => isSpace c = false
  | EmptyString => True
  end.

Close Scope float_scope.

(** ** Vocabulary for the scheduler *)

Module RefreshSpec.
Import Refresh.

(** The number of [refreshLayer()] calls in a trace. *)
Definition countSignals (t : list event) : nat :=
  length (List.filter (fun e => match e with Signal => true | _ => false end) t).

(** Whether a pass is still to come without any further signal: a
    callback is queued, or the running pass will queue [runRefresh] again. *)
Definition owed (s : state) : nat :=
  match queue s with
  | Idle => 0
  | WaitOuter | WaitRun => 1
  | Running => if refreshPending s then 1 else 0
  end.

(** The relation the code keeps between its flags and the frame queue:
    the layer exists, [refreshScheduled] is set exactly while a callback
    is queued or running, the loading indicator follows it, and a queued
    callback always finds [refreshPending] set. *)
Definition consistent (s : state) : bool :=
  geoLayer s
  && Bool.eqb (refreshScheduled s) (match queue s with Idle => false | _ => true end)
  && Bool.eqb (mapLoading s) (refreshScheduled s)
  && match queue s with
     | WaitOuter | WaitRun => refreshPending s
     | _ => true
     end.

(** The scheduler's own next events after a signal, up to the start of
    the next pass, when the running pass (if any) ends normally. *)
Definition untilNextPass (s : state) : list event :=
  match queue s with
  | Idle | WaitOuter => [Frame; Frame]
  | WaitRun => [Frame]
  | Running => [PassEnd false; Frame]
  end.

End RefreshSpec.

Open Scope float_scope.

(** * Properties *)

(** ** Binary64 facts

    Properties of the primitive operations, derived from their
    specification on [spec_float] (the standard library's [FloatAxioms]). *)

Module FloatFacts.
Import FloatForm.

Lemma SF_zero : Prim2SF 0%float = S754_zero false.
Proof. reflexivity. Qed.

Lemma SF_one : Prim2SF 1%float = sf_one.
Proof. reflexivity. Qed.

(** *** Comparisons *)

Lemma SFcompare_refl s : s <> S754_nan -> SFcompare s s = Some Eq.
Proof.
  destruct s as [[]|[]| |[] m e]; simpl; intros H; try reflexivity; try congruence;
    rewrite Z.compare_refl, Pos.compare_cont_refl; reflexivity.
Qed.

Lemma SFcompare_antisym a b : SFcompare b a = option_map CompOpp (SFcompare a b).
Proof.
  destruct a as [[]|[]| |[] ma ea], b as [[]|[]| |[] mb eb]; simpl; try reflexivity;
    rewrite (Z.compare_antisym ea eb); destruct (ea ?= eb)%Z; simpl; try reflexivity;
    rewrite (Pos.compare_cont_antisym ma mb Eq); simpl;
    destruct (Pos.compare_cont Eq ma mb); reflexivity.
Qed.

Lemma SFcompare_Some a b :
  a <> S754_nan -> b <> S754_nan -> exists c, SFcompare a b = Some c.
Proof.
  destruct a as [[]|[]| |[] ma ea], b as [[]|[]| |[] mb eb]; simpl; intros Ha Hb;
    try congruence; eexists; reflexivity.
Qed.

Lemma isNaN_false x : JS.isNaN x = false <-> Prim2SF x <> S754_nan.
Proof.
  unfold JS.isNaN, is_nan. rewrite FloatAxioms.eqb_spec. unfold SFeqb. split.
  - intros H E. rewrite E in H. discriminate.
  - intros H. rewrite SFcompare_refl by exact H. reflexivity.
Qed.

Lemma leb_not_nan a b :
  PrimFloat.leb a b = true -> JS.isNaN a = false /\ JS.isNaN b = false.
Proof.
  rewrite FloatAxioms.leb_spec, !isNaN_false. unfold SFleb.
  destruct (Prim2SF a) as [[]|[]| |[] ma ea], (Prim2SF b) as [[]|[]| |[] mb eb];
    simpl; intros H; try discriminate; split; congruence.
Qed.

Lemma ltb_leb a b : PrimFloat.ltb a b = true -> PrimFloat.leb a b = true.
Proof.
  rewrite FloatAxioms.ltb_spec, FloatAxioms.leb_spec. unfold SFltb, SFleb.
  destruct (SFcompare _ _) as [[]|]; congruence.
Qed.

Lemma leb_refl a : JS.isNaN a = false -> PrimFloat.leb a a = true.
Proof.
  rewrite isNaN_false, FloatAxioms.leb_spec. intros H. unfold SFleb.
  rewrite SFcompare_refl by exact H. reflexivity.
Qed.

Lemma not_ltb_leb a b :
  JS.isNaN a = false -> JS.isNaN b = false ->
  PrimFloat.ltb a b = false -> PrimFloat.leb b a = true.
Proof.
  rewrite !isNaN_false, FloatAxioms.ltb_spec, FloatAxioms.leb_spec. unfold SFltb, SFleb. intros Ha Hb.
  rewrite (SFcompare_antisym (Prim2SF a) (Prim2SF b)).
  destruct (SFcompare_Some _ _ Ha Hb) as [c ->]. destruct c; simpl; congruence.
Qed.

(** A number above a positive number, or not below it, is positive. *)
Lemma leb_pos c a :
  PrimFloat.ltb 0 c = true -> PrimFloat.leb c a = true -> PrimFloat.ltb 0 a = true.
Proof.
  rewrite !FloatAxioms.ltb_spec, FloatAxioms.leb_spec, SF_zero. unfold SFltb, SFleb.
  destruct (Prim2SF c) as [[]|[]| |[] mc ec], (Prim2SF a) as [[]|[]| |[] ma ea];
    simpl; congruence.
Qed.

Lemma ltb_0_inv x :
  PrimFloat.ltb 0 x = true ->
  Prim2SF x = S754_infinity false \/ exists m e, Prim2SF x = S754_finite false m e.
Proof.
  rewrite FloatAxioms.ltb_spec, SF_zero. unfold SFltb.
  destruct (Prim2SF x) as [[]|[]| |[] m e]; simpl; try discriminate; eauto.
Qed.

(** *** [Math.max] and [Math.min] select one of their arguments *)

Lemma max_cases a b :
  JS.isNaN a = false -> JS.isNaN b = false ->
  (JS.max a b = a /\ PrimFloat.leb b a = true)
  \/ (JS.max a b = b /\ PrimFloat.leb a b = true).
Proof.
  intros Ha Hb. unfold JS.max. rewrite Ha, Hb. cbn [orb].
  destruct (PrimFloat.ltb a b) eqn:Eab; [right; auto using ltb_leb|].
  destruct (PrimFloat.ltb b a) eqn:Eba; [left; auto using ltb_leb|].
  destruct (get_sign a); [right|left]; auto using not_ltb_leb.
Qed.

Lemma min_cases a b :
  JS.isNaN a = false -> JS.isNaN b = false ->
  (JS.min a b = a /\ PrimFloat.leb a b = true)
  \/ (JS.min a b = b /\ PrimFloat.leb b a = true).
Proof.
  intros Ha Hb. unfold JS.min. rewrite Ha, Hb. cbn [orb].
  destruct (PrimFloat.ltb a b) eqn:Eab; [left; auto using ltb_leb|].
  destruct (PrimFloat.ltb b a) eqn:Eba; [right; auto using ltb_leb|].
  destruct (get_sign a); [left|right]; auto using not_ltb_leb.
Qed.

Lemma max_pos_r a c :
  JS.isNaN a = false -> PrimFloat.ltb 0 c = true ->
  PrimFloat.ltb 0 (JS.max a c) = true.
Proof.
  intros Ha Hc.
  assert (Hn : JS.isNaN c = false).
  { apply ltb_leb, leb_not_nan in Hc. tauto. }
  destruct (max_cases a c Ha Hn) as [[-> H]|[-> _]]; [|exact Hc].
  exact (leb_pos c a Hc H).
Qed.

(** *** Rounding a non-negative mantissa never gives [NaN] *)

Lemma iter_pos_invariant {A : Type} (P : A -> Prop) (f : A -> A) :
  (forall x, P x -> P (f x)) -> forall n x, P x -> P (SpecFloat.iter_pos f n x).
Proof. intros Hf. induction n as [n IH|n IH|]; simpl; auto. Qed.

Lemma shr_1_nonneg mrs : (0 <= shr_m mrs)%Z -> (0 <= shr_m (shr_1 mrs))%Z.
Proof. destruct mrs as [[|[p|p|]|p] r s]; simpl; lia. Qed.

Lemma shr_fexp_nonneg m e l :
  (0 <= m)%Z -> (0 <= shr_m (fst (shr_fexp prec emax m e l)))%Z.
Proof.
  intros Hm. unfold shr_fexp, shr.
  assert (H0 : (0 <= shr_m (shr_record_of_loc m l))%Z).
  { destruct l as [|[]]; exact Hm. }
  destruct (fexp prec emax (Zdigits2 m + e) - e)%Z; cbn [fst]; auto.
  apply iter_pos_invariant; auto using shr_1_nonneg.
Qed.

Lemma round_nearest_even_nonneg m l :
  (0 <= m)%Z -> (0 <= round_nearest_even m l)%Z.
Proof. destruct l as [|[]]; simpl; try lia. destruct (Z.even m); lia. Qed.

Lemma binary_round_aux_signed s m e l :
  (0 <= m)%Z -> signed s (binary_round_aux prec emax s m e l).
Proof.
  intros Hm. unfold binary_round_aux.
  pose proof (shr_fexp_nonneg m e l Hm) as H1.
  destruct (shr_fexp prec emax m e l) as [mrs' e']. cbn [fst] in H1.
  pose proof (shr_fexp_nonneg _ e' loc_Exact
                (round_nearest_even_nonneg _ (loc_of_shr_record mrs') H1)) as H2.
  destruct (shr_fexp prec emax _ e' loc_Exact) as [mrs'' e'']. cbn [fst] in H2.
  destruct (shr_m mrs''); [constructor| |lia].
  destruct (Z.leb e'' (emax - prec)); constructor.
Qed.

Lemma binary_round_signed s m e : signed s (binary_round prec emax s m e).
Proof.
  unfold binary_round. destruct (shl_align m e _) as [mz ez].
  apply binary_round_aux_signed. lia.
Qed.

Lemma binary_normalize_signed m e :
  signed (m <? 0)%Z (binary_normalize prec emax m e false).
Proof. destruct m; simpl; [constructor|apply binary_round_signed..]. Qed.

Lemma signed_not_nan s x : signed s x -> x <> S754_nan.
Proof. intros []; discriminate. Qed.

Lemma mul_pos_not_nan x y :
  PrimFloat.ltb 0 x = true -> PrimFloat.ltb 0 y = true -> JS.isNaN (x * y) = false.
Proof.
  intros Hx Hy. apply isNaN_false. rewrite mul_spec.
  destruct (ltb_0_inv x Hx) as [->|(mx & ex & ->)],
           (ltb_0_inv y Hy) as [->|(my & ey & ->)]; try discriminate.
  unfold SF64mul, SFmul. eapply signed_not_nan, binary_round_aux_signed. lia.
Qed.

Lemma SFdiv_core_binary_nonneg m1 e1 m2 e2 :
  (0 < m1)%Z -> (0 < m2)%Z ->
  (0 <= fst (fst (SFdiv_core_binary prec emax m1 e1 m2 e2)))%Z.
Proof.
  intros H1 H2. unfold SFdiv_core_binary.
  set (s := (e1 - e2 - _)%Z).
  set (m' := match s with Zpos _ => Z.shiftl m1 s | Z0 => m1 | Zneg _ => 0%Z end).
  assert (Hm' : (0 <= m')%Z).
  { subst m'. destruct s; try lia. apply Z.shiftl_nonneg. lia. }
  pose proof (Z.div_pos m' m2 Hm' H2) as Hq. unfold Z.div in Hq.
  destruct (Z.div_eucl m' m2) as [q r]. exact Hq.
Qed.

(** [1 / m] is [NaN] only when [m] is. *)
Lemma div_one_not_nan m : JS.isNaN m = false -> JS.isNaN (1 / m) = false.
Proof.
  rewrite !isNaN_false, div_spec, SF_one. unfold sf_one, SF64div, SFdiv.
  destruct (Prim2SF m) as [sy|sy| |sy my ey]; try discriminate; [congruence|].
  intros _.
  pose proof (SFdiv_core_binary_nonneg (Zpos 4503599627370496) (-52) (Zpos my) ey
                eq_refl eq_refl) as H.
  destruct (SFdiv_core_binary _ _ _ _ _ _) as [[mz ez] lz]. cbn [fst] in H.
  eapply signed_not_nan, binary_round_aux_signed. exact H.
Qed.

Lemma ofZ_not_nan z : JS.isNaN (JS.ofZ z) = false.
Proof.
  apply isNaN_false. destruct z as [|p|p]; unfold JS.ofZ.
  - discriminate.
  - rewrite of_uint63_spec. eapply signed_not_nan, binary_normalize_signed.
  - rewrite opp_spec, of_uint63_spec.
    pose proof (binary_normalize_signed (Uint63Axioms.to_Z (Uint63.of_Z (- Z.neg p))) 0) as H.
    destruct H; discriminate.
Qed.

Lemma round_not_nan x : JS.isNaN x = false -> JS.isNaN (JS.round x) = false.
Proof.
  intros Hx. unfold JS.round.
  destruct (Prim2SF x) as [s|s| |s m e]; try exact Hx.
  destruct (0 <=? e)%Z; [exact Hx|].
  destruct (JS.split m e) as [[q r] d].
  destruct (r =? 0)%Z; [exact Hx|].
  destruct s.
  - destruct (d <? 2 * r)%Z; [apply ofZ_not_nan|].
    destruct (q =? 0)%Z; [reflexivity|apply ofZ_not_nan].
  - destruct (d <=? 2 * r)%Z; apply ofZ_not_nan.
Qed.

(** [n - 1 >= 1] holds only for a positive [n]. *)
Lemma sub_one_ge_one_pos n :
  PrimFloat.leb 1 (n - 1) = true -> PrimFloat.ltb 0 n = true.
Proof.
  rewrite FloatAxioms.leb_spec, FloatAxioms.ltb_spec, sub_spec, SF_zero, SF_one.
  unfold sf_one, SF64sub, SFsub.
  destruct (Prim2SF n) as [[]|[]| |[] m e]; try (intros H; discriminate H); try reflexivity.
  intros H. exfalso. revert H.
  match goal with |- context [binary_normalize _ _ ?z ?e ?b] =>
    pose proof (binary_normalize_signed z e) as Hs;
    assert (Hz : (z <? 0)%Z = true)
  end.
  { apply Z.ltb_lt. cbn [cond_Zopp]. lia. }
  rewrite Hz in Hs. destruct Hs; discriminate.
Qed.

Lemma ltb_0_not_nan x : PrimFloat.ltb 0 x = true -> JS.isNaN x = false.
Proof. intros H. apply ltb_leb, leb_not_nan in H. tauto. Qed.

Lemma max_not_nan a b :
  JS.isNaN a = false -> JS.isNaN b = false -> JS.isNaN (JS.max a b) = false.
Proof. intros Ha Hb. destruct (max_cases a b Ha Hb) as [[-> _]|[-> _]]; assumption. Qed.

(** *** Exact rounding and the binary64 form of an integer below [2^53] *)

Lemma iter_pos_nat {A : Type} (f : A -> A) n x :
  SpecFloat.iter_pos f n x = Nat.iter (Pos.to_nat n) f x.
Proof.
  revert x. induction n as [n IH|n IH|]; intros x; cbn [SpecFloat.iter_pos].
  - rewrite !IH. replace (Pos.to_nat n~1) with (S (Pos.to_nat n + Pos.to_nat n)) by lia.
    rewrite Nat.iter_succ_r, Nat.iter_add. reflexivity.
  - rewrite !IH. replace (Pos.to_nat n~0) with (Pos.to_nat n + Pos.to_nat n)%nat by lia.
    rewrite Nat.iter_add. reflexivity.
  - reflexivity.
Qed.

Lemma Pos_iter_nat {A : Type} (f : A -> A) n x :
  Pos.iter f x n = Nat.iter (Pos.to_nat n) f x.
Proof. rewrite Pos2Nat.inj_iter. reflexivity. Qed.

Lemma digits_iter_xO j p :
  Zpos (digits2_pos (Nat.iter j xO p)) = (Zpos (digits2_pos p) + Z.of_nat j)%Z.
Proof.
  induction j as [|j IH]; [cbn; lia|].
  rewrite Nat.iter_succ. cbn [digits2_pos]. lia.
Qed.

Lemma Zpos_iter_xO j p : Zpos (Nat.iter j xO p) = (Zpos p * 2 ^ Z.of_nat j)%Z.
Proof.
  induction j as [|j IH]; [cbn; lia|].
  rewrite Nat.iter_succ, Pos2Z.inj_xO, IH, Nat2Z.inj_succ, Z.pow_succ_r by lia. lia.
Qed.

Lemma shr_iter_xO j p :
  Nat.iter j shr_1 (Build_shr_record (Zpos (Nat.iter j xO p)) false false)
  = Build_shr_record (Zpos p) false false.
Proof.
  induction j as [|j IH]; [reflexivity|].
  rewrite Nat.iter_succ_r, (Nat.iter_succ j). exact IH.
Qed.

Lemma shr_fexp_exact p (j : nat) e :
  (fexp prec emax (Zpos (digits2_pos (Nat.iter j xO p)) + e) - e = Z.of_nat j)%Z ->
  shr_fexp prec emax (Zpos (Nat.iter j xO p)) e loc_Exact
  = (Build_shr_record (Zpos p) false false, (e + Z.of_nat j)%Z).
Proof.
  intros H. unfold shr_fexp. cbn [Zdigits2 shr_record_of_loc]. rewrite H. unfold shr.
  destruct j as [|j].
  - cbn. rewrite Z.add_0_r. reflexivity.
  - change (Z.of_nat (S j)) with (Zpos (Pos.of_succ_nat j)). cbv beta iota.
    rewrite iter_pos_nat, SuccNat2Pos.id_succ, shr_iter_xO. reflexivity.
Qed.

Lemma binary_round_aux_exact s p (j : nat) e :
  (fexp prec emax (Zpos (digits2_pos (Nat.iter j xO p)) + e) - e = Z.of_nat j)%Z ->
  (e + Z.of_nat j <= emax - prec)%Z ->
  binary_round_aux prec emax s (Zpos (Nat.iter j xO p)) e loc_Exact
  = S754_finite s p (e + Z.of_nat j).
Proof.
  intros H Hb. unfold binary_round_aux. rewrite (shr_fexp_exact p j e H).
  cbn [shr_m loc_of_shr_record round_nearest_even].
  pose proof (shr_fexp_exact p 0 (e + Z.of_nat j)) as H2.
  change (Nat.iter 0 xO p) with p in H2. rewrite H2.
  - cbn [shr_m Z.of_nat]. rewrite Z.add_0_r.
    apply Z.leb_le in Hb. rewrite Hb. reflexivity.
  - rewrite digits_iter_xO in H.
    replace (Zpos (digits2_pos p) + (e + Z.of_nat j))%Z
      with (Zpos (digits2_pos p) + Z.of_nat j + e)%Z by lia.
    cbn [Z.of_nat]. lia.
Qed.

Lemma digits2_pos_bound p : (2 ^ (Zpos (digits2_pos p) - 1) <= Zpos p < 2 ^ Zpos (digits2_pos p))%Z.
Proof.
  induction p as [p IH|p IH|]; cbn [digits2_pos]; [| |cbn; lia].
  - rewrite Pos2Z.inj_succ, Z.pow_succ_r by lia.
    replace (Z.succ (Zpos (digits2_pos p)) - 1)%Z with (Z.succ (Zpos (digits2_pos p) - 1)) by lia.
    rewrite Z.pow_succ_r by lia. lia.
  - rewrite Pos2Z.inj_succ, Z.pow_succ_r by lia.
    replace (Z.succ (Zpos (digits2_pos p)) - 1)%Z with (Z.succ (Zpos (digits2_pos p) - 1)) by lia.
    rewrite Z.pow_succ_r by lia. lia.
Qed.

Lemma digits_le_53 k : (Zpos k < 2 ^ 53)%Z -> (Zpos (digits2_pos k) <= 53)%Z.
Proof.
  intros H. pose proof (digits2_pos_bound k) as [Hlo _].
  destruct (Z_le_gt_dec (Zpos (digits2_pos k)) 53) as [|Hgt]; [assumption|].
  exfalso. assert (2 ^ 53 <= 2 ^ (Zpos (digits2_pos k) - 1))%Z
    by (apply Z.pow_le_mono_r; lia).
  lia.
Qed.

Lemma fexp_small d : (1 <= d <= 53)%Z -> fexp prec emax d = (d - 53)%Z.
Proof. intros H. unfold fexp, SpecFloat.emin, prec, emax. lia. Qed.

Lemma binary_round_aux_int s k (j : nat) :
  (Zpos (digits2_pos k) <= 53)%Z ->
  (53 - Zpos (digits2_pos k) <= Z.of_nat j)%Z ->
  binary_round_aux prec emax s (Zpos (Nat.iter j xO k)) (- Z.of_nat j) loc_Exact
  = S754_finite s (int_m k) (int_e k).
Proof.
  intros Hd Hj. unfold int_m, int_e.
  set (c := Z.to_nat (53 - Zpos (digits2_pos k))).
  assert (Hc : Z.of_nat c = (53 - Zpos (digits2_pos k))%Z) by (subst c; lia).
  assert (E : Nat.iter j xO k = Nat.iter (j - c) xO (Nat.iter c xO k)).
  { rewrite <- Nat.iter_add. f_equal. lia. }
  rewrite E, binary_round_aux_exact.
  - f_equal. lia.
  - rewrite <- E, digits_iter_xO.
    replace (Zpos (digits2_pos k) + Z.of_nat j + - Z.of_nat j)%Z
      with (Zpos (digits2_pos k)) by lia.
    pose proof (Pos2Z.is_pos (digits2_pos k)).
    rewrite fexp_small by lia. lia.
  - unfold prec, emax. lia.
Qed.

Lemma binary_round_int s k (j : nat) :
  (Zpos (digits2_pos k) <= 53)%Z ->
  binary_round prec emax s (Nat.iter j xO k) (- Z.of_nat j)
  = S754_finite s (int_m k) (int_e k).
Proof.
  intros Hd. unfold binary_round. rewrite digits_iter_xO.
  replace (Zpos (digits2_pos k) + Z.of_nat j + - Z.of_nat j)%Z
    with (Zpos (digits2_pos k)) by lia.
  pose proof (Pos2Z.is_pos (digits2_pos k)).
  rewrite fexp_small by lia. unfold shl_align.
  destruct (Zpos (digits2_pos k) - 53 - - Z.of_nat j)%Z as [|d|d] eqn:E.
  - apply binary_round_aux_int; lia.
  - apply binary_round_aux_int; lia.
  - rewrite Pos_iter_nat, <- Nat.iter_add.
    set (c := Z.to_nat (53 - Zpos (digits2_pos k))).
    replace (Pos.to_nat d + j)%nat with c by (subst c; lia).
    replace (Zpos (digits2_pos k) - 53)%Z with (- Z.of_nat c)%Z by (subst c; lia).
    apply binary_round_aux_int; subst c; lia.
Qed.

Lemma SF_ofZ z : (0 <= z < 2 ^ 53)%Z -> Prim2SF (JS.ofZ z) = sf_int z.
Proof.
  intros Hz. destruct z as [|k|k]; [reflexivity| |lia].
  unfold JS.ofZ. rewrite of_uint63_spec, Uint63.of_Z_spec, Z.mod_small.
  - cbn [binary_normalize sf_int].
    apply (binary_round_int false k 0), digits_le_53. lia.
  - change Uint63Axioms.wB with (2 ^ 63)%Z. split; [lia|].
    assert (2 ^ 53 < 2 ^ 63)%Z by (apply Z.pow_lt_mono_r; lia). lia.
Qed.

Lemma shl_align_int k :
  (Zpos (digits2_pos k) <= 53)%Z ->
  shl_align (int_m k) (int_e k) (-52) = (Nat.iter 52 xO k, (-52)%Z).
Proof.
  intros Hd. pose proof (Pos2Z.is_pos (digits2_pos k)) as Hp.
  unfold shl_align, int_m, int_e.
  set (c := Z.to_nat (53 - Zpos (digits2_pos k))).
  destruct (-52 - (Zpos (digits2_pos k) - 53))%Z as [|d|d] eqn:E.
  - replace c with 52%nat by (subst c; lia). f_equal. lia.
  - lia.
  - rewrite Pos_iter_nat, <- Nat.iter_add.
    replace (Pos.to_nat d + c)%nat with 52%nat by (subst c; lia). reflexivity.
Qed.

Lemma SF_ofZ_pred z :
  (1 <= z < 2 ^ 53)%Z -> Prim2SF (JS.ofZ z - 1) = sf_int (z - 1).
Proof.
  intros Hz. destruct z as [|k|k]; try lia.
  assert (Hd : (Zpos (digits2_pos k) <= 53)%Z) by (apply digits_le_53; lia).
  pose proof (Pos2Z.is_pos (digits2_pos k)) as Hp.
  rewrite sub_spec, SF_ofZ, SF_one by lia.
  unfold sf_int at 1, sf_one, SF64sub, SFsub. cbv zeta.
  replace (Z.min (int_e k) (-52)) with (-52)%Z by (unfold int_e; lia).
  rewrite shl_align_int by exact Hd.
  change (shl_align 4503599627370496 (-52) (-52)) with (Nat.iter 52 xO 1%positive, (-52)%Z).
  cbn [fst cond_Zopp].
  destruct (Pos.eq_dec k 1%positive) as [->|Hk]; [reflexivity|].
  assert (Hk' : (Zpos k - 1 = Zpos (Pos.pred k))%Z) by lia.
  replace (Zpos (Nat.iter 52 xO k) - Zpos (Nat.iter 52 xO 1%positive))%Z
    with (Zpos (Nat.iter 52 xO (Pos.pred k))).
  - rewrite Hk'. cbn [binary_normalize sf_int].
    apply (binary_round_int false (Pos.pred k) 52), digits_le_53. lia.
  - rewrite !Zpos_iter_xO, <- Hk'. ring.
Qed.

(** For an integral [n] from [2] on, [n - 1 >= 1]. *)
Lemma leb_one_pred z :
  (2 <= z < 2 ^ 53)%Z -> PrimFloat.leb 1 (JS.ofZ z - 1) = true.
Proof.
  intros Hz. rewrite FloatAxioms.leb_spec, SF_one, SF_ofZ_pred by lia.
  destruct (z - 1)%Z as [|k|k] eqn:E; try lia.
  unfold SFleb, SFcompare, sf_one, sf_int.
  destruct k as [k|k|]; [| |reflexivity].
  - assert (Hc : (-52 ?= int_e k~1)%Z = Lt)
      by (apply Z.compare_lt_iff; unfold int_e; cbn [digits2_pos]; lia).
    rewrite Hc. reflexivity.
  - assert (Hc : (-52 ?= int_e k~0)%Z = Lt)
      by (apply Z.compare_lt_iff; unfold int_e; cbn [digits2_pos]; lia).
    rewrite Hc. reflexivity.
Qed.

Lemma mul_zero_int x z : Prim2SF x = sf_int z -> (0 * x)%float = 0%float.
Proof.
  intros H. apply Prim2SF_inj. rewrite mul_spec, SF_zero, H.
  destruct z; reflexivity.
Qed.

Lemma mul_one_int x z :
  (0 <= z < 2 ^ 53)%Z -> Prim2SF x = sf_int z -> (1 * x)%float = x.
Proof.
  intros Hz H. apply Prim2SF_inj. rewrite mul_spec, SF_one, H.
  destruct z as [|k|k]; [reflexivity| |lia].
  assert (Hd : (Zpos (digits2_pos k) <= 53)%Z) by (apply digits_le_53; lia).
  pose proof (Pos2Z.is_pos (digits2_pos k)) as Hp.
  unfold sf_one, sf_int, SF64mul, SFmul. cbn [xorb].
  change (4503599627370496 * int_m k)%positive with (Nat.iter 52 xO (int_m k)).
  unfold int_m at 1. rewrite <- Nat.iter_add.
  set (c := Z.to_nat (53 - Zpos (digits2_pos k))).
  replace (-52 + int_e k)%Z with (- Z.of_nat (52 + c))%Z by (unfold int_e; subst c; lia).
  apply binary_round_aux_int; [exact Hd|subst c; lia].
Qed.

Lemma split_int k :
  (Zpos (digits2_pos k) <= 53)%Z ->
  JS.split (int_m k) (int_e k)
  = (Zpos k, 0%Z, (2 ^ (53 - Zpos (digits2_pos k)))%Z).
Proof.
  intros Hd. unfold JS.split, int_m, int_e.
  rewrite Zpos_iter_xO, Z2Nat.id by lia.
  replace (- (Zpos (digits2_pos k) - 53))%Z with (53 - Zpos (digits2_pos k))%Z by lia.
  assert (2 ^ (53 - Zpos (digits2_pos k)) <> 0)%Z by (apply Z.pow_nonzero; lia).
  rewrite Z.div_mul, Z.mod_mul by assumption. reflexivity.
Qed.

Lemma floor_int x z : (0 <= z < 2 ^ 53)%Z -> Prim2SF x = sf_int z -> JS.floor x = x.
Proof.
  intros Hz H. unfold JS.floor. rewrite H.
  destruct z as [|k|k]; [reflexivity| |lia]. cbn [sf_int].
  destruct (0 <=? int_e k)%Z; [reflexivity|].
  rewrite split_int by (apply digits_le_53; lia). reflexivity.
Qed.

Lemma ceil_int x z : (0 <= z < 2 ^ 53)%Z -> Prim2SF x = sf_int z -> JS.ceil x = x.
Proof.
  intros Hz H. unfold JS.ceil. rewrite H.
  destruct z as [|k|k]; [reflexivity| |lia]. cbn [sf_int].
  destruct (0 <=? int_e k)%Z; [reflexivity|].
  rewrite split_int by (apply digits_le_53; lia). reflexivity.
Qed.

Lemma toInteger_int x z :
  (0 <= z < 2 ^ 53)%Z -> Prim2SF x = sf_int z -> toInteger x = Some z.
Proof.
  intros Hz H. unfold toInteger. rewrite H.
  destruct z as [|k|k]; [reflexivity| |lia]. cbn [sf_int].
  assert (Hd : (Zpos (digits2_pos k) <= 53)%Z) by (apply digits_le_53; lia).
  destruct (0 <=? int_e k)%Z eqn:E.
  - apply Z.leb_le in E. unfold int_e in E.
    assert (E53 : Zpos (digits2_pos k) = 53%Z) by lia.
    unfold int_m, int_e. rewrite E53.
    change (Z.to_nat (53 - 53)) with 0%nat. change (53 - 53)%Z with 0%Z.
    cbn [Nat.iter nat_rect]. f_equal. lia.
  - rewrite split_int by exact Hd. reflexivity.
Qed.

Lemma eqb_int x z : Prim2SF x = sf_int z -> PrimFloat.eqb x x = true.
Proof.
  intros H. rewrite FloatAxioms.eqb_spec. unfold SFeqb.
  rewrite SFcompare_refl; [reflexivity|]. rewrite H. destruct z; discriminate.
Qed.


End FloatFacts.

(** ** Further binary64 facts *)

Module FloatMore.
Import FloatForm FloatShape FloatFacts.

Lemma isFinite_spec x : JS.isFinite x = true <-> is_number (Prim2SF x).
Proof.
  unfold JS.isFinite, is_finite, is_nan, is_infinity.
  rewrite !FloatAxioms.eqb_spec, abs_spec.
  change (Prim2SF infinity) with (S754_infinity false). unfold SFeqb.
  destruct (Prim2SF x) as [s|s| |s m e] eqn:E; cbn [SFabs is_number].
  - split; [intros _; exact I|reflexivity].
  - split; [|intros []]. destruct s; cbn; discriminate.
  - split; [|intros []]. cbn. discriminate.
  - split; [intros _; exact I|]. intros _.
    rewrite SFcompare_refl by discriminate. reflexivity.
Qed.

Lemma truthy_spec d :
  JS.truthy d = true
  <-> (exists s, Prim2SF d = S754_infinity s) \/ (exists s m e, Prim2SF d = S754_finite s m e).
Proof.
  unfold JS.truthy, JS.isNaN, is_nan, is_zero.
  rewrite !FloatAxioms.eqb_spec. change (Prim2SF zero) with (S754_zero false).
  unfold SFeqb.
  destruct (Prim2SF d) as [s|s| |s m e] eqn:E.
  - split; [destruct s; cbn; discriminate|].
    intros [(s' & H)|(s' & m & e & H)]; discriminate.
  - split; [eauto|]. intros _. destruct s; reflexivity.
  - split; [cbn; discriminate|].
    intros [(s' & H)|(s' & m & e & H)]; discriminate.
  - split; [eauto 6|]. intros _.
    rewrite SFcompare_refl by discriminate. destruct s; reflexivity.
Qed.

Lemma zero_cases x s : Prim2SF x = S754_zero s -> x = 0%float \/ x = (-0)%float.
Proof.
  intros H. rewrite <- (SF2Prim_Prim2SF x), H. destruct s; cbn; auto.
Qed.

(** [x - x] is [+0] for every finite [x]. *)
Lemma sub_self x : JS.isFinite x = true -> (x - x)%float = 0%float.
Proof.
  intros H. apply isFinite_spec in H. apply Prim2SF_inj.
  rewrite sub_spec, SF_zero. unfold SF64sub, SFsub.
  destruct (Prim2SF x) as [[]|s| |s m e]; try contradiction; try reflexivity.
  cbv zeta. rewrite Z.sub_diag. reflexivity.
Qed.

(** A zero divided by a number that is neither zero nor [NaN] is a zero. *)
Lemma zero_div z d :
  z = 0%float \/ z = (-0)%float -> JS.truthy d = true ->
  (z / d = 0)%float \/ (z / d)%float = (-0)%float.
Proof.
  intros Hz Hd. apply truthy_spec in Hd.
  assert (Hs : exists s, Prim2SF z = S754_zero s).
  { destruct Hz as [->| ->]; eexists; reflexivity. }
  destruct Hs as [s Hs].
  assert (H : exists s', Prim2SF (z / d) = S754_zero s').
  { rewrite div_spec, Hs. unfold SF64div, SFdiv.
    destruct Hd as [(s' & ->)|(s' & m & e & ->)]; eexists; reflexivity. }
  destruct H as [s' H]. exact (zero_cases _ _ H).
Qed.

(** A finite non-zero number divided by itself is [1]. *)
Lemma div_self d :
  JS.isFinite d = true -> JS.truthy d = true -> (d / d)%float = 1%float.
Proof.
  intros Hf Ht. apply isFinite_spec in Hf. apply truthy_spec in Ht.
  apply Prim2SF_inj. rewrite div_spec, SF_one.
  destruct Ht as [(s & E)|(s & m & e & E)]; rewrite E in *; [contradiction|]. clear Hf.
  unfold SF64div, SFdiv, SFdiv_core_binary. cbn [Zdigits2].
  replace (Zpos (digits2_pos m) + e - (Zpos (digits2_pos m) + e))%Z with 0%Z by lia.
  rewrite Z.sub_diag.
  change (Z.min (fexp prec emax 0) 0) with (-53)%Z.
  change (0 - -53)%Z with 53%Z. cbv iota beta.
  rewrite Z.shiftl_mul_pow2 by lia.
  pose proof (Z.div_mul (2 ^ 53) (Zpos m)) as Hq.
  pose proof (Z.mod_mul (2 ^ 53) (Zpos m)) as Hr.
  unfold Z.div in Hq. unfold Z.modulo in Hr.
  rewrite (Z.mul_comm (Zpos m)).
  destruct (Z.div_eucl (2 ^ 53 * Zpos m) (Zpos m)) as [q r].
  rewrite Hq, Hr by discriminate.
  rewrite xorb_nilpotent.
  change (new_location (Zpos m) 0) with loc_Exact ||
    (unfold new_location, new_location_even, new_location_odd;
     destruct (Z.even (Zpos m)); cbn [Z.eqb]).
  all: exact (binary_round_aux_exact false 4503599627370496 1 (-53) eq_refl ltac:(discriminate)).
Qed.

End FloatMore.

(** ** Binary64 order facts *)

Module FloatOrder.
Import FloatForm FloatShape FloatFacts FloatMore.

Lemma lex_trans (e1 e2 e3 : Z) (m1 m2 m3 : positive) (c1 c2 c3 : comparison) :
  match (e1 ?= e2)%Z with Lt => Lt | Gt => Gt | Eq => Pos.compare_cont Eq m1 m2 end = c1 ->
  match (e2 ?= e3)%Z with Lt => Lt | Gt => Gt | Eq => Pos.compare_cont Eq m2 m3 end = c2 ->
  match (e1 ?= e3)%Z with Lt => Lt | Gt => Gt | Eq => Pos.compare_cont Eq m1 m3 end = c3 ->
  (c1 <> Gt -> c2 <> Gt -> c3 <> Gt) /\ (c1 <> Lt -> c2 <> Lt -> c3 <> Lt).
Proof.
  change (Pos.compare_cont Eq m1 m2) with (m1 ?= m2)%positive.
  change (Pos.compare_cont Eq m2 m3) with (m2 ?= m3)%positive.
  change (Pos.compare_cont Eq m1 m3) with (m1 ?= m3)%positive.
  destruct (Z.compare_spec e1 e2), (Z.compare_spec e2 e3), (Z.compare_spec e1 e3);
    try lia;
    destruct (Pos.compare_spec m1 m2), (Pos.compare_spec m2 m3), (Pos.compare_spec m1 m3);
    try lia; intros <- <- <-; cbn; split; intros; congruence.
Qed.

Lemma SFleb_trans a b c :
  SFleb a b = true -> SFleb b c = true -> SFleb a c = true.
Proof.
  unfold SFleb.
  destruct a as [sa|sa| |sa ma ea], b as [sb|sb| |sb mb eb], c as [sc|sc| |sc mc ec];
    try (destruct sa); try (destruct sb); try (destruct sc);
    cbn [SFcompare]; try congruence; try reflexivity.
  all: pose proof (lex_trans ea eb ec ma mb mc _ _ _ eq_refl eq_refl eq_refl) as [Hle Hge];
    destruct (ea ?= eb)%Z; destruct (eb ?= ec)%Z; destruct (ea ?= ec)%Z;
    try destruct (Pos.compare_cont Eq ma mb);
    try destruct (Pos.compare_cont Eq mb mc);
    try destruct (Pos.compare_cont Eq ma mc);
    cbn in *; intros; try reflexivity; try congruence;
    exfalso; first [apply Hle; congruence | apply Hge; congruence].
Qed.

Lemma leb_trans a b c :
  PrimFloat.leb a b = true -> PrimFloat.leb b c = true -> PrimFloat.leb a c = true.
Proof. rewrite !FloatAxioms.leb_spec. apply SFleb_trans. Qed.

(** *** The sign of a difference decides the order *)

Lemma shr_1_m mrs : (0 <= shr_m mrs)%Z -> shr_m (shr_1 mrs) = (shr_m mrs / 2)%Z.
Proof.
  destruct mrs as [[|[p|p|]|p] r s]; cbn [shr_1 shr_m]; intros H; try lia.
  - reflexivity.
  - rewrite Pos2Z.inj_xI. apply (Z.div_unique _ _ _ 1); lia.
  - rewrite Pos2Z.inj_xO. apply (Z.div_unique _ _ _ 0); lia.
  - reflexivity.
Qed.

Lemma iter_shr_m (n : nat) mrs :
  (0 <= shr_m mrs)%Z ->
  shr_m (Nat.iter n shr_1 mrs) = (shr_m mrs / 2 ^ Z.of_nat n)%Z.
Proof.
  intros H. induction n as [|n IH].
  - cbn. rewrite Z.div_1_r. reflexivity.
  - rewrite Nat.iter_succ, shr_1_m, IH.
    + rewrite Nat2Z.inj_succ, Z.pow_succ_r, Z.div_div by lia.
      f_equal. lia.
    + rewrite IH. apply Z.div_pos; [exact H|]. apply Z.pow_pos_nonneg; lia.
Qed.

Lemma shr_fexp_pos m e l :
  (0 < m)%Z -> (emin <= e)%Z ->
  (0 < shr_m (fst (shr_fexp prec emax m e l)))%Z
  /\ (emin <= snd (shr_fexp prec emax m e l))%Z.
Proof.
  intros Hm He. destruct m as [|p|p]; try lia.
  unfold shr_fexp, shr. cbn [Zdigits2].
  assert (H0 : shr_m (shr_record_of_loc (Zpos p) l) = Zpos p).
  { destruct l as [|[]]; reflexivity. }
  destruct (fexp prec emax (Zpos (digits2_pos p) + e) - e)%Z as [|n|n] eqn:E;
    cbn [fst snd]; rewrite ?H0; try (split; lia).
  rewrite iter_pos_nat, iter_shr_m, H0 by (rewrite H0; lia).
  rewrite positive_nat_Z.
  assert (Hn : (Zpos n <= Zpos (digits2_pos p) - 1)%Z).
  { unfold fexp, SpecFloat.emin, prec, emax in *. lia. }
  pose proof (digits2_pos_bound p) as [Hlo _].
  assert (2 ^ Zpos n <= 2 ^ (Zpos (digits2_pos p) - 1))%Z
    by (apply Z.pow_le_mono_r; lia).
  split; [|lia]. apply Z.div_str_pos. split; [apply Z.pow_pos_nonneg; lia|lia].
Qed.

Lemma round_nearest_even_ge m l : (m <= round_nearest_even m l)%Z.
Proof. destruct l as [|[]]; cbn; try lia. destruct (Z.even m); lia. Qed.

Lemma binary_round_aux_pos s m e l :
  (0 < m)%Z -> (emin <= e)%Z -> positive_result s (binary_round_aux prec emax s m e l).
Proof.
  intros Hm He. unfold binary_round_aux.
  pose proof (shr_fexp_pos m e l Hm He) as [H1 H1e].
  destruct (shr_fexp prec emax m e l) as [mrs' e']. cbn [fst snd] in H1, H1e.
  pose proof (round_nearest_even_ge (shr_m mrs') (loc_of_shr_record mrs')) as Hr.
  assert (Hr' : (0 < round_nearest_even (shr_m mrs') (loc_of_shr_record mrs'))%Z) by lia.
  pose proof (shr_fexp_pos _ e' loc_Exact Hr' H1e) as [H2 _].
  destruct (shr_fexp prec emax _ e' loc_Exact) as [mrs'' e'']. cbn [fst] in H2.
  destruct (shr_m mrs''); try lia.
  destruct (Z.leb e'' (emax - prec)); constructor.
Qed.

Lemma binary_normalize_pos M e :
  (emin <= e)%Z ->
  SFltb (S754_zero false) (binary_normalize prec emax M e false) = (0 <? M)%Z.
Proof.
  intros He. destruct M as [|p|p]; cbn [binary_normalize].
  - reflexivity.
  - unfold binary_round.
    assert (Hz : (emin <= snd (shl_align p e (fexp prec emax (Zpos (digits2_pos p) + e))))%Z).
    { unfold shl_align.
      destruct (fexp prec emax (Zpos (digits2_pos p) + e) - e)%Z eqn:E; cbn [snd]; try lia.
      unfold fexp. lia. }
    destruct (shl_align p e _) as [mz ez]. cbn [snd] in Hz.
    destruct (binary_round_aux_pos false (Zpos mz) ez loc_Exact eq_refl Hz); reflexivity.
  - destruct (binary_round_signed true p e); reflexivity.
Qed.

Lemma shl_align_fst m e ez :
  (ez <= e)%Z -> Zpos (fst (shl_align m e ez)) = (Zpos m * 2 ^ (e - ez))%Z.
Proof.
  intros H. unfold shl_align. destruct (ez - e)%Z as [|d|d] eqn:E; cbn [fst]; try lia.
  - replace (e - ez)%Z with 0%Z by lia. lia.
  - rewrite Pos_iter_nat, Zpos_iter_xO, positive_nat_Z. f_equal. f_equal. lia.
Qed.

Lemma valid_finite_bounds s m e :
  valid_binary (S754_finite s m e) = true ->
  (emin <= e)%Z /\ (Zpos m < 2 ^ 53)%Z /\ (emin < e -> 2 ^ 52 <= Zpos m)%Z.
Proof.
  cbn [SpecFloat.valid_binary]. unfold bounded, canonical_mantissa.
  intros H. apply andb_prop in H as [H _]. apply Z.eqb_eq in H.
  pose proof (digits2_pos_bound m) as [Hlo Hhi].
  pose proof (Pos2Z.is_pos (digits2_pos m)) as Hd.
  unfold fexp, SpecFloat.emin, prec, emax in *.
  split; [lia|]. split.
  - assert (2 ^ Zpos (digits2_pos m) <= 2 ^ 53)%Z by (apply Z.pow_le_mono_r; lia). lia.
  - intros He. assert (Zpos (digits2_pos m) = 53%Z) as E by lia.
    rewrite E in Hlo. exact Hlo.
Qed.

Lemma aligned_lt m1 e1 m2 e2 :
  (emin <= e2 < e1)%Z -> (2 ^ 52 <= Zpos m1)%Z -> (Zpos m2 < 2 ^ 53)%Z ->
  (Zpos m2 * 2 ^ (e2 - Z.min e1 e2) < Zpos m1 * 2 ^ (e1 - Z.min e1 e2))%Z.
Proof.
  intros He H1 H2. rewrite Z.min_r by lia. rewrite Z.sub_diag, Z.mul_1_r.
  assert (2 ^ 1 <= 2 ^ (e1 - e2))%Z by (apply Z.pow_le_mono_r; lia).
  assert (2 ^ 52 * 2 ^ 1 <= Zpos m1 * 2 ^ (e1 - e2))%Z
    by (apply Z.mul_le_mono_nonneg; lia).
  change (2 ^ 52 * 2 ^ 1)%Z with (2 ^ 53)%Z in *. lia.
Qed.

Lemma compare_aligned s1 m1 e1 s2 m2 e2 :
  valid_binary (S754_finite s1 m1 e1) = true ->
  valid_binary (S754_finite s2 m2 e2) = true ->
  SFltb (S754_finite s2 m2 e2) (S754_finite s1 m1 e1)
  = (0 <? cond_Zopp s1 (Zpos (fst (shl_align m1 e1 (Z.min e1 e2))))
          - cond_Zopp s2 (Zpos (fst (shl_align m2 e2 (Z.min e1 e2)))))%Z.
Proof.
  intros V1 V2.
  apply valid_finite_bounds in V1 as (He1 & Hm1 & Hn1).
  apply valid_finite_bounds in V2 as (He2 & Hm2 & Hn2).
  rewrite !shl_align_fst by lia.
  assert (K1 : (e2 < e1 -> Zpos m2 * 2 ^ (e2 - Z.min e1 e2)
                           < Zpos m1 * 2 ^ (e1 - Z.min e1 e2))%Z).
  { intros H. apply aligned_lt; try lia; apply Hn1; lia. }
  assert (K2 : (e1 < e2 -> Zpos m1 * 2 ^ (e1 - Z.min e1 e2)
                           < Zpos m2 * 2 ^ (e2 - Z.min e1 e2))%Z).
  { intros H. rewrite Z.min_comm. apply aligned_lt; try lia; apply Hn2; lia. }
  assert (K3 : (e1 = e2 -> Zpos m1 * 2 ^ (e1 - Z.min e1 e2) = Zpos m1
                           /\ Zpos m2 * 2 ^ (e2 - Z.min e1 e2) = Zpos m2)%Z).
  { intros ->. rewrite Z.min_id, Z.sub_diag. lia. }
  assert (P1 : (0 < Zpos m1 * 2 ^ (e1 - Z.min e1 e2))%Z)
    by (apply Z.mul_pos_pos; [lia|apply Z.pow_pos_nonneg; lia]).
  assert (P2 : (0 < Zpos m2 * 2 ^ (e2 - Z.min e1 e2))%Z)
    by (apply Z.mul_pos_pos; [lia|apply Z.pow_pos_nonneg; lia]).
  set (X := (Zpos m1 * 2 ^ (e1 - Z.min e1 e2))%Z) in *.
  set (Y := (Zpos m2 * 2 ^ (e2 - Z.min e1 e2))%Z) in *.
  unfold SFltb, SFcompare.
  change (Pos.compare_cont Eq m2 m1) with (m2 ?= m1)%positive.
  destruct s1, s2; cbn [cond_Zopp];
    destruct (Z.compare_spec e2 e1) as [E|E|E];
    try destruct (Pos.compare_spec m2 m1) as [F|F|F];
    cbn [CompOpp]; symmetry;
    first [apply Z.ltb_lt | apply Z.ltb_ge]; try lia;
    try (specialize (K3 (eq_sym E)); lia).
Qed.

(** For two finite numbers, [x - y > 0] exactly when [y < x]. *)
Lemma sub_pos_iff x y :
  JS.isFinite x = true -> JS.isFinite y = true ->
  PrimFloat.ltb 0 (x - y) = PrimFloat.ltb y x.
Proof.
  intros Hx Hy. apply isFinite_spec in Hx, Hy.
  pose proof (Prim2SF_valid x) as Vx. pose proof (Prim2SF_valid y) as Vy.
  rewrite !FloatAxioms.ltb_spec, sub_spec, SF_zero. unfold SF64sub, SFsub.
  destruct (Prim2SF x) as [sx|sx| |sx mx ex], (Prim2SF y) as [sy|sy| |sy my ey];
    try contradiction.
  - destruct sx, sy; reflexivity.
  - destruct sy; reflexivity.
  - reflexivity.
  - cbv zeta. rewrite binary_normalize_pos.
    + symmetry. apply compare_aligned; assumption.
    + apply valid_finite_bounds in Vx as (? & _). apply valid_finite_bounds in Vy as (? & _).
      lia.
Qed.

End FloatOrder.

(** ** Binary64: rounding below a representable bound *)

Module FloatRound.
Import FloatForm FloatShape FloatValue FloatFacts FloatMore FloatOrder.
Open Scope Z_scope.

Lemma fexp_eq x : fexp prec emax x = Z.max (x - 53) (-1074).
Proof. reflexivity. Qed.

Lemma shr_record_m M l : shr_m (shr_record_of_loc M l) = M.
Proof. destruct l as [|[]]; reflexivity. Qed.

Lemma shr_record_loc M l : loc_of_shr_record (shr_record_of_loc M l) = l.
Proof. destruct l as [|[]]; reflexivity. Qed.

Lemma shr_1_keeps_exact m :
  0 <= m -> shr_1 (Build_shr_record (2 * m) false false) = Build_shr_record m false false.
Proof. intros Hm. destruct m as [|p|p]; [reflexivity|reflexivity|lia]. Qed.

Lemma iter_shr_keeps_exact (n : nat) m :
  0 <= m ->
  Nat.iter n shr_1 (Build_shr_record (2 ^ Z.of_nat n * m) false false)
  = Build_shr_record m false false.
Proof.
  intros Hm. induction n as [|n IH].
  - rewrite Z.pow_0_r, Z.mul_1_l. reflexivity.
  - rewrite Nat.iter_succ_r.
    replace (2 ^ Z.of_nat (S n) * m) with (2 * (2 ^ Z.of_nat n * m)).
    + rewrite shr_1_keeps_exact by (apply Z.mul_nonneg_nonneg; [apply Z.pow_nonneg|]; lia).
      exact IH.
    + rewrite Nat2Z.inj_succ, Z.pow_succ_r by lia. lia.
Qed.

(** The first step of rounding: the mantissa is divided by [2^k], and the
    result is exact as soon as nothing was cut off. *)
Lemma shr_spec M l E k :
  0 <= M ->
  snd (shr (shr_record_of_loc M l) E k) = E + Z.max k 0
  /\ shr_m (fst (shr (shr_record_of_loc M l) E k)) = M / 2 ^ Z.max k 0
  /\ (l = loc_Exact -> M = 2 ^ Z.max k 0 * (M / 2 ^ Z.max k 0) ->
      loc_of_shr_record (fst (shr (shr_record_of_loc M l) E k)) = loc_Exact).
Proof.
  intros HM. destruct k as [|p|p]; cbn [shr fst snd].
  - change (Z.max 0 0) with 0. change (2 ^ 0) with 1.
    rewrite Z.div_1_r, shr_record_m, shr_record_loc. repeat split; [lia|auto].
  - replace (Z.max (Zpos p) 0) with (Zpos p) by lia.
    rewrite iter_pos_nat. repeat split.
    + rewrite iter_shr_m by (rewrite shr_record_m; exact HM).
      rewrite shr_record_m, positive_nat_Z. reflexivity.
    + intros -> HE. cbn [shr_record_of_loc]. rewrite HE at 1.
      rewrite <- (positive_nat_Z p) at 1.
      rewrite iter_shr_keeps_exact; [reflexivity|].
      apply Z.div_pos; [exact HM|]. apply Z.pow_pos_nonneg; lia.
  - replace (Z.max (Zneg p) 0) with 0 by lia. change (2 ^ 0) with 1.
    rewrite Z.div_1_r, shr_record_m, shr_record_loc. repeat split; [lia|auto].
Qed.

Lemma round_nearest_even_cases m l :
  round_nearest_even m l = m
  \/ (round_nearest_even m l = m + 1 /\ l <> loc_Exact).
Proof.
  destruct l as [|[]]; cbn.
  - left; reflexivity.
  - destruct (Z.even m); [left; reflexivity|right; split; [reflexivity|discriminate]].
  - left; reflexivity.
  - right. split; [reflexivity|discriminate].
Qed.

Lemma Zdigits2_bound M : 0 < M -> 2 ^ (Zdigits2 M - 1) <= M < 2 ^ Zdigits2 M.
Proof. destruct M as [|p|p]; try lia. intros _. apply digits2_pos_bound. Qed.

Lemma Zdigits2_nonneg M : 0 <= Zdigits2 M.
Proof. destruct M; cbn; lia. Qed.

Lemma Zdigits2_le M n : 0 <= n -> 0 <= M < 2 ^ n -> Zdigits2 M <= n.
Proof.
  intros Hn [H0 H]. destruct (Z.eq_dec M 0) as [->|Hne]; [cbn; lia|].
  pose proof (Zdigits2_bound M ltac:(lia)) as [Hl _].
  destruct (Z_lt_le_dec n (Zdigits2 M)) as [Hlt|]; [|lia].
  assert (2 ^ n <= 2 ^ (Zdigits2 M - 1)) by (apply Z.pow_le_mono_r; lia). lia.
Qed.

Lemma bounded_spec N F :
  bounded prec emax N F = true ->
  fexp prec emax (Zpos (digits2_pos N) + F) = F /\ F <= 971 /\ -1074 <= F
  /\ Zpos N < 2 ^ 53.
Proof.
  unfold bounded, canonical_mantissa. intros H. apply andb_prop in H as [H1 H2].
  apply Z.eqb_eq in H1. apply Z.leb_le in H2. change (emax - prec) with 971 in H2.
  pose proof H1 as H1'. rewrite fexp_eq in H1'.
  repeat split; try lia.
  pose proof (digits2_pos_bound N) as [Hl _].
  destruct (Z_lt_le_dec (Zpos N) (2 ^ 53)) as [|Hge]; [assumption|].
  assert (Zpos (digits2_pos N) <= 53) by lia.
  pose proof (digits2_pos_bound N) as [_ Hu].
  assert (2 ^ Zpos (digits2_pos N) <= 2 ^ 53) by (apply Z.pow_le_mono_r; lia). lia.
Qed.


(** Rounding to nearest never crosses a representable number: if the
    exact value is at most [N * 2^F], so is the rounded one, and the
    rounding does not overflow. *)
Lemma binary_round_aux_le s M E l N F B :
  0 <= M -> B <= E -> B <= F ->
  E <= fexp prec emax (Zdigits2 M + E) ->
  fexp prec emax (Zdigits2 M + E) <= F ->
  bounded prec emax N F = true ->
  M * 2 ^ (E - B) <= Zpos N * 2 ^ (F - B) ->
  (l <> loc_Exact -> M * 2 ^ (E - B) < Zpos N * 2 ^ (F - B)) ->
  match binary_round_aux prec emax s M E l with
  | S754_zero s' => s' = s
  | S754_finite s' m e =>
      s' = s /\ B <= e /\ Zpos m * 2 ^ (e - B) <= Zpos N * 2 ^ (F - B)
  | _ => False
  end.
Proof.
  intros HM HBE HBF Hk HG HNF Hle Hlt.
  destruct (bounded_spec N F HNF) as (HcN & HF1 & HF2 & HN).
  unfold binary_round_aux, shr_fexp.
  set (e1 := fexp prec emax (Zdigits2 M + E)) in *.
  destruct (shr_spec M l E (e1 - E) HM) as (He & Hm & Hex).
  destruct (shr (shr_record_of_loc M l) E (e1 - E)) as [mrs1 e1'].
  cbn [fst snd] in He, Hm, Hex.
  replace (Z.max (e1 - E) 0) with (e1 - E) in * by lia.
  assert (He' : e1' = e1) by lia. clear He. subst e1'.
  set (q1 := M / 2 ^ (e1 - E)) in *.
  assert (Hq1 : 0 <= q1) by (apply Z.div_pos; [lia|apply Z.pow_pos_nonneg; lia]).
  assert (Hq1M : 2 ^ (e1 - E) * q1 <= M)
    by (apply Z.mul_div_le; apply Z.pow_pos_nonneg; lia).
  set (U := 2 ^ (e1 - B)).
  set (P := 2 ^ (E - B)) in *.
  assert (HU : U = 2 ^ (e1 - E) * P).
  { unfold U, P. rewrite <- Z.pow_add_r by lia. f_equal. lia. }
  set (Y := Zpos N * 2 ^ (F - e1)).
  assert (HY : Zpos N * 2 ^ (F - B) = Y * U).
  { unfold Y, U. rewrite <- Z.mul_assoc, <- Z.pow_add_r by lia. do 2 f_equal. lia. }
  assert (HUpos : 0 < U) by (apply Z.pow_pos_nonneg; lia).
  assert (HPpos : 0 < P) by (apply Z.pow_pos_nonneg; lia).
  assert (HKpos : 0 < 2 ^ (e1 - E)) by (apply Z.pow_pos_nonneg; lia).
  rewrite HY in *.
  set (m1 := round_nearest_even (shr_m mrs1) (loc_of_shr_record mrs1)).
  assert (Hm1 : 0 <= m1 /\ m1 <= Y).
  { unfold m1. rewrite Hm.
    assert (HqU : q1 * U <= Y * U) by (rewrite HU; nia).
    destruct (round_nearest_even_cases q1 (loc_of_shr_record mrs1)) as [->|[-> Hne]].
    - split; [lia|]. apply (Z.mul_le_mono_pos_r _ _ U HUpos). exact HqU.
    - split; [lia|].
      assert (HqY : q1 * U < Y * U).
      { destruct l as [|c].
        - destruct (Z.eq_dec M (2 ^ (e1 - E) * q1)) as [HEq|HNe].
          + exfalso. apply Hne. apply Hex; [reflexivity|exact HEq].
          + rewrite HU. nia.
        - specialize (Hlt ltac:(discriminate)). rewrite HU. nia. }
      apply (Z.mul_lt_mono_pos_r U) in HqY; [lia|exact HUpos]. }
  destruct Hm1 as [Hm1 Hm1Y].
  set (k2 := fexp prec emax (Zdigits2 m1 + e1) - e1).
  destruct (shr_spec m1 loc_Exact e1 k2 Hm1) as (He2 & Hm2 & _).
  fold m1. fold k2.
  destruct (shr (shr_record_of_loc m1 loc_Exact) e1 k2) as [mrs2 e2].
  cbn [fst snd] in He2, Hm2.
  assert (HYlt : Y < 2 ^ (53 + F - e1)).
  { unfold Y. replace (53 + F - e1) with (53 + (F - e1)) by lia.
    rewrite Z.pow_add_r by lia.
    apply Z.mul_lt_mono_pos_r; [apply Z.pow_pos_nonneg; lia|exact HN]. }
  assert (Hd1 : Zdigits2 m1 <= 53 + F - e1) by (apply Zdigits2_le; lia).
  assert (He2F : e2 <= F).
  { unfold k2 in He2. rewrite fexp_eq in He2. lia. }
  assert (HK2 : 0 < 2 ^ Z.max k2 0) by (apply Z.pow_pos_nonneg; lia).
  assert (Hm2le : 2 ^ Z.max k2 0 * shr_m mrs2 <= m1).
  { rewrite Hm2. apply Z.mul_div_le. exact HK2. }
  assert (Hm2pos : 0 <= shr_m mrs2).
  { rewrite Hm2. apply Z.div_pos; [exact Hm1|exact HK2]. }
  assert (HU2 : 2 ^ (e2 - B) = 2 ^ Z.max k2 0 * U).
  { unfold U. rewrite <- Z.pow_add_r by lia. f_equal. lia. }
  destruct (shr_m mrs2) as [|p|p].
  - reflexivity.
  - change (emax - prec) with 971.
    destruct (Z.leb_spec e2 971) as [_|Hgt]; [|lia].
    split; [reflexivity|]. split; [lia|].
    rewrite HU2. nia.
  - lia.
Qed.


(** The order of binary64 values is the order of their scaled values. *)
Lemma SFleb_negb_ltb x y :
  x <> S754_nan -> y <> S754_nan -> SFleb x y = negb (SFltb y x).
Proof.
  intros Hx Hy. unfold SFleb, SFltb. rewrite (SFcompare_antisym x y).
  destruct (SFcompare_Some x y Hx Hy) as [c ->]. destruct c; reflexivity.
Qed.

Lemma SFleb_scaled B x y :
  numeric B x -> numeric B y ->
  SFleb x y = (scaled B x <=? scaled B y).
Proof.
  intros Hx Hy.
  destruct x as [sx|sx| |sx mx ex]; try contradiction;
    destruct y as [sy|sy| |sy my ey]; try contradiction.
  - reflexivity.
  - destruct Hy as [_ Hy]. cbn [scaled]. unfold SFleb. cbn [SFcompare].
    assert (0 < Zpos my * 2 ^ (ey - B))
      by (apply Z.mul_pos_pos; [lia|apply Z.pow_pos_nonneg; lia]).
    destruct sy; cbn [cond_Zopp]; symmetry;
      [apply Z.leb_gt|apply Z.leb_le]; lia.
  - destruct Hx as [_ Hx]. cbn [scaled]. unfold SFleb. cbn [SFcompare].
    assert (0 < Zpos mx * 2 ^ (ex - B))
      by (apply Z.mul_pos_pos; [lia|apply Z.pow_pos_nonneg; lia]).
    destruct sx; cbn [cond_Zopp]; symmetry;
      [apply Z.leb_le|apply Z.leb_gt]; lia.
  - destruct Hx as [Vx Hx], Hy as [Vy Hy].
    rewrite SFleb_negb_ltb by discriminate.
    rewrite (compare_aligned sx mx ex sy my ey Vx Vy).
    rewrite !shl_align_fst by lia. cbn [scaled].
    set (mn := Z.min ex ey).
    assert (Ex : 2 ^ (ex - B) = 2 ^ (ex - mn) * 2 ^ (mn - B)).
    { rewrite <- Z.pow_add_r by lia. f_equal. lia. }
    assert (Ey : 2 ^ (ey - B) = 2 ^ (ey - mn) * 2 ^ (mn - B)).
    { rewrite <- Z.pow_add_r by lia. f_equal. lia. }
    rewrite Ex, Ey.
    assert (HS : 0 < 2 ^ (mn - B)) by (apply Z.pow_pos_nonneg; lia).
    assert (0 < 2 ^ (ex - mn)) by (apply Z.pow_pos_nonneg; lia).
    assert (0 < 2 ^ (ey - mn)) by (apply Z.pow_pos_nonneg; lia).
    destruct sx, sy; cbn [cond_Zopp];
      destruct (Z.ltb_spec 0 (- (Zpos mx * 2 ^ (ex - mn)) - - (Zpos my * 2 ^ (ey - mn))));
      destruct (Z.ltb_spec 0 (- (Zpos mx * 2 ^ (ex - mn)) - (Zpos my * 2 ^ (ey - mn))));
      destruct (Z.ltb_spec 0 ((Zpos mx * 2 ^ (ex - mn)) - - (Zpos my * 2 ^ (ey - mn))));
      destruct (Z.ltb_spec 0 ((Zpos mx * 2 ^ (ex - mn)) - (Zpos my * 2 ^ (ey - mn))));
      cbn [negb]; symmetry; first [apply Z.leb_le|apply Z.leb_gt]; nia.
Qed.

Lemma leb_scaled B a b :
  numeric B (Prim2SF a) -> numeric B (Prim2SF b) ->
  PrimFloat.leb a b = (scaled B (Prim2SF a) <=? scaled B (Prim2SF b)).
Proof. intros Ha Hb. rewrite FloatAxioms.leb_spec. apply SFleb_scaled; assumption. Qed.

Lemma prim_numeric B x :
  B <= -1074 -> is_number (Prim2SF x) -> numeric B (Prim2SF x).
Proof.
  intros HB H. pose proof (Prim2SF_valid x) as V.
  destruct (Prim2SF x) as [s|s| |s m e]; try contradiction; [exact I|].
  cbn in V. split; [exact V|]. destruct (bounded_spec m e V) as (_ & _ & ? & _). lia.
Qed.

Lemma scaled_one B : B <= -52 -> scaled B (Prim2SF 1%float) = 2 ^ (- B).
Proof.
  intros HB. rewrite SF_one. unfold sf_one. cbn [scaled cond_Zopp].
  change 4503599627370496 with (2 ^ 52). rewrite <- Z.pow_add_r by lia. f_equal. lia.
Qed.

(** A number between [0] and [1] is a zero or [m * 2^e] with
    [m <= 2^-e]. *)
Lemma unit_shape t :
  PrimFloat.leb 0 t = true -> PrimFloat.leb t 1 = true ->
  match Prim2SF t with
  | S754_zero _ => True
  | S754_finite s m e =>
      s = false /\ bounded prec emax m e = true /\ e <= 0 /\ Zpos m <= 2 ^ (- e)
  | _ => False
  end.
Proof.
  intros H0 H1.
  assert (Hn : is_number (Prim2SF t)).
  { rewrite FloatAxioms.leb_spec, ?SF_zero, ?SF_one in H0, H1.
    destruct (Prim2SF t) as [s|[]| |s m e]; cbn; try exact I; try discriminate. }
  pose proof (prim_numeric (-1074) t ltac:(lia) Hn) as Nt.
  rewrite (leb_scaled (-1074)) in H0, H1;
    try assumption; try (apply prim_numeric; [lia|]; rewrite ?SF_zero, ?SF_one; exact I).
  rewrite SF_zero in H0. rewrite scaled_one in H1 by lia.
  apply Z.leb_le in H0, H1. cbn [scaled] in H0.
  destruct (Prim2SF t) as [s|s| |s m e]; try contradiction; [exact I|].
  destruct Nt as [V He]. cbn [scaled] in H0, H1.
  assert (HP : 0 < 2 ^ (e - -1074)) by (apply Z.pow_pos_nonneg; lia).
  destruct s; cbn [cond_Zopp] in H0, H1; [nia|].
  split; [reflexivity|]. split; [exact V|].
  change (- -1074) with 1074 in H1.
  assert (He0 : e <= 0).
  { destruct (Z_le_gt_dec e 0) as [|Hgt]; [assumption|exfalso].
    assert (2 ^ 1074 < 2 ^ (e - -1074)) by (apply Z.pow_lt_mono_r; lia). nia. }
  split; [exact He0|].
  assert (E : 2 ^ 1074 = 2 ^ (- e) * 2 ^ (e - -1074)).
  { rewrite <- Z.pow_add_r by lia. f_equal. lia. }
  rewrite E in H1. apply Z.mul_le_mono_pos_r in H1; assumption.
Qed.

Lemma fexp_mono x y : x <= y -> fexp prec emax x <= fexp prec emax y.
Proof. rewrite !fexp_eq. lia. Qed.

(** The same for a positive mantissa: the bound places the exact value
    on the grid of the rounding. *)
Lemma binary_round_aux_le_pos s M E l N F B :
  0 < M -> B <= E -> B <= F ->
  E <= fexp prec emax (Zdigits2 M + E) ->
  bounded prec emax N F = true ->
  M * 2 ^ (E - B) <= Zpos N * 2 ^ (F - B) ->
  (l <> loc_Exact -> M * 2 ^ (E - B) < Zpos N * 2 ^ (F - B)) ->
  match binary_round_aux prec emax s M E l with
  | S754_zero s' => s' = s
  | S754_finite s' m e =>
      s' = s /\ B <= e /\ Zpos m * 2 ^ (e - B) <= Zpos N * 2 ^ (F - B)
  | _ => False
  end.
Proof.
  intros HM HBE HBF Hk HNF Hle Hlt.
  apply binary_round_aux_le; try assumption; [lia|].
  destruct (bounded_spec N F HNF) as (HcN & _ & _ & _).
  rewrite <- HcN. apply fexp_mono.
  pose proof (Zdigits2_bound M HM) as [Hl _].
  pose proof (digits2_pos_bound N) as [_ Hu].
  pose proof (Zdigits2_nonneg M).
  destruct (Z_le_gt_dec (Zdigits2 M + E) (Zpos (digits2_pos N) + F)) as [|Hgt];
    [assumption|exfalso].
  assert (H1 : 2 ^ (Zdigits2 M - 1) * 2 ^ (E - B) <= M * 2 ^ (E - B)).
  { apply Z.mul_le_mono_nonneg_r; [apply Z.pow_nonneg; lia|exact Hl]. }
  assert (H2 : Zpos N * 2 ^ (F - B) < 2 ^ Zpos (digits2_pos N) * 2 ^ (F - B)).
  { apply Z.mul_lt_mono_pos_r; [apply Z.pow_pos_nonneg; lia|exact Hu]. }
  assert (Zdigits2 M >= 1).
  { destruct M; cbn; lia. }
  rewrite <- Z.pow_add_r in H1, H2 by lia.
  assert (2 ^ (Zpos (digits2_pos N) + (F - B)) <= 2 ^ (Zdigits2 M - 1 + (E - B)))
    by (apply Z.pow_le_mono_r; lia).
  lia.
Qed.

Lemma Zdigits2_mul a b :
  Zpos (digits2_pos a) + Zpos (digits2_pos b) - 1 <= Zpos (digits2_pos (a * b)).
Proof.
  pose proof (digits2_pos_bound a) as [Ha _].
  pose proof (digits2_pos_bound b) as [Hb _].
  pose proof (digits2_pos_bound (a * b)) as [_ Hab].
  destruct (Z_le_gt_dec (Zpos (digits2_pos a) + Zpos (digits2_pos b) - 1)
              (Zpos (digits2_pos (a * b)))) as [|Hgt]; [assumption|exfalso].
  assert (H : 2 ^ (Zpos (digits2_pos a) - 1) * 2 ^ (Zpos (digits2_pos b) - 1)
              <= Zpos a * Zpos b).
  { apply Z.mul_le_mono_nonneg; try assumption; apply Z.pow_nonneg; lia. }
  rewrite <- Z.pow_add_r in H by lia.
  assert (2 ^ Zpos (digits2_pos (a * b))
          <= 2 ^ (Zpos (digits2_pos a) - 1 + (Zpos (digits2_pos b) - 1)))
    by (apply Z.pow_le_mono_r; lia).
  rewrite Pos2Z.inj_mul in Hab. lia.
Qed.

(** The product of a finite number [c] and a number between [0] and
    [1]: a zero, or a number with the sign of [c] and at most its
    magnitude. *)
Lemma mul_unit_shape c t :
  JS.isFinite c = true ->
  PrimFloat.leb 0 t = true -> PrimFloat.leb t 1 = true ->
  match Prim2SF (c * t)%float with
  | S754_zero _ => True
  | S754_finite s m e =>
      exists mc ec, Prim2SF c = S754_finite s mc ec
        /\ Zpos m * 2 ^ (e - -2148) <= Zpos mc * 2 ^ (ec - -2148)
  | _ => False
  end.
Proof.
  intros Hc H0 H1. apply isFinite_spec in Hc.
  pose proof (unit_shape t H0 H1) as Ht.
  pose proof (Prim2SF_valid c) as Vc.
  rewrite mul_spec. unfold SF64mul, SFmul.
  destruct (Prim2SF c) as [sc|sc| |sc mc ec]; try contradiction;
    destruct (Prim2SF t) as [st|st| |st mt et]; try contradiction; try exact I.
  destruct Ht as (-> & Vt & Het & Hmt). cbn in Vc.
  rewrite xorb_false_r.
  destruct (bounded_spec mc ec Vc) as (Cc & _ & Hec & _).
  destruct (bounded_spec mt et Vt) as (Ct & _ & Het' & _).
  pose proof (Zdigits2_mul mc mt) as Hd.
  pose proof (binary_round_aux_le_pos sc (Zpos (mc * mt)) (ec + et) loc_Exact
                mc ec (-2148)) as R.
  cbn [Zdigits2] in R. rewrite fexp_eq in R, Cc, Ct.
  assert (0 < Zpos (digits2_pos mc)) by lia.
  assert (0 < Zpos (digits2_pos mt)) by lia.
  specialize (R ltac:(lia) ltac:(lia) ltac:(lia) ltac:(lia) Vc).
  assert (Hle : Zpos (mc * mt) * 2 ^ (ec + et - -2148) <= Zpos mc * 2 ^ (ec - -2148)).
  { rewrite Pos2Z.inj_mul.
    assert (E : 2 ^ (ec - -2148) = 2 ^ (- et) * 2 ^ (ec + et - -2148)).
    { rewrite <- Z.pow_add_r by lia. f_equal. lia. }
    rewrite E.
    assert (0 < 2 ^ (ec + et - -2148)) by (apply Z.pow_pos_nonneg; lia).
    nia. }
  specialize (R Hle ltac:(congruence)).
  destruct (binary_round_aux prec emax sc (Zpos (mc * mt)) (ec + et) loc_Exact)
    as [s|s| |s m e]; try contradiction; [exact I|].
  destruct R as (-> & _ & R). exists mc, ec. split; [reflexivity|exact R].
Qed.

Lemma leb_of_scaled B a b :
  B <= -1074 -> is_number (Prim2SF a) -> is_number (Prim2SF b) ->
  scaled B (Prim2SF a) <= scaled B (Prim2SF b) -> PrimFloat.leb a b = true.
Proof.
  intros HB Ha Hb H. rewrite (leb_scaled B) by (apply prim_numeric; assumption).
  apply Z.leb_le. exact H.
Qed.

Lemma scaled_of_leb B a b :
  B <= -1074 -> is_number (Prim2SF a) -> is_number (Prim2SF b) ->
  PrimFloat.leb a b = true -> scaled B (Prim2SF a) <= scaled B (Prim2SF b).
Proof.
  intros HB Ha Hb H. rewrite (leb_scaled B) in H by (apply prim_numeric; assumption).
  apply Z.leb_le. exact H.
Qed.

Lemma scaled_pos B (m : positive) e : B <= e -> 0 < Zpos m * 2 ^ (e - B).
Proof. intros. apply Z.mul_pos_pos; [lia|apply Z.pow_pos_nonneg; lia]. Qed.

Lemma mul_unit_nonneg c t :
  JS.isFinite c = true -> PrimFloat.leb 0 c = true ->
  PrimFloat.leb 0 t = true -> PrimFloat.leb t 1 = true ->
  PrimFloat.leb 0 (c * t) = true /\ PrimFloat.leb (c * t) c = true.
Proof.
  intros Hf Hc H0 H1. pose proof (mul_unit_shape c t Hf H0 H1) as S.
  apply isFinite_spec in Hf.
  assert (Hn : is_number (Prim2SF (c * t)%float)).
  { destruct (Prim2SF (c * t)%float); try contradiction; exact I. }
  assert (Hz : is_number (Prim2SF 0%float)) by (rewrite SF_zero; exact I).
  pose proof (scaled_of_leb (-2148) 0 c ltac:(lia) Hz Hf Hc) as Sc.
  rewrite SF_zero in Sc. cbn [scaled] in Sc.
  pose proof (prim_numeric (-2148) (c * t) ltac:(lia) Hn) as Nn.
  split; apply (leb_of_scaled (-2148)); try assumption; try lia;
    rewrite ?SF_zero; cbn [scaled];
    destruct (Prim2SF (c * t)%float) as [s|s| |s m e]; try contradiction;
    cbn [scaled]; try lia;
    destruct S as (mc & ec & Ec & S); rewrite Ec in *; cbn [scaled] in *;
    destruct Nn as [_ Hn']; pose proof (scaled_pos (-2148) m e Hn');
    destruct s; cbn [cond_Zopp] in *; lia.
Qed.

Lemma mul_unit_nonpos c t :
  JS.isFinite c = true -> PrimFloat.leb c 0 = true ->
  PrimFloat.leb 0 t = true -> PrimFloat.leb t 1 = true ->
  PrimFloat.leb c (c * t) = true /\ PrimFloat.leb (c * t) 0 = true.
Proof.
  intros Hf Hc H0 H1. pose proof (mul_unit_shape c t Hf H0 H1) as S.
  apply isFinite_spec in Hf.
  assert (Hn : is_number (Prim2SF (c * t)%float)).
  { destruct (Prim2SF (c * t)%float); try contradiction; exact I. }
  assert (Hz : is_number (Prim2SF 0%float)) by (rewrite SF_zero; exact I).
  pose proof (scaled_of_leb (-2148) c 0 ltac:(lia) Hf Hz Hc) as Sc.
  rewrite SF_zero in Sc. cbn [scaled] in Sc.
  pose proof (prim_numeric (-2148) (c * t) ltac:(lia) Hn) as Nn.
  split; apply (leb_of_scaled (-2148)); try assumption; try lia;
    rewrite ?SF_zero; cbn [scaled];
    destruct (Prim2SF (c * t)%float) as [s|s| |s m e]; try contradiction;
    cbn [scaled]; try lia;
    destruct S as (mc & ec & Ec & S); rewrite Ec in *; cbn [scaled] in *;
    destruct Nn as [_ Hn']; pose proof (scaled_pos (-2148) m e Hn');
    destruct s; cbn [cond_Zopp] in *; lia.
Qed.

Lemma mul_comm a b : (a * b)%float = (b * a)%float.
Proof.
  apply Prim2SF_inj. rewrite !mul_spec. unfold SF64mul, SFmul.
  destruct (Prim2SF a) as [sa|sa| |sa ma ea], (Prim2SF b) as [sb|sb| |sb mb eb];
    try reflexivity; try (rewrite xorb_comm; reflexivity).
  rewrite xorb_comm, Pos.mul_comm, Z.add_comm. reflexivity.
Qed.

(** [0 + x] stays where [x] is. *)
Lemma zero_add_range x c :
  PrimFloat.leb 0 x = true -> PrimFloat.leb x c = true ->
  PrimFloat.leb 0 (0 + x) = true /\ PrimFloat.leb (0 + x) c = true.
Proof.
  rewrite !FloatAxioms.leb_spec, add_spec, SF_zero. unfold SF64add, SFadd.
  destruct (Prim2SF x) as [[]|[]| |s m e]; auto; try discriminate.
Qed.

Lemma shl_align_spec m e t :
  snd (shl_align m e t) = Z.min e t
  /\ Zpos (fst (shl_align m e t)) = Zpos m * 2 ^ (e - Z.min e t)
  /\ Zpos (digits2_pos (fst (shl_align m e t))) + Z.min e t
     = Zpos (digits2_pos m) + e.
Proof.
  unfold shl_align. destruct (t - e) as [|d|d] eqn:E; cbn [fst snd].
  - replace (Z.min e t) with e by lia. rewrite Z.sub_diag. cbn. lia.
  - replace (Z.min e t) with e by lia. rewrite Z.sub_diag. cbn. lia.
  - replace (Z.min e t) with t by lia.
    rewrite Pos_iter_nat, Zpos_iter_xO, digits_iter_xO, positive_nat_Z.
    replace (e - t) with (Zpos d) by lia. lia.
Qed.

Lemma binary_round_le s p ez N F B :
  B <= ez -> B <= -1074 -> B <= F ->
  bounded prec emax N F = true ->
  Zpos p * 2 ^ (ez - B) <= Zpos N * 2 ^ (F - B) ->
  match binary_round prec emax s p ez with
  | S754_zero s' => s' = s
  | S754_finite s' m e =>
      s' = s /\ B <= e /\ Zpos m * 2 ^ (e - B) <= Zpos N * 2 ^ (F - B)
  | _ => False
  end.
Proof.
  intros HBe HB HBF V Hle. unfold binary_round.
  set (t := fexp prec emax (Zpos (digits2_pos p) + ez)).
  destruct (shl_align_spec p ez t) as (Hs & Hm & Hd).
  destruct (shl_align p ez t) as [mz ez']. cbn [fst snd] in Hs, Hm, Hd.
  assert (Ht : -1074 <= t) by (unfold t; rewrite fexp_eq; lia).
  apply binary_round_aux_le_pos; try assumption; try lia.
  - cbn [Zdigits2]. rewrite Hs, Hd. fold t. lia.
  - rewrite Hm, Hs, <- Z.mul_assoc, <- Z.pow_add_r by lia.
    replace (ez - Z.min ez t + (Z.min ez t - B)) with (ez - B) by lia. exact Hle.
  - congruence.
Qed.

(** Adding to a positive [c] a number between [-c] and [0] gives a
    number between [0] and [c]. *)
Lemma add_nonpos_range c y :
  JS.isFinite c = true -> PrimFloat.ltb 0 c = true ->
  PrimFloat.leb (- c) y = true -> PrimFloat.leb y 0 = true ->
  PrimFloat.leb 0 (c + y) = true /\ PrimFloat.leb (c + y) c = true.
Proof.
  intros Hf Hc Hl Hu. apply isFinite_spec in Hf.
  destruct (ltb_0_inv c Hc) as [E|(mc & ec & E)]; rewrite E in Hf; [contradiction|].
  pose proof (Prim2SF_valid c) as Vc. rewrite E in Vc. cbn in Vc.
  destruct (bounded_spec mc ec Vc) as (_ & _ & Hec & _).
  assert (Hy : match Prim2SF y with
               | S754_zero _ => True
               | S754_finite s my ey =>
                   s = true /\ bounded prec emax my ey = true
                   /\ Zpos my * 2 ^ (ey - -1074) <= Zpos mc * 2 ^ (ec - -1074)
               | _ => False
               end).
  { pose proof (Prim2SF_valid y) as Vy.
    rewrite FloatAxioms.leb_spec in Hl, Hu. rewrite opp_spec, E in Hl. rewrite SF_zero in Hu.
    cbn [SFopp negb] in Hl.
    destruct (Prim2SF y) as [s|[]| |[] my ey]; try exact I;
      try (cbn in Hl, Hu; discriminate).
    cbn in Vy. split; [reflexivity|]. split; [exact Vy|].
    destruct (bounded_spec my ey Vy) as (_ & _ & Hey & _).
    rewrite (SFleb_scaled (-1074)) in Hl by (cbn; split; assumption).
    apply Z.leb_le in Hl. cbn [scaled cond_Zopp] in Hl. lia. }
  assert (S : match Prim2SF (c + y)%float with
              | S754_zero _ => True
              | S754_finite s m e =>
                  s = false /\ Zpos m * 2 ^ (e - -1074) <= Zpos mc * 2 ^ (ec - -1074)
              | _ => False
              end).
  { rewrite add_spec, E. unfold SF64add, SFadd.
    destruct (Prim2SF y) as [s|s| |s my ey]; try contradiction.
    - split; [reflexivity|lia].
    - destruct Hy as (-> & Vy & Hy).
      destruct (bounded_spec my ey Vy) as (_ & _ & Hey & _).
      cbv zeta. cbn [cond_Zopp]. rewrite !shl_align_fst by lia.
      set (ez := Z.min ec ey).
      assert (Ec : 2 ^ (ec - -1074) = 2 ^ (ec - ez) * 2 ^ (ez - -1074)).
      { rewrite <- Z.pow_add_r by lia. f_equal. lia. }
      assert (Ey : 2 ^ (ey - -1074) = 2 ^ (ey - ez) * 2 ^ (ez - -1074)).
      { rewrite <- Z.pow_add_r by lia. f_equal. lia. }
      assert (HP : 0 < 2 ^ (ez - -1074)) by (apply Z.pow_pos_nonneg; lia).
      assert (0 < 2 ^ (ec - ez)) by (apply Z.pow_pos_nonneg; lia).
      assert (0 < 2 ^ (ey - ez)) by (apply Z.pow_pos_nonneg; lia).
      rewrite Ec, Ey in Hy.
      destruct (Zpos mc * 2 ^ (ec - ez) + - (Zpos my * 2 ^ (ey - ez))) as [|p|p] eqn:ES;
        cbn [binary_normalize].
      + exact I.
      + pose proof (binary_round_le false p ez mc ec (-1074)
                      ltac:(lia) ltac:(lia) ltac:(lia) Vc) as R.
        rewrite Ec in R. specialize (R ltac:(nia)).
        destruct (binary_round prec emax false p ez) as [s|s| |s m e];
          try contradiction; [exact I|].
        destruct R as (-> & _ & R). split; [reflexivity|]. rewrite Ec. exact R.
      + nia. }
  assert (Hn : is_number (Prim2SF (c + y)%float)).
  { destruct (Prim2SF (c + y)%float); try contradiction; exact I. }
  assert (Hz : is_number (Prim2SF 0%float)) by (rewrite SF_zero; exact I).
  assert (Hcn : is_number (Prim2SF c)) by (rewrite E; exact I).
  pose proof (prim_numeric (-1074) (c + y) ltac:(lia) Hn) as Nn.
  split; apply (leb_of_scaled (-1074)); try assumption; try lia;
    rewrite ?SF_zero, ?E; cbn [scaled cond_Zopp];
    destruct (Prim2SF (c + y)%float) as [s|s| |s m e]; try contradiction;
    cbn [scaled]; try (pose proof (scaled_pos (-1074) mc ec ltac:(lia)); lia);
    destruct S as (-> & S); destruct Nn as [_ Hn'];
    pose proof (scaled_pos (-1074) m e Hn'); cbn [cond_Zopp]; lia.
Qed.

Lemma scaled_int c :
  0 <= c < 2 ^ 53 -> scaled (-1074) (sf_int c) = c * 2 ^ 1074.
Proof.
  intros Hc. destruct c as [|k|k]; [reflexivity| |lia].
  pose proof (digits_le_53 k ltac:(lia)) as Hd.
  unfold sf_int, int_m, int_e. cbn [scaled cond_Zopp].
  rewrite Zpos_iter_xO, Z2Nat.id by lia.
  rewrite <- Z.mul_assoc, <- Z.pow_add_r by lia. do 2 f_equal. lia.
Qed.

Lemma ofZ_is_number c : 0 <= c < 2 ^ 53 -> is_number (Prim2SF (JS.ofZ c)).
Proof. intros Hc. rewrite (SF_ofZ c Hc). destruct c; exact I. Qed.

Lemma scaled_ofZ c :
  0 <= c < 2 ^ 53 -> scaled (-1074) (Prim2SF (JS.ofZ c)) = c * 2 ^ 1074.
Proof. intros Hc. rewrite (SF_ofZ c Hc). apply scaled_int. exact Hc. Qed.

Lemma toInteger_ofZ c : 0 <= c < 2 ^ 53 -> toInteger (JS.ofZ c) = Some c.
Proof. intros Hc. apply toInteger_int; [exact Hc|apply SF_ofZ; exact Hc]. Qed.

(** A number between [0] and the integer [c]: a zero, or [m * 2^e] with
    a bound on [m] in integers. *)
Lemma int_range_shape x c :
  0 <= c < 2 ^ 53 ->
  PrimFloat.leb 0 x = true -> PrimFloat.leb x (JS.ofZ c) = true ->
  match Prim2SF x with
  | S754_zero _ => True
  | S754_finite s m e =>
      s = false /\ -1074 <= e
      /\ (0 <= e -> Zpos m * 2 ^ e <= c)
      /\ (e < 0 -> Zpos m <= c * 2 ^ (- e))
  | _ => False
  end.
Proof.
  intros Hc H0 H1.
  pose proof (ofZ_is_number c Hc) as Nc.
  assert (Hn : is_number (Prim2SF x)).
  { rewrite FloatAxioms.leb_spec in H0, H1. rewrite SF_zero in H0.
    destruct (Prim2SF x) as [s|[]| |s m e]; try exact I; try discriminate.
    destruct (Prim2SF (JS.ofZ c)) as [?|?| |? ? ?]; try contradiction; discriminate. }
  assert (Hz : is_number (Prim2SF 0%float)) by (rewrite SF_zero; exact I).
  pose proof (scaled_of_leb (-1074) 0 x ltac:(lia) Hz Hn H0) as S0.
  pose proof (scaled_of_leb (-1074) x (JS.ofZ c) ltac:(lia) Hn Nc H1) as S1.
  rewrite SF_zero in S0. rewrite scaled_ofZ in S1 by exact Hc.
  pose proof (prim_numeric (-1074) x ltac:(lia) Hn) as Nx.
  destruct (Prim2SF x) as [s|s| |s m e]; try contradiction; [exact I|].
  destruct Nx as [_ He]. cbn [scaled] in S0, S1.
  pose proof (scaled_pos (-1074) m e He) as HP.
  destruct s; cbn [cond_Zopp] in S0, S1; [lia|].
  split; [reflexivity|]. split; [exact He|]. split; intros Hs.
  - replace (e - -1074) with (e + 1074) in S1 by lia.
    rewrite Z.pow_add_r, Z.mul_assoc in S1 by lia.
    apply Z.mul_le_mono_pos_r in S1; [exact S1|apply Z.pow_pos_nonneg; lia].
  - assert (E : 2 ^ 1074 = 2 ^ (- e) * 2 ^ (e - -1074)).
    { rewrite <- Z.pow_add_r by lia. f_equal. lia. }
    rewrite E, Z.mul_assoc in S1.
    apply Z.mul_le_mono_pos_r in S1; [exact S1|apply Z.pow_pos_nonneg; lia].
Qed.

Lemma split_bounds m e c :
  e < 0 -> 0 <= c -> Zpos m <= c * 2 ^ (- e) ->
  0 <= Zpos m / 2 ^ (- e) <= c
  /\ (Zpos m mod 2 ^ (- e) <> 0 -> Zpos m / 2 ^ (- e) + 1 <= c)
  /\ 0 <= Zpos m mod 2 ^ (- e) < 2 ^ (- e)
  /\ Zpos m = 2 ^ (- e) * (Zpos m / 2 ^ (- e)) + Zpos m mod 2 ^ (- e).
Proof.
  intros He Hc Hm.
  assert (Hd : 0 < 2 ^ (- e)) by (apply Z.pow_pos_nonneg; lia).
  pose proof (Z.div_mod (Zpos m) (2 ^ (- e)) ltac:(lia)) as Hdm.
  pose proof (Z.mod_pos_bound (Zpos m) (2 ^ (- e)) Hd) as Hr.
  assert (Hq : 0 <= Zpos m / 2 ^ (- e)) by (apply Z.div_pos; lia).
  repeat split; try lia; nia.
Qed.

(** [Math.round] of a number between [0] and the integer [c] is an
    integer between [0] and [c]. *)
Lemma round_range x c :
  0 <= c < 2 ^ 53 ->
  PrimFloat.leb 0 x = true -> PrimFloat.leb x (JS.ofZ c) = true ->
  exists z, 0 <= z <= c /\ toInteger (JS.round x) = Some z.
Proof.
  intros Hc H0 H1. pose proof (int_range_shape x c Hc H0 H1) as S.
  unfold JS.round.
  destruct (Prim2SF x) as [s|s| |s m e] eqn:E; try contradiction.
  - exists 0. split; [lia|]. unfold toInteger. rewrite E. reflexivity.
  - destruct S as (-> & He & Sp & Sn).
    destruct (Z.leb_spec 0 e) as [Hs|Hs].
    + exists (Zpos m * 2 ^ e). split.
      * split; [|auto]. apply Z.mul_nonneg_nonneg; [lia|apply Z.pow_nonneg; lia].
      * unfold toInteger. rewrite E.
        destruct (Z.leb_spec 0 e); [reflexivity|lia].
    + destruct (split_bounds m e c Hs ltac:(lia) (Sn Hs)) as (Hq & Hq1 & Hr & Hdm).
      unfold JS.split. cbv zeta.
      destruct (Z.eqb_spec (Zpos m mod 2 ^ (- e)) 0) as [Hr0|Hr0].
      * exists (Zpos m / 2 ^ (- e)). split; [exact Hq|].
        unfold toInteger. rewrite E.
        destruct (Z.leb_spec 0 e); [lia|]. unfold JS.split. cbv zeta.
        rewrite Hr0. reflexivity.
      * specialize (Hq1 Hr0).
        destruct (2 ^ (- e) <=? 2 * (Zpos m mod 2 ^ (- e))).
        -- exists (Zpos m / 2 ^ (- e) + 1). split; [lia|]. apply toInteger_ofZ. lia.
        -- exists (Zpos m / 2 ^ (- e)). split; [lia|]. apply toInteger_ofZ. lia.
Qed.

Lemma eqb_leb a b :
  PrimFloat.eqb a b = true -> PrimFloat.leb a b = true /\ PrimFloat.leb b a = true.
Proof.
  rewrite FloatAxioms.eqb_spec, !FloatAxioms.leb_spec. unfold SFeqb, SFleb.
  rewrite (SFcompare_antisym (Prim2SF a) (Prim2SF b)).
  destruct (SFcompare (Prim2SF a) (Prim2SF b)) as [[]|]; cbn; intros; try discriminate; auto.
Qed.

Lemma eqb_refl_number x : is_number (Prim2SF x) -> PrimFloat.eqb x x = true.
Proof.
  intros H. rewrite FloatAxioms.eqb_spec. unfold SFeqb.
  rewrite SFcompare_refl; [reflexivity|].
  destruct (Prim2SF x); try contradiction; discriminate.
Qed.

Lemma eqb_ofZ_succ q :
  0 <= q -> q + 1 < 2 ^ 53 -> PrimFloat.eqb (JS.ofZ q) (JS.ofZ (q + 1)) = false.
Proof.
  intros H0 H1. destruct (PrimFloat.eqb (JS.ofZ q) (JS.ofZ (q + 1))) eqn:E; [|reflexivity].
  apply eqb_leb in E as [_ E].
  apply (scaled_of_leb (-1074)) in E; try (apply ofZ_is_number; lia); try lia.
  rewrite !scaled_ofZ in E by lia.
  assert (0 < 2 ^ 1074) by (apply Z.pow_pos_nonneg; lia). nia.
Qed.

(** [Math.floor] and [Math.ceil] of a number between [0] and the integer
    [c]: two integers [i <= j <= c], equal or consecutive, that enclose
    the number. *)
Lemma floor_ceil_range x c :
  0 <= c < 2 ^ 53 ->
  PrimFloat.leb 0 x = true -> PrimFloat.leb x (JS.ofZ c) = true ->
  exists i j,
    0 <= i /\ i <= j /\ j <= c /\ j <= i + 1
    /\ toInteger (JS.floor x) = Some i /\ toInteger (JS.ceil x) = Some j
    /\ PrimFloat.eqb (JS.floor x) (JS.ceil x) = (i =? j)
    /\ PrimFloat.leb (JS.floor x) x = true /\ PrimFloat.leb x (JS.ceil x) = true.
Proof.
  intros Hc H0 H1. pose proof (int_range_shape x c Hc H0 H1) as S.
  assert (Hn : is_number (Prim2SF x)).
  { destruct (Prim2SF x); try contradiction; exact I. }
  assert (Hxx : PrimFloat.leb x x = true).
  { apply (leb_of_scaled (-1074)); try assumption; lia. }
  assert (Integral : forall z, 0 <= z <= c -> toInteger x = Some z ->
            JS.floor x = x -> JS.ceil x = x ->
            exists i j,
              0 <= i /\ i <= j /\ j <= c /\ j <= i + 1
              /\ toInteger (JS.floor x) = Some i /\ toInteger (JS.ceil x) = Some j
              /\ PrimFloat.eqb (JS.floor x) (JS.ceil x) = (i =? j)
              /\ PrimFloat.leb (JS.floor x) x = true
              /\ PrimFloat.leb x (JS.ceil x) = true).
  { intros z Hz Hi -> ->. exists z, z. rewrite Z.eqb_refl, (eqb_refl_number x Hn).
    repeat split; try assumption; lia. }
  pose proof (prim_numeric (-1074) x ltac:(lia) Hn) as Nx.
  destruct (Prim2SF x) as [s|s| |s m e] eqn:E; try contradiction.
  - apply (Integral 0); [lia| | |].
    + unfold toInteger. rewrite E. reflexivity.
    + unfold JS.floor. rewrite E. reflexivity.
    + unfold JS.ceil. rewrite E. reflexivity.
  - destruct S as (-> & He & Sp & Sn).
    destruct (Z.leb_spec 0 e) as [Hs|Hs].
    + apply (Integral (Zpos m * 2 ^ e)).
      * split; [|auto]. apply Z.mul_nonneg_nonneg; [lia|apply Z.pow_nonneg; lia].
      * unfold toInteger. rewrite E. destruct (Z.leb_spec 0 e); [reflexivity|lia].
      * unfold JS.floor. rewrite E. destruct (Z.leb_spec 0 e); [reflexivity|lia].
      * unfold JS.ceil. rewrite E. destruct (Z.leb_spec 0 e); [reflexivity|lia].
    + destruct (split_bounds m e c Hs ltac:(lia) (Sn Hs)) as (Hq & Hq1 & Hr & Hdm).
      destruct (Z.eqb_spec (Zpos m mod 2 ^ (- e)) 0) as [Hr0|Hr0].
      * apply (Integral (Zpos m / 2 ^ (- e))); [exact Hq| | |].
        -- unfold toInteger. rewrite E. destruct (Z.leb_spec 0 e); [lia|].
           unfold JS.split. cbv zeta. rewrite Hr0. reflexivity.
        -- unfold JS.floor. rewrite E. destruct (Z.leb_spec 0 e); [lia|].
           unfold JS.split. cbv zeta. rewrite Hr0. reflexivity.
        -- unfold JS.ceil. rewrite E. destruct (Z.leb_spec 0 e); [lia|].
           unfold JS.split. cbv zeta. rewrite Hr0. reflexivity.
      * specialize (Hq1 Hr0). set (q := Zpos m / 2 ^ (- e)) in *.
        assert (Ef : JS.floor x = JS.ofZ q).
        { unfold JS.floor. rewrite E. destruct (Z.leb_spec 0 e); [lia|].
          unfold JS.split. cbv zeta. fold q.
          destruct (Z.eqb_spec (Zpos m mod 2 ^ (- e)) 0); [contradiction|reflexivity]. }
        assert (Ec : JS.ceil x = JS.ofZ (q + 1)).
        { unfold JS.ceil. rewrite E. destruct (Z.leb_spec 0 e); [lia|].
          unfold JS.split. cbv zeta. fold q.
          destruct (Z.eqb_spec (Zpos m mod 2 ^ (- e)) 0); [contradiction|reflexivity]. }
        rewrite Ef, Ec. exists q, (q + 1).
        rewrite !toInteger_ofZ, eqb_ofZ_succ by lia.
        assert (HP : 0 < 2 ^ (e - -1074)) by (apply Z.pow_pos_nonneg; lia).
        assert (HD : 2 ^ 1074 = 2 ^ (- e) * 2 ^ (e - -1074)).
        { rewrite <- Z.pow_add_r by lia. f_equal. lia. }
        assert (Hne : (q =? q + 1) = false) by (apply Z.eqb_neq; lia).
        rewrite Hne.
        split; [lia|]. split; [lia|]. split; [lia|]. split; [lia|].
        split; [reflexivity|]. split; [reflexivity|]. split; [reflexivity|]. split.
        -- apply (leb_of_scaled (-1074)); [lia|apply ofZ_is_number; lia|rewrite E; exact I|].
           rewrite scaled_ofZ, E by lia. cbn [scaled cond_Zopp]. rewrite HD. nia.
        -- apply (leb_of_scaled (-1074)); [lia|rewrite E; exact I|apply ofZ_is_number; lia|].
           rewrite scaled_ofZ, E by lia. cbn [scaled cond_Zopp]. rewrite HD. nia.
Qed.

Lemma new_location_exact nb r : r = 0 -> new_location nb r = loc_Exact.
Proof.
  intros ->. unfold new_location, new_location_even, new_location_odd.
  destruct (Z.even nb); reflexivity.
Qed.

Lemma Zdigits2_ge M n : 0 <= n -> 2 ^ n <= M -> n < Zdigits2 M.
Proof.
  intros Hn H. assert (HM : 0 < M).
  { assert (0 < 2 ^ n) by (apply Z.pow_pos_nonneg; lia). lia. }
  pose proof (Zdigits2_bound M HM) as [_ Hu].
  destruct (Z_lt_le_dec n (Zdigits2 M)) as [|Hle]; [assumption|exfalso].
  pose proof (Zdigits2_nonneg M).
  assert (2 ^ Zdigits2 M <= 2 ^ n) by (apply Z.pow_le_mono_r; lia). lia.
Qed.

(** The quotient of a number between [0] and [b] by a positive finite
    [b] is between [0] and [1]. *)
Lemma div_unit p b :
  JS.isFinite b = true -> PrimFloat.ltb 0 b = true ->
  PrimFloat.leb 0 p = true -> PrimFloat.leb p b = true ->
  PrimFloat.leb 0 (p / b) = true /\ PrimFloat.leb (p / b) 1 = true.
Proof.
  intros Hf Hb H0 H1. apply isFinite_spec in Hf.
  destruct (ltb_0_inv b Hb) as [E|(mb & eb & E)]; rewrite E in Hf; [contradiction|].
  pose proof (Prim2SF_valid b) as Vb. rewrite E in Vb. cbn in Vb.
  destruct (bounded_spec mb eb Vb) as (_ & Heb1 & Heb & _).
  assert (Hbn : is_number (Prim2SF b)) by (rewrite E; exact I).
  assert (Hp : is_number (Prim2SF p)).
  { rewrite FloatAxioms.leb_spec in H0, H1. rewrite SF_zero in H0. rewrite E in H1.
    destruct (Prim2SF p) as [s|[]| |s m e]; try exact I; discriminate. }
  assert (Hz : is_number (Prim2SF 0%float)) by (rewrite SF_zero; exact I).
  pose proof (scaled_of_leb (-1074) 0 p ltac:(lia) Hz Hp H0) as S0.
  pose proof (scaled_of_leb (-1074) p b ltac:(lia) Hp Hbn H1) as S1.
  rewrite SF_zero in S0. rewrite E in S1. cbn [scaled cond_Zopp] in S0, S1.
  pose proof (prim_numeric (-1074) p ltac:(lia) Hp) as Np.
  assert (S : match Prim2SF (p / b)%float with
              | S754_zero _ => True
              | S754_finite s m e =>
                  s = false /\ Zpos m * 2 ^ (e - -2200) <= 2 ^ 2200
              | _ => False
              end).
  { rewrite div_spec, E. unfold SF64div, SFdiv.
    destruct (Prim2SF p) as [s|s| |s mp ep]; try contradiction; [exact I|].
    destruct Np as [Vp Hep]. cbn [scaled] in S0, S1.
    pose proof (scaled_pos (-1074) mp ep Hep) as HPp.
    destruct s; cbn [cond_Zopp] in S0, S1; [lia|]. cbn [xorb].
    destruct (bounded_spec mp ep Vp) as (_ & Hep1 & _ & _).
    unfold SFdiv_core_binary. cbn [Zdigits2].
    set (dp := Zpos (digits2_pos mp)). set (db := Zpos (digits2_pos mb)).
    set (e' := Z.min (fexp prec emax (dp + ep - (db + eb))) (ep - eb)).
    pose proof (digits2_pos_bound mp) as [Hpl Hpu]. fold dp in Hpl, Hpu.
    pose proof (digits2_pos_bound mb) as [Hbl Hbu]. fold db in Hbl, Hbu.
    assert (Hdp : 1 <= dp) by (unfold dp; lia).
    assert (Hdb : 1 <= db) by (unfold db; lia).
    (* the order of magnitude of the quotient *)
    assert (HD : dp + ep <= db + eb).
    { destruct (Z_le_gt_dec (dp + ep) (db + eb)) as [|Hgt]; [assumption|exfalso].
      assert (A1 : 2 ^ (dp - 1) * 2 ^ (ep - -1074) <= Zpos mp * 2 ^ (ep - -1074)).
      { apply Z.mul_le_mono_nonneg_r; [apply Z.pow_nonneg; lia|exact Hpl]. }
      assert (A2 : Zpos mb * 2 ^ (eb - -1074) < 2 ^ db * 2 ^ (eb - -1074)).
      { apply Z.mul_lt_mono_pos_r; [apply Z.pow_pos_nonneg; lia|exact Hbu]. }
      rewrite <- Z.pow_add_r in A1, A2 by lia.
      assert (2 ^ (db + (eb - -1074)) <= 2 ^ (dp - 1 + (ep - -1074)))
        by (apply Z.pow_le_mono_r; lia).
      lia. }
    assert (He'1 : e' <= -53) by (unfold e'; rewrite fexp_eq; lia).
    assert (He'2 : -2200 <= e') by (unfold e'; rewrite fexp_eq; lia).
    assert (Hs : 0 <= ep - eb - e') by (unfold e'; lia).
    set (m' := match ep - eb - e' with
               | 0 => Zpos mp
               | Zpos _ => Z.shiftl (Zpos mp) (ep - eb - e')
               | Zneg _ => 0
               end).
    assert (Hm' : m' = Zpos mp * 2 ^ (ep - eb - e')).
    { unfold m'. destruct (ep - eb - e') as [|k|k] eqn:Ek.
      - rewrite Z.pow_0_r. lia.
      - rewrite Z.shiftl_mul_pow2 by lia. reflexivity.
      - lia. }
    clearbody m'.
    pose proof (Z.div_mod m' (Zpos mb) ltac:(lia)) as Hdm.
    pose proof (Z.mod_pos_bound m' (Zpos mb) ltac:(lia)) as Hr.
    unfold Z.div, Z.modulo in Hdm, Hr.
    destruct (Z.div_eucl m' (Zpos mb)) as [q r].
    set (Y := 2 ^ (- e')).
    assert (HY : 0 < Y) by (apply Z.pow_pos_nonneg; lia).
    assert (Hm'Y : m' <= Zpos mb * Y).
    { rewrite Hm'. unfold Y.
      assert (HT : 0 < 2 ^ (eb - -1074)) by (apply Z.pow_pos_nonneg; lia).
      apply (Z.mul_le_mono_pos_r _ _ (2 ^ (eb - -1074)) HT).
      rewrite <- !Z.mul_assoc, <- !Z.pow_add_r by lia.
      replace (ep - eb - e' + (eb - -1074)) with ((ep - -1074) + - e') by lia.
      replace (- e' + (eb - -1074)) with ((eb - -1074) + - e') by lia.
      rewrite !Z.pow_add_r, !Z.mul_assoc by lia.
      apply Z.mul_le_mono_nonneg_r; [lia|exact S1]. }
    assert (Hm'pos : 0 < m').
    { rewrite Hm'. apply Z.mul_pos_pos; [lia|apply Z.pow_pos_nonneg; lia]. }
    assert (Hq0 : 0 <= q) by nia.
    assert (HqY : q <= Y) by nia.
    assert (HqY' : r <> 0 -> q < Y) by (intros; nia).
    pose proof (binary_round_aux_le false q e' (new_location (Zpos mb) r)
                  4503599627370496 (-52) (-2200)
                  Hq0 ltac:(lia) ltac:(lia)) as R.
    assert (Hdq : Zdigits2 q <= - e' + 1).
    { apply Zdigits2_le; [lia|]. split; [exact Hq0|].
      replace (- e' + 1) with (1 + - e') by lia. rewrite Z.pow_add_r by lia.
      fold Y. lia. }
    assert (Hk : e' <= fexp prec emax (Zdigits2 q + e')).
    { rewrite fexp_eq. destruct (Z_le_gt_dec e' (-1074)) as [|Hgt]; [lia|].
      assert (HDe : 53 <= dp + (ep - eb - e') - db).
      { unfold e' in Hgt |- *. rewrite fexp_eq in Hgt |- *. lia. }
      assert (A : 2 ^ 52 * Zpos mb <= m').
      { rewrite Hm'.
        assert (A1 : 2 ^ 52 * Zpos mb <= 2 ^ 52 * 2 ^ db)
          by (apply Z.mul_le_mono_nonneg_l; lia).
        assert (A2 : 2 ^ (dp - 1) * 2 ^ (ep - eb - e') <= Zpos mp * 2 ^ (ep - eb - e')).
        { apply Z.mul_le_mono_nonneg_r; [apply Z.pow_nonneg; lia|exact Hpl]. }
        rewrite <- Z.pow_add_r in A1, A2 by lia.
        assert (2 ^ (52 + db) <= 2 ^ (dp - 1 + (ep - eb - e')))
          by (apply Z.pow_le_mono_r; lia).
        lia. }
      assert (2 ^ 52 <= q) by nia.
      pose proof (Zdigits2_ge q 52 ltac:(lia) ltac:(assumption)). lia. }
    assert (HG : fexp prec emax (Zdigits2 q + e') <= -52) by (rewrite fexp_eq; lia).
    specialize (R Hk HG eq_refl).
    change (Zpos 4503599627370496) with (2 ^ 52) in R.
    assert (EY : 2 ^ 52 * 2 ^ (-52 - -2200) = Y * 2 ^ (e' - -2200)).
    { unfold Y. rewrite <- !Z.pow_add_r by lia. f_equal. lia. }
    assert (HT : 0 < 2 ^ (e' - -2200)) by (apply Z.pow_pos_nonneg; lia).
    rewrite EY in R.
    assert (R1 : q * 2 ^ (e' - -2200) <= Y * 2 ^ (e' - -2200)) by nia.
    assert (R2 : new_location (Zpos mb) r <> loc_Exact ->
                 q * 2 ^ (e' - -2200) < Y * 2 ^ (e' - -2200)).
    { intros Hl. assert (r <> 0).
      { intros Hr0. apply Hl. apply new_location_exact. exact Hr0. }
      specialize (HqY' ltac:(assumption)). nia. }
    specialize (R R1 R2).
    destruct (binary_round_aux prec emax false q e' (new_location (Zpos mb) r))
      as [s|s| |s m e]; try contradiction; [exact I|].
    destruct R as (-> & _ & R). split; [reflexivity|].
    rewrite <- EY in R. rewrite <- Z.pow_add_r in R by lia.
    exact R. }
  assert (Hn : is_number (Prim2SF (p / b)%float)).
  { destruct (Prim2SF (p / b)%float); try contradiction; exact I. }
  pose proof (prim_numeric (-2200) (p / b) ltac:(lia) Hn) as Nn.
  assert (H1n : is_number (Prim2SF 1%float)) by (rewrite SF_one; exact I).
  split; apply (leb_of_scaled (-2200)); try assumption; try lia;
    rewrite ?SF_zero, ?scaled_one by lia; cbn [scaled];
    destruct (Prim2SF (p / b)%float) as [s|s| |s m e]; try contradiction;
    cbn [scaled]; try lia;
    try (assert (0 < 2 ^ (- -2200)) by (apply Z.pow_pos_nonneg; lia); lia);
    destruct S as (-> & S); destruct Nn as [_ Hn'];
    pose proof (scaled_pos (-2200) m e Hn'); cbn [cond_Zopp];
    change (- -2200) with 2200; lia.
Qed.

Close Scope Z_scope.

End FloatRound.

(** ** StatisticsEstimator: provided averages and the max sentinel *)

Lemma parseNum_Some v x : parseNum v = Some x -> x = v /\ JS.isFinite x = true.
Proof.
  unfold parseNum. destruct (JS.isFinite v) eqn:E; [|discriminate].
  intros [= <-]. auto.
Qed.

Lemma firstNonNegative_Some l x :
  firstNonNegative l = Some x -> In (Some x) l /\ PrimFloat.leb 0 x = true.
Proof.
  induction l as [|[v|] l IH]; simpl; [discriminate| |].
  - destruct (PrimFloat.leb 0 v) eqn:E.
    + intros [= <-]. auto.
    + intros H. destruct (IH H). auto.
  - intros H. destruct (IH H). auto.
Qed.

(** C1, as stated, fails: a provided [average_ms] of [-5] is returned as
    it is, and enrichment stores it; it is neither [-1] nor [>= 0]. *)
Lemma C1_counterexample :
  computeAverageMs row_negative_average = -5
  /\ map Row.average_ms (enrichAverageMetric [row_negative_average]) = [-5]
  /\ PrimFloat.eqb (-5) (-1) = false
  /\ PrimFloat.leb 0 (-5) = false.
Proof. repeat split; reflexivity. Qed.

(** C1 (amended): [computeAverageMs] always returns a finite number.  When
    the row's own [average_ms] parses to a finite number the result is
    that number; otherwise the result is [-1] or a number [>= 0].  So the
    result is [-1] or [>= 0] for every row whose provided average, if
    any, is itself [-1] or [>= 0].  After enrichment every row carries
    the result in [average_ms]. *)
Theorem C1_average_invariant :
  (forall row,
     JS.isFinite (computeAverageMs row) = true
     /\ match parseNum (Row.average_ms row) with
        | Some existing => computeAverageMs row = existing
        | None => computeAverageMs row = -1
                  \/ PrimFloat.leb 0 (computeAverageMs row) = true
        end)
  /\ (forall row,
        (forall existing, parseNum (Row.average_ms row) = Some existing ->
                          existing = -1 \/ PrimFloat.leb 0 existing = true) ->
        computeAverageMs row = -1 \/ PrimFloat.leb 0 (computeAverageMs row) = true)
  /\ (forall rows,
        Forall2 (fun row row' =>
                   row' = Row.set_average_ms row (computeAverageMs row)
                   /\ JS.isFinite (Row.average_ms row') = true)
                rows (enrichAverageMetric rows)).
Proof.
  assert (Hrow : forall row,
     JS.isFinite (computeAverageMs row) = true
     /\ match parseNum (Row.average_ms row) with
        | Some existing => computeAverageMs row = existing
        | None => computeAverageMs row = -1
                  \/ PrimFloat.leb 0 (computeAverageMs row) = true
        end).
  { intros row. unfold computeAverageMs.
    destruct (parseNum (Row.average_ms row)) as [existing|] eqn:Ha.
    { apply parseNum_Some in Ha. tauto. }
    destruct (PrimFloat.leb _ 0); [auto|].
    destruct (parseNum (Row.mean_ms row)) as [mean|] eqn:Hm; [|auto].
    destruct (JS.seq _ _); [auto|].
    destruct (negb _ && PrimFloat.leb 0 mean) eqn:Ht.
    { apply andb_prop in Ht as [_ Ht]. apply parseNum_Some in Hm. tauto. }
    destruct (PrimFloat.leb _ (estimateInvalidCount _ _)); [auto|].
    match goal with |- context [JS.isFinite ?c && PrimFloat.leb 0 ?c] =>
      destruct (JS.isFinite c && PrimFloat.leb 0 c) eqn:Hc end.
    { apply andb_prop in Hc as [? ?]. auto. }
    destruct (firstNonNegative _) as [fallback|] eqn:Hf; [|auto].
    apply firstNonNegative_Some in Hf as [Hin Hpos]. split; [|auto].
    simpl in Hin.
    destruct Hin as [H|[H|[H|[H|[]]]]]; apply parseNum_Some in H; tauto. }
  split; [exact Hrow|split].
  { intros row Hdom. destruct (Hrow row) as [_ H].
    destruct (parseNum (Row.average_ms row)) as [existing|]; [|exact H].
    rewrite H. apply Hdom. reflexivity. }
  intros rows. unfold enrichAverageMetric.
  induction rows as [|row rows IH]; simpl; constructor; auto.
  split; [reflexivity|]. apply Hrow.
Qed.

(** C2, as stated, fails: with [max_ms = -1] and a provided average of
    [5], the result is [5]. *)
Lemma C2_counterexample :
  parseNum (Row.max_ms row_average_and_max_sentinel) = Some (-1)
  /\ computeAverageMs row_average_and_max_sentinel = 5.
Proof. split; reflexivity. Qed.

(** C2 (amended): for every row whose [average_ms] does not parse to a
    finite number and whose [max_ms] parses to [-1], the result is [-1],
    whatever the other fields hold. *)
Theorem C2_max_sentinel (row : Row.t) :
  parseNum (Row.average_ms row) = None ->
  parseNum (Row.max_ms row) = Some (-1) ->
  computeAverageMs row = -1.
Proof.
  intros Ha Hmax. unfold computeAverageMs. rewrite Ha, Hmax.
  destruct (PrimFloat.leb _ 0); [reflexivity|].
  destruct (parseNum (Row.mean_ms row)); reflexivity.
Qed.

Lemma C2_max_sentinel_witness :
  computeAverageMs
    (Row.mk None None 100 50 (-1) (-1) 10 20 30 PrimFloat.nan) = -1.
Proof.
  apply (C2_max_sentinel (Row.mk None None 100 50 (-1) (-1) 10 20 30 PrimFloat.nan));
    reflexivity.
Defined.

(** C3: on the worked example the invalid fraction is at least [0.70],
    the invalid count is exactly [70], and the result is the corrected
    mean [(50*100+70)/(100-70) = 169]. *)
Theorem C3_worked_example :
  parseNum (Row.average_ms row_example) = None
  /\ PrimFloat.leb 0.70 (invalidFrac row_example 100) = true
  /\ estimateInvalidCount row_example 100 = 70
  /\ computeAverageMs row_example = (50 * 100 + 70) / (100 - 70)
  /\ computeAverageMs row_example = 169.
Proof. repeat split; reflexivity. Qed.

(** C5: a row whose [average_ms] parses to a finite number gets exactly
    that number, whatever the other fields hold. *)
Theorem C5_existing_average (row : Row.t) (existing : float) :
  parseNum (Row.average_ms row) = Some existing ->
  computeAverageMs row = existing.
Proof. intros H. unfold computeAverageMs. rewrite H. reflexivity. Qed.

Lemma C5_existing_average_witness :
  computeAverageMs row_average_and_max_sentinel = 5.
Proof.
  apply (C5_existing_average row_average_and_max_sentinel 5). reflexivity.
Defined.



(** ** StatisticsEstimator: the clamp of the invalid count *)

(** C4, as stated, fails: the estimate is reached with a count of [0],
    for [n = 1] (where [n - 1 = 0] caps the clamp) and for a row whose
    mean is negative while [min_ms] is not the sentinel. *)
Lemma C4_counterexample :
  reachesEstimate row_single_sample 1 = true
  /\ estimateInvalidCount row_single_sample 1 = 0
  /\ reachesEstimate row_negative_mean 100 = true
  /\ estimateInvalidCount row_negative_mean 100 = 0.
Proof. repeat split; reflexivity. Qed.

Lemma threshold_pos (triggered : bool) (f c : float) :
  PrimFloat.ltb 0 f = true -> PrimFloat.ltb 0 c = true ->
  PrimFloat.ltb 0 (if triggered then JS.max f c else f) = true.
Proof.
  intros Hf Hc. destruct triggered; [|exact Hf].
  apply FloatFacts.max_pos_r; [apply FloatFacts.ltb_0_not_nan; exact Hf|exact Hc].
Qed.

Lemma invalidFrac_pos row n :
  JS.isNaN n = false -> PrimFloat.ltb 0 (invalidFrac row n) = true.
Proof.
  intros Hn. unfold invalidFrac. cbv zeta.
  repeat (apply threshold_pos; [|reflexivity]).
  apply FloatFacts.max_pos_r; [|reflexivity].
  apply FloatFacts.div_one_not_nan, FloatFacts.max_not_nan; [reflexivity|exact Hn].
Qed.

(** Without the [min_ms] sentinel no sample is counted as invalid. *)
Lemma estimateInvalidCount_no_sentinel (row : Row.t) (n : float) :
  JS.seq (parseNum (Row.max_ms row)) (-1) = false ->
  JS.seq (parseNum (Row.min_ms row)) (-1) = false ->
  estimateInvalidCount row n = 0.
Proof. intros Hmax Hmin. unfold estimateInvalidCount. rewrite Hmax, Hmin. reflexivity. Qed.

(** C4 (amended): when [min_ms] parses to [-1] and [max_ms] does not, the
    invalid count lies in [1, n - 1] for every [n] with [n - 1 >= 1], in
    particular for every integral count [2 <= n < 2^53]. *)
Theorem C4_invalid_count_bounds (row : Row.t) :
  JS.seq (parseNum (Row.max_ms row)) (-1) = false ->
  JS.seq (parseNum (Row.min_ms row)) (-1) = true ->
  (forall n,
     PrimFloat.leb 1 (n - 1) = true ->
     PrimFloat.leb 1 (estimateInvalidCount row n) = true
     /\ PrimFloat.leb (estimateInvalidCount row n) (n - 1) = true)
  /\ (forall z,
        (2 <= z < 2 ^ 53)%Z ->
        PrimFloat.leb 1 (estimateInvalidCount row (JS.ofZ z)) = true
        /\ PrimFloat.leb (estimateInvalidCount row (JS.ofZ z)) (JS.ofZ z - 1) = true).
Proof.
  intros Hmax Hmin.
  assert (G : forall n,
     PrimFloat.leb 1 (n - 1) = true ->
     PrimFloat.leb 1 (estimateInvalidCount row n) = true
     /\ PrimFloat.leb (estimateInvalidCount row n) (n - 1) = true).
  { intros n Hn. unfold estimateInvalidCount. rewrite Hmax, Hmin. cbn [negb].
    pose proof (FloatFacts.sub_one_ge_one_pos n Hn) as Hpos.
    pose proof (FloatFacts.ltb_0_not_nan n Hpos) as Hnan.
    set (ic := JS.round (invalidFrac row n * n)).
    assert (Hic : JS.isNaN ic = false).
    { apply FloatFacts.round_not_nan, FloatFacts.mul_pos_not_nan;
        [apply invalidFrac_pos; exact Hnan|exact Hpos]. }
    assert (Hm : PrimFloat.leb 1 (JS.max 1 ic) = true).
    { destruct (FloatFacts.max_cases 1 ic eq_refl Hic) as [[-> _]|[-> H]];
        [reflexivity|exact H]. }
    destruct (FloatFacts.leb_not_nan _ _ Hm) as [_ Hmn].
    destruct (FloatFacts.leb_not_nan _ _ Hn) as [_ Hn1].
    destruct (FloatFacts.min_cases (n - 1) (JS.max 1 ic) Hn1 Hmn) as [[-> _]|[-> H]].
    - split; [exact Hn|apply FloatFacts.leb_refl; exact Hn1].
    - split; [exact Hm|exact H]. }
  split; [exact G|].
  intros z Hz. apply G, FloatFacts.leb_one_pred. exact Hz.
Qed.

Lemma C4_invalid_count_bounds_witness :
  (forall n,
     PrimFloat.leb 1 (n - 1) = true ->
     PrimFloat.leb 1 (estimateInvalidCount row_example n) = true
     /\ PrimFloat.leb (estimateInvalidCount row_example n) (n - 1) = true)
  /\ (forall z,
        (2 <= z < 2 ^ 53)%Z ->
        PrimFloat.leb 1 (estimateInvalidCount row_example (JS.ofZ z)) = true
        /\ PrimFloat.leb (estimateInvalidCount row_example (JS.ofZ z)) (JS.ofZ z - 1) = true).
Proof. apply (C4_invalid_count_bounds row_example); reflexivity. Defined.

(** ** ColorMapper: the missing colour *)

Lemma hexToRgb_green : hexToRgb "#00b050" = Some (mkRgb 0 176 80).
Proof. reflexivity. Qed.

Lemma hexToRgb_red : hexToRgb "#ff0000" = Some (mkRgb 255 0 0).
Proof. reflexivity. Qed.

Lemma hexChannelOk_all z : (0 <= z < 256)%Z -> hexChannelOk z = true.
Proof.
  intros Hz.
  assert (H : forallb (fun k => hexChannelOk (Z.of_nat k)) (seq 0 256) = true)
    by (vm_compute; reflexivity).
  rewrite forallb_forall in H. rewrite <- (Z2Nat.id z) by lia.
  apply H, in_seq. lia.
Qed.

Lemma toHex_channel z :
  (0 <= z < 256)%Z ->
  exists a b,
    toHex (JS.ofZ z) = String a (String b EmptyString)
    /\ isSpace a = false /\ isSpace b = false
    /\ hexPair a b = Some (JS.ofZ z).
Proof.
  intros Hz. pose proof (hexChannelOk_all z Hz) as H.
  assert (Hbig : (0 <= z < 2 ^ 53)%Z).
  { split; [lia|]. assert (256 < 2 ^ 53)%Z by reflexivity. lia. }
  unfold hexChannelOk in H. unfold toHex, toString16.
  rewrite (FloatFacts.toInteger_int _ z Hbig (FloatFacts.SF_ofZ z Hbig)).
  destruct (Z.ltb_spec z 0) as [Hneg|_]; [lia|].
  destruct (padStart2 _) as [|a [|b [|c s]]]; try discriminate.
  apply andb_prop in H as [H Hd]. apply andb_prop in H as [Ha Hb].
  apply negb_true_iff in Ha, Hb.
  exists a, b. repeat split; try assumption.
  unfold hexPair. destruct (hexDigit a) as [h|]; [|discriminate].
  destruct (hexDigit b) as [l|]; [|discriminate].
  apply Z.eqb_eq in Hd. rewrite Hd. reflexivity.
Qed.

Lemma trim_colour a b c d e f :
  isSpace f = false ->
  trim (String "#" (String a (String b (String c (String d (String e (String f EmptyString)))))))
  = String "#" (String a (String b (String c (String d (String e (String f EmptyString)))))).
Proof.
  intros H. unfold trim.
  assert (E : trimStart (String "#" (String a (String b (String c (String d
                (String e (String f EmptyString)))))))
              = String "#" (String a (String b (String c (String d
                (String e (String f EmptyString))))))) by reflexivity.
  rewrite E.
  change (String.rev (String "#" (String a (String b (String c (String d
            (String e (String f EmptyString))))))))
    with (String f (String e (String d (String c (String b (String a
            (String "#" EmptyString))))))).
  cbn [trimStart]. rewrite H. reflexivity.
Qed.

Lemma toHex_integer (n : float) (z : Z) :
  (0 <= z < 2 ^ 53)%Z -> toInteger n = Some z -> toHex n = toHex (JS.ofZ z).
Proof.
  intros Hz H. unfold toHex, toString16.
  rewrite H, (FloatRound.toInteger_ofZ z Hz). reflexivity.
Qed.

Lemma hex_channels (r g b : Z) :
  (0 <= r < 256)%Z -> (0 <= g < 256)%Z -> (0 <= b < 256)%Z ->
  hexToRgb (rgbToHex (mkRgb (JS.ofZ r) (JS.ofZ g) (JS.ofZ b)))
  = Some (mkRgb (JS.ofZ r) (JS.ofZ g) (JS.ofZ b)).
Proof.
  intros Hr Hg Hb. unfold rgbToHex. cbn [red_ green_ blue_].
  destruct (toHex_channel r Hr) as (r1 & r2 & -> & _ & _ & Er).
  destruct (toHex_channel g Hg) as (g1 & g2 & -> & _ & _ & Eg).
  destruct (toHex_channel b Hb) as (b1 & b2 & -> & _ & Hsp & Eb).
  change (String "#" (String r1 (String r2 "") +:+ String g1 (String g2 "")
                      +:+ String b1 (String b2 "")))
    with (String "#" (String r1 (String r2 (String g1 (String g2
            (String b1 (String b2 EmptyString))))))).
  unfold hexToRgb. rewrite (trim_colour _ _ _ _ _ _ Hsp), Er, Eg, Eb. reflexivity.
Qed.

Lemma clamp01_unit (x : float) :
  JS.isNaN x = false ->
  PrimFloat.leb 0 (clamp01 x) = true /\ PrimFloat.leb (clamp01 x) 1 = true.
Proof.
  intros Hx. unfold clamp01.
  assert (Hm : JS.isNaN (JS.min 1 x) = false /\ PrimFloat.leb (JS.min 1 x) 1 = true).
  { destruct (FloatFacts.min_cases 1 x eq_refl Hx) as [[-> _]|[-> H]]; split; auto. }
  destruct Hm as [Hn Hle].
  destruct (FloatFacts.max_cases 0 (JS.min 1 x) eq_refl Hn) as [[-> _]|[-> H]].
  - split; reflexivity.
  - split; assumption.
Qed.

Lemma isNaN_true (x : float) : JS.isNaN x = true -> x = PrimFloat.nan.
Proof.
  intros H. apply Prim2SF_inj. change (Prim2SF PrimFloat.nan) with S754_nan.
  destruct (Prim2SF x) as [s|s| |s m e] eqn:E; [| |reflexivity|];
    exfalso; assert (Hn : JS.isNaN x = false)
      by (apply FloatFacts.isNaN_false; rewrite E; discriminate);
    congruence.
Qed.

Lemma clamp01_nan (x : float) : JS.isNaN x = true -> JS.isNaN (clamp01 x) = true.
Proof. intros H. apply isNaN_true in H. subst x. reflexivity. Qed.

Lemma valueToColor_ramp (log10 : float -> float) (cfg : ScaleCfg) (v minV maxV : float) :
  JS.isFinite v = true ->
  valueToColor log10 cfg (Some v) minV maxV
  = Some (rampColor (rampFraction log10 cfg v minV maxV)).
Proof.
  intros H. unfold valueToColor, rampFraction, rampPosition, rampColor.
  cbn [isFiniteNumber]. rewrite H, hexToRgb_green, hexToRgb_red. cbn [negb].
  destruct (String.eqb (transform cfg) "log"); reflexivity.
Qed.

(** For a position between [0] and [1] the channels of the ramp colour
    are integers between those of the two anchors. *)
Lemma rampColor_channels (t : float) :
  PrimFloat.leb 0 t = true -> PrimFloat.leb t 1 = true ->
  exists r g b : Z,
    (0 <= r <= 255)%Z /\ (0 <= g <= 176)%Z /\ (0 <= b <= 80)%Z
    /\ rampColor t = rgbToHex (mkRgb (JS.ofZ r) (JS.ofZ g) (JS.ofZ b))
    /\ hexToRgb (rampColor t) = Some (mkRgb (JS.ofZ r) (JS.ofZ g) (JS.ofZ b)).
Proof.
  intros H0 H1. unfold rampColor, lerp.
  change (255 - 0) with 255. change (0 - 176) with (-176). change (0 - 80) with (-80).
  destruct (FloatRound.mul_unit_nonneg 255 t eq_refl eq_refl H0 H1) as [R0 R1].
  destruct (FloatRound.zero_add_range (255 * t) 255 R0 R1) as [R2 R3].
  destruct (FloatRound.round_range (0 + 255 * t) 255 ltac:(lia) R2 R3) as (r & Hr & Er).
  destruct (FloatRound.mul_unit_nonpos (-176) t eq_refl eq_refl H0 H1) as [G0 G1].
  destruct (FloatRound.add_nonpos_range 176 (-176 * t) eq_refl eq_refl G0 G1) as [G2 G3].
  destruct (FloatRound.round_range (176 + -176 * t) 176 ltac:(lia) G2 G3) as (g & Hg & Eg).
  destruct (FloatRound.mul_unit_nonpos (-80) t eq_refl eq_refl H0 H1) as [B0 B1].
  destruct (FloatRound.add_nonpos_range 80 (-80 * t) eq_refl eq_refl B0 B1) as [B2 B3].
  destruct (FloatRound.round_range (80 + -80 * t) 80 ltac:(lia) B2 B3) as (b & Hb & Eb).
  assert (H53 : (256 < 2 ^ 53)%Z) by reflexivity.
  exists r, g, b. do 3 (split; [assumption|]).
  assert (E : rgbToHex (mkRgb (JS.round (0 + 255 * t)) (JS.round (176 + -176 * t))
                              (JS.round (80 + -80 * t)))
              = rgbToHex (mkRgb (JS.ofZ r) (JS.ofZ g) (JS.ofZ b))).
  { unfold rgbToHex. cbn [red_ green_ blue_].
    rewrite (toHex_integer _ r ltac:(lia) Er), (toHex_integer _ g ltac:(lia) Eg),
            (toHex_integer _ b ltac:(lia) Eb). reflexivity. }
  split; [exact E|]. rewrite E. apply hex_channels; lia.
Qed.

Lemma rampColor_nan (t : float) :
  JS.isNaN t = true -> rampColor t = "#NaNNaNNaN"%string.
Proof. intros H. apply isNaN_true in H. subst t. reflexivity. Qed.

Lemma rampColor_not_default (t : float) :
  PrimFloat.leb 0 t = true -> PrimFloat.leb t 1 = true ->
  rampColor t <> missingColor scaleCfg0.
Proof.
  intros H0 H1 E.
  destruct (rampColor_channels t H0 H1) as (r & g & b & _ & Hg & _ & _ & Hh).
  rewrite E in Hh. change (hexToRgb (missingColor scaleCfg0)) with (Some (mkRgb 221 221 221)) in Hh.
  injection Hh as _ Eg _.
  assert (H53 : (256 < 2 ^ 53)%Z) by reflexivity.
  pose proof (FloatRound.toInteger_ofZ g ltac:(lia)) as T.
  rewrite <- Eg in T. change (toInteger 221) with (Some 221%Z) in T.
  injection T as T. lia.
Qed.

(** C6, as stated, fails: [valueToColor] itself maps the sentinel [-1] to
    the "fast" end of the ramp, not to the missing colour (linear
    transform, default configuration, range [0..1]). *)
Lemma C6_counterexample :
  valueToColor (fun x => x) scaleCfg0 (Some (-1)) 0 1 = Some "#00b050"%string
  /\ missingColor scaleCfg0 = "#dddddd"%string
  /\ isFiniteNumber (Some (-1)) = true.
Proof. repeat split; reflexivity. Qed.

(** C6 (amended): for every range, [valueToColor] returns the configured
    missing colour whenever the value is absent or not a finite number
    ([NaN], an infinity).  For every finite value, negative ones such as
    [-1] included, it returns the colour of the ramp at the position of
    the value: the position is [NaN] or lies between [0] and [1]; between
    [0] and [1] the colour is [#rrggbb] with integer channels between
    those of the anchors [#00b050] (position [0]) and [#ff0000] (position
    [1]), so it is never the default missing colour [#dddddd]; at a [NaN]
    position (a [NaN] bound, for one) the text is [#NaNNaNNaN].  Values
    that are not [>= 0] are kept away from [valueToColor] by its caller
    [styleForFeature]: for a tracked metric, a feature other than the
    selected source is filled with the missing colour when its row is
    missing or its metric does not parse to a number [>= 0], and with
    [valueToColor] of the parsed value otherwise. *)
Theorem C6_missing_color (log10 : float -> float) (cfg : ScaleCfg) :
  (forall v minV maxV,
     isFiniteNumber v = false ->
     valueToColor log10 cfg v minV maxV = Some (missingColor cfg))
  /\ (forall x minV maxV,
        JS.isFinite x = true ->
        valueToColor log10 cfg (Some x) minV maxV
        = Some (rampColor (rampFraction log10 cfg x minV maxV))
        /\ (JS.isNaN (rampFraction log10 cfg x minV maxV) = true
            \/ (PrimFloat.leb 0 (rampFraction log10 cfg x minV maxV) = true
                /\ PrimFloat.leb (rampFraction log10 cfg x minV maxV) 1 = true)))
  /\ (forall t,
        PrimFloat.leb 0 t = true -> PrimFloat.leb t 1 = true ->
        (exists r g b : Z,
           (0 <= r <= 255)%Z /\ (0 <= g <= 176)%Z /\ (0 <= b <= 80)%Z
           /\ rampColor t = rgbToHex (mkRgb (JS.ofZ r) (JS.ofZ g) (JS.ofZ b))
           /\ hexToRgb (rampColor t) = Some (mkRgb (JS.ofZ r) (JS.ofZ g) (JS.ofZ b)))
        /\ rampColor t <> missingColor scaleCfg0)
  /\ (forall t, JS.isNaN t = true -> rampColor t = "#NaNNaNNaN"%string)
  /\ rampColor 0 = "#00b050"%string
  /\ rampColor 1 = "#ff0000"%string
  /\ (forall ix rs iso2,
        rs_metric rs ∈ METRIC_FIELDS ->
        negb (String.eqb (rs_src rs) "") && String.eqb iso2 (rs_src rs) = false ->
        match (bySrc ix !! rs_src rs ≫= fun srcMap => srcMap !! iso2)
              ≫= fun r => parseNum (Row.get r (rs_metric rs)) with
        | Some x =>
            if PrimFloat.leb 0 x
            then fillColor (styleForFeature log10 cfg ix rs iso2)
                 = valueToColor log10 cfg (Some x)
                     (toNumber (rs_scaleMin rs)) (rs_scaleMax rs)
            else fillColor (styleForFeature log10 cfg ix rs iso2)
                 = Some (missingColor cfg)
        | None =>
            fillColor (styleForFeature log10 cfg ix rs iso2) = Some (missingColor cfg)
        end).
Proof.
  split; [|split; [|split; [|split; [|split; [|split]]]]].
  - intros [v|] minV maxV H; unfold valueToColor; [|reflexivity].
    rewrite H. reflexivity.
  - intros x minV maxV H. split; [apply valueToColor_ramp; exact H|].
    unfold rampFraction.
    match goal with |- context [clamp01 ?a] => destruct (JS.isNaN a) eqn:En end.
    + left. apply clamp01_nan. exact En.
    + right. apply clamp01_unit. exact En.
  - intros t H0 H1. split; [apply rampColor_channels|apply rampColor_not_default]; assumption.
  - apply rampColor_nan.
  - reflexivity.
  - reflexivity.
  - intros ix rs iso2 _ Hsrc. unfold styleForFeature. cbn [fillColor]. rewrite Hsrc.
    destruct ((bySrc ix !! rs_src rs ≫= fun srcMap => srcMap !! iso2)
              ≫= fun r => parseNum (Row.get r (rs_metric rs))) as [x|]; [|reflexivity].
    destruct (PrimFloat.leb 0 x); reflexivity.
Qed.

(** The sentinel [-1], an absent value and [NaN] are not finite numbers
    [>= 0], so a destination whose metric parses to any of them is filled
    with the missing colour. *)
Lemma sentinel_not_valid :
  PrimFloat.leb 0 (-1) = false
  /\ parseNum PrimFloat.nan = None
  /\ isFiniteNumber (Some PrimFloat.nan) = false
  /\ isFiniteNumber None = false.
Proof. repeat split; reflexivity. Qed.

(** ** ScaleComputer: auto and manual ranges *)

(** C7: in manual mode the configured bounds are returned as they are,
    and an empty value list gives [{min: 0, max: 1}]; but in auto mode the
    guard [min + 1e-6] is absorbed by rounding once [min] reaches [2^34],
    so that the range of the single value [2 * 10^10] has [max = min]. *)
Theorem C7_scale_evaluation :
  (forall cfg mv src metric,
     auto cfg = false ->
     rs_scaleMin (buildRenderState cfg mv src metric) = Some (minMs cfg)
     /\ rs_scaleMax (buildRenderState cfg mv src metric) = maxMs cfg)
  /\ (forall cfg mv metric,
        default [] (mv !! metric) = [] ->
        computeGlobalScale cfg mv metric = mkScale (Some 0) 1)
  /\ auto scaleCfg0 = true
  /\ computeGlobalScale scaleCfg0 (buildMetricValues (enrichAverageMetric [row_huge])) "mean_ms"
     = mkScale (Some 20000000000) 20000000000
  /\ degenerate (computeGlobalScale scaleCfg0
                   (buildMetricValues (enrichAverageMetric [row_huge])) "mean_ms") = true.
Proof.
  split; [|split; [|repeat split; vm_compute; reflexivity]].
  - intros cfg mv src metric H. unfold buildRenderState. rewrite H. split; reflexivity.
  - intros cfg mv metric H. unfold computeGlobalScale. rewrite H. reflexivity.
Qed.


(** ** Percentile lookup *)

(** The index for [p = 0] is [0] and for [p = 100] it is [length - 1],
    both integral. *)
Lemma q_first (vals : list float) :
  (1 <= Z.of_nat (length vals) < 2 ^ 53)%Z -> q vals 0 = head vals.
Proof.
  intros Hlen. unfold q.
  change (0 / 100) with 0.
  rewrite (FloatFacts.mul_zero_int _ (Z.of_nat (length vals) - 1))
    by (apply FloatFacts.SF_ofZ_pred; exact Hlen).
  change (JS.floor 0) with 0. change (JS.ceil 0) with 0.
  change (PrimFloat.eqb 0 0) with true. cbv iota.
  unfold index. change (toInteger 0) with (Some 0%Z). cbn.
  destruct vals; reflexivity.
Qed.

Lemma q_last (vals : list float) :
  (1 <= Z.of_nat (length vals) < 2 ^ 53)%Z -> q vals 100 = last vals.
Proof.
  intros Hlen. unfold q.
  change (100 / 100) with 1.
  pose proof (FloatFacts.SF_ofZ_pred _ Hlen) as Hx.
  set (x := JS.ofZ (Z.of_nat (length vals)) - 1) in *.
  assert (Hz : (0 <= Z.of_nat (length vals) - 1 < 2 ^ 53)%Z) by lia.
  rewrite (FloatFacts.mul_one_int x _ Hz Hx).
  rewrite (FloatFacts.floor_int x _ Hz Hx), (FloatFacts.ceil_int x _ Hz Hx).
  rewrite (FloatFacts.eqb_int x _ Hx).
  unfold index. rewrite (FloatFacts.toInteger_int x _ Hz Hx).
  destruct (Z.of_nat (length vals) - 1 <? 0)%Z eqn:E; [apply Z.ltb_lt in E; lia|].
  rewrite last_lookup, <- Nat.sub_1_r. f_equal. lia.
Qed.

(** For [0 <= p <= 100] the index [(p / 100) * (length - 1)] lies between
    [0] and [length - 1], so its floor and its ceiling are positions of
    the array. *)
Lemma q_positions (vals : list float) (p : float) :
  (1 <= Z.of_nat (length vals) < 2 ^ 53)%Z ->
  PrimFloat.leb 0 p = true -> PrimFloat.leb p 100 = true ->
  exists i j : nat,
    (i <= j <= i + 1)%nat /\ (j < length vals)%nat
    /\ toInteger (JS.floor ((p / 100) * (JS.ofZ (Z.of_nat (length vals)) - 1)))
       = Some (Z.of_nat i)
    /\ toInteger (JS.ceil ((p / 100) * (JS.ofZ (Z.of_nat (length vals)) - 1)))
       = Some (Z.of_nat j)
    /\ PrimFloat.eqb (JS.floor ((p / 100) * (JS.ofZ (Z.of_nat (length vals)) - 1)))
                     (JS.ceil ((p / 100) * (JS.ofZ (Z.of_nat (length vals)) - 1)))
       = Nat.eqb i j
    /\ PrimFloat.leb (JS.floor ((p / 100) * (JS.ofZ (Z.of_nat (length vals)) - 1)))
                     ((p / 100) * (JS.ofZ (Z.of_nat (length vals)) - 1)) = true
    /\ PrimFloat.leb ((p / 100) * (JS.ofZ (Z.of_nat (length vals)) - 1))
                     (JS.ceil ((p / 100) * (JS.ofZ (Z.of_nat (length vals)) - 1))) = true.
Proof.
  intros Hlen H0 H1.
  set (n := Z.of_nat (length vals)) in *.
  assert (Hc : (0 <= n - 1 < 2 ^ 53)%Z) by lia.
  assert (Ec : JS.ofZ n - 1 = JS.ofZ (n - 1)).
  { apply Prim2SF_inj. rewrite (FloatFacts.SF_ofZ_pred n Hlen).
    symmetry. apply FloatFacts.SF_ofZ. exact Hc. }
  rewrite Ec. set (c := JS.ofZ (n - 1)).
  destruct (FloatRound.div_unit p 100 eq_refl eq_refl H0 H1) as [Ht0 Ht1].
  assert (Hcf : JS.isFinite c = true).
  { apply FloatMore.isFinite_spec. apply FloatRound.ofZ_is_number. exact Hc. }
  assert (Hc0 : PrimFloat.leb 0 c = true).
  { apply (FloatRound.leb_of_scaled (-1074)); [lia|exact I| |].
    - apply FloatRound.ofZ_is_number. exact Hc.
    - unfold c. rewrite FloatRound.scaled_ofZ by exact Hc.
      change (FloatValue.scaled (-1074) (Prim2SF 0)) with 0%Z.
      apply Z.mul_nonneg_nonneg; [lia|apply Z.pow_nonneg; lia]. }
  rewrite (FloatRound.mul_comm (p / 100) c).
  destruct (FloatRound.mul_unit_nonneg c (p / 100) Hcf Hc0 Ht0 Ht1) as [Hi0 Hi1].
  destruct (FloatRound.floor_ceil_range (c * (p / 100)) (n - 1) Hc Hi0 Hi1)
    as (i & j & Hi & Hij & Hj & Hj1 & Ef & Ece & Eeq & Hfl & Hce).
  exists (Z.to_nat i), (Z.to_nat j).
  rewrite !Z2Nat.id by lia.
  split; [lia|]. split; [lia|].
  split; [exact Ef|]. split; [exact Ece|].
  split; [|split; assumption].
  rewrite Eeq. destruct (Z.eqb_spec i j) as [->|Hne].
  - symmetry. apply Nat.eqb_refl.
  - symmetry. apply Nat.eqb_neq. lia.
Qed.

Lemma index_position (vals : list float) (x : float) (i : nat) :
  toInteger x = Some (Z.of_nat i) -> index vals x = vals !! i.
Proof.
  intros H. unfold index. rewrite H.
  destruct (Z.ltb_spec (Z.of_nat i) 0); [lia|]. rewrite Nat2Z.id. reflexivity.
Qed.

(** C8: for a non-empty ascending array (a JavaScript array has fewer
    than [2^53] elements) the lookup at [p = 0] returns the first element,
    which is the minimum, and at [p = 100] the last one, which is the
    maximum.  For every [p] from [0] to [100] the floor [i] and the
    ceiling [j] of the index [(p / 100) * (length - 1)] are positions of
    the array, equal or adjacent, that enclose the index; the result is
    the element at [i] when the index is integral, and otherwise the
    interpolation [a * (1 - t) + b * t] between the elements [a <= b] at
    [i] and [j], with [t] the distance of the index from [i]. *)
Theorem C8_percentile_endpoints (vals : list float) :
  vals <> [] ->
  ascending vals ->
  (Z.of_nat (length vals) < 2 ^ 53)%Z ->
  (exists lo hi,
     head vals = Some lo /\ last vals = Some hi
     /\ q vals 0 = Some lo /\ q vals 100 = Some hi
     /\ forall y, y ∈ vals -> PrimFloat.leb lo y = true /\ PrimFloat.leb y hi = true)
  /\ (forall p,
        PrimFloat.leb 0 p = true -> PrimFloat.leb p 100 = true ->
        let idx := (p / 100) * (JS.ofZ (Z.of_nat (length vals)) - 1) in
        exists (i j : nat) (a b : float),
          (i <= j <= i + 1)%nat /\ (j < length vals)%nat
          /\ toInteger (JS.floor idx) = Some (Z.of_nat i)
          /\ toInteger (JS.ceil idx) = Some (Z.of_nat j)
          /\ PrimFloat.leb (JS.floor idx) idx = true
          /\ PrimFloat.leb idx (JS.ceil idx) = true
          /\ vals !! i = Some a /\ vals !! j = Some b
          /\ PrimFloat.leb a b = true
          /\ q vals p
             = Some (if Nat.eqb i j then a
                     else a * (1 - (idx - JS.floor idx)) + b * (idx - JS.floor idx))).
Proof.
  intros Hne Hasc Hlen.
  assert (Hl : (1 <= Z.of_nat (length vals) < 2 ^ 53)%Z).
  { destruct vals; [congruence|]. cbn [length] in *. lia. }
  split.
  - destruct vals as [|v0 rest]; [congruence|].
    destruct (last (v0 :: rest)) as [hi|] eqn:Ehi.
    2:{ apply last_None in Ehi. discriminate. }
    exists v0, hi. rewrite q_first, q_last by exact Hl.
    do 4 (split; [assumption || reflexivity|]).
    intros y Hy. apply list_elem_of_lookup in Hy as [i Hi]. split.
    + apply (Hasc 0%nat i v0 y); [lia|reflexivity|exact Hi].
    + rewrite last_lookup in Ehi.
      apply (Hasc i (Nat.pred (length (v0 :: rest))) y hi); [|exact Hi|exact Ehi].
      apply lookup_lt_Some in Hi. lia.
  - intros p H0 H1 idx.
    destruct (q_positions vals p Hl H0 H1)
      as (i & j & Hij & Hj & Ef & Ec & Eeq & Hfl & Hce).
    fold idx in Ef, Ec, Eeq, Hfl, Hce.
    destruct (lookup_lt_is_Some_2 vals i ltac:(lia)) as [a Ha].
    destruct (lookup_lt_is_Some_2 vals j Hj) as [b Hb].
    exists i, j, a, b.
    do 6 (split; [assumption|]).
    split; [exact Ha|]. split; [exact Hb|].
    split; [apply (Hasc i j a b); [lia|exact Ha|exact Hb]|].
    unfold q. fold idx. rewrite Eeq.
    rewrite (index_position vals _ i Ef), (index_position vals _ j Ec), Ha, Hb.
    destruct (Nat.eqb i j); reflexivity.
Qed.

Lemma ascending_example : ascending [1; 2; 3; 4].
Proof.
  intros i j x y Hij Hi Hj.
  destruct i as [|[|[|[|i]]]]; destruct j as [|[|[|[|j]]]];
    cbn in Hi, Hj; try discriminate; try lia;
    injection Hi as <-; injection Hj as <-; reflexivity.
Qed.

Lemma C8_percentile_endpoints_witness :
  (exists lo hi,
     head [1; 2; 3; 4] = Some lo /\ last [1; 2; 3; 4] = Some hi
     /\ q [1; 2; 3; 4] 0 = Some lo /\ q [1; 2; 3; 4] 100 = Some hi
     /\ forall y, y ∈ [1; 2; 3; 4] ->
                  PrimFloat.leb lo y = true /\ PrimFloat.leb y hi = true)
  /\ (forall p,
        PrimFloat.leb 0 p = true -> PrimFloat.leb p 100 = true ->
        let idx := (p / 100) * (JS.ofZ (Z.of_nat (length [1; 2; 3; 4])) - 1) in
        exists (i j : nat) (a b : float),
          (i <= j <= i + 1)%nat /\ (j < length [1; 2; 3; 4])%nat
          /\ toInteger (JS.floor idx) = Some (Z.of_nat i)
          /\ toInteger (JS.ceil idx) = Some (Z.of_nat j)
          /\ PrimFloat.leb (JS.floor idx) idx = true
          /\ PrimFloat.leb idx (JS.ceil idx) = true
          /\ [1; 2; 3; 4] !! i = Some a /\ [1; 2; 3; 4] !! j = Some b
          /\ PrimFloat.leb a b = true
          /\ q [1; 2; 3; 4] p
             = Some (if Nat.eqb i j then a
                     else a * (1 - (idx - JS.floor idx)) + b * (idx - JS.floor idx))).
Proof.
  apply (C8_percentile_endpoints [1; 2; 3; 4]);
    [discriminate|exact ascending_example|reflexivity].
Defined.

(** The interpolation on a concrete array: half way between the second
    and the third of four values, and a quarter of the way from the first
    of two. *)
Lemma q_interpolates :
  q [1; 2; 3; 4] 50 = Some 2.5 /\ q [10; 20] 25 = Some 12.5
  /\ q [1; 2; 3; 4] 0 = Some 1 /\ q [1; 2; 3; 4] 100 = Some 4.
Proof. repeat split; reflexivity. Qed.


(** ** MetricValueIndex: what is collected, and from which rows *)

Lemma pushMetric_alter row mv metric :
  pushMetric row mv metric = alter (fun l => l ++ contribution row metric) metric mv.
Proof.
  unfold pushMetric, contribution. apply map_eq. intros k.
  rewrite lookup_alter.
  destruct (parseNum (Row.get row metric)) as [v|];
    [destruct (PrimFloat.leb 0 v)|]; try (rewrite lookup_alter);
    case_decide; subst; try reflexivity;
    destruct (mv !! k); simpl; rewrite ?app_nil_r; reflexivity.
Qed.

Lemma foldl_alter_lookup (g : string -> list float -> list float)
    (ms : list string) (mv : gmap string (list float)) (k : string) :
  NoDup ms ->
  foldl (fun mv m => alter (g m) m mv) mv ms !! k
  = if decide (k ∈ ms) then g k <$> mv !! k else mv !! k.
Proof.
  intros Hnd. revert mv. induction Hnd as [|m ms Hm Hnd IH]; intros mv; cbn [foldl].
  - rewrite decide_False; [reflexivity|apply not_elem_of_nil].
  - rewrite IH, lookup_alter. destruct (decide (m = k)) as [->|Hne].
    + rewrite (decide_False (P := k ∈ ms)) by exact Hm.
      rewrite (decide_True (P := k ∈ k :: ms)) by apply list_elem_of_here.
      reflexivity.
    + destruct (decide (k ∈ ms)) as [Hin|Hin].
      * rewrite (decide_True (P := k ∈ m :: ms))
          by (apply list_elem_of_further; exact Hin).
        reflexivity.
      * rewrite (decide_False (P := k ∈ m :: ms)); [reflexivity|].
        intros H. apply elem_of_cons in H as [->|]; congruence.
Qed.

Lemma foldl_insert_lookup (ms : list string) (mv : gmap string (list float)) (k : string) :
  foldl (fun mv m => <[m := []]> mv) mv ms !! k
  = if decide (k ∈ ms) then Some [] else mv !! k.
Proof.
  revert mv. induction ms as [|m ms IH]; intros mv; cbn [foldl].
  - rewrite decide_False; [reflexivity|apply not_elem_of_nil].
  - rewrite IH. destruct (decide (k ∈ ms)) as [Hin|Hin].
    + rewrite (decide_True (P := k ∈ m :: ms))
        by (apply list_elem_of_further; exact Hin).
      reflexivity.
    + destruct (decide (m = k)) as [->|Hne].
      * rewrite (decide_True (P := k ∈ k :: ms)) by apply list_elem_of_here.
        apply lookup_insert_eq.
      * rewrite lookup_insert_ne by exact Hne.
        rewrite (decide_False (P := k ∈ m :: ms)); [reflexivity|].
        intros H. apply elem_of_cons in H as [->|]; congruence.
Qed.

Lemma METRIC_FIELDS_NoDup : NoDup METRIC_FIELDS.
Proof. apply (bool_decide_unpack (NoDup METRIC_FIELDS)). vm_compute. exact I. Qed.

Lemma foldl_pushMetric row ms mv :
  foldl (pushMetric row) mv ms
  = foldl (fun mv m => alter (fun l => l ++ contribution row m) m mv) mv ms.
Proof.
  revert mv. induction ms as [|m ms IH]; intros mv; cbn [foldl]; [reflexivity|].
  rewrite pushMetric_alter. apply IH.
Qed.

Lemma fill_lookup (rows : list Row.t) (mv : gmap string (list float))
    (metric : string) (l : list float) :
  metric ∈ METRIC_FIELDS ->
  mv !! metric = Some l ->
  foldl (fun mv row => foldl (pushMetric row) mv METRIC_FIELDS) mv rows !! metric
  = Some (l ++ collected rows metric).
Proof.
  intros Hin. revert mv l. induction rows as [|row rows IH]; intros mv l Hl; cbn [foldl].
  - unfold collected. cbn [map concat]. rewrite app_nil_r. exact Hl.
  - rewrite (IH _ (l ++ contribution row metric)).
    + unfold collected. cbn [map concat]. rewrite app_assoc. reflexivity.
    + rewrite foldl_pushMetric.
      rewrite (foldl_alter_lookup (fun m l => l ++ contribution row m))
        by apply METRIC_FIELDS_NoDup.
      rewrite decide_True by exact Hin. rewrite Hl. reflexivity.
Qed.

Lemma buildMetricValues_lookup (rows : list Row.t) (metric : string) :
  metric ∈ METRIC_FIELDS ->
  buildMetricValues rows !! metric = Some (sortNumbers (collected rows metric)).
Proof.
  intros Hin. unfold buildMetricValues.
  rewrite (foldl_alter_lookup (fun _ => sortNumbers)) by apply METRIC_FIELDS_NoDup.
  rewrite decide_True by exact Hin.
  rewrite (fill_lookup rows _ metric []); [reflexivity|exact Hin|].
  rewrite foldl_insert_lookup, decide_True by exact Hin. reflexivity.
Qed.

Lemma insertSorted_perm x l : insertSorted x l ≡ₚ x :: l.
Proof.
  induction l as [|y l IH]; simpl; [reflexivity|].
  destruct (PrimFloat.ltb 0 (x - y)); [|reflexivity].
  rewrite IH. apply Permutation_swap.
Qed.

Lemma sortNumbers_perm l : sortNumbers l ≡ₚ l.
Proof.
  induction l as [|x l IH]; simpl; [reflexivity|].
  rewrite insertSorted_perm, IH. reflexivity.
Qed.

Lemma elem_of_contribution row metric v :
  v ∈ contribution row metric
  <-> parseNum (Row.get row metric) = Some v /\ PrimFloat.leb 0 v = true.
Proof.
  unfold contribution.
  destruct (parseNum (Row.get row metric)) as [w|].
  - destruct (PrimFloat.leb 0 w) eqn:E.
    + rewrite list_elem_of_singleton. split.
      * intros ->. auto.
      * intros [[= ->] _]. reflexivity.
    + split; [intros H; inversion H|]. intros [[= ->] H]. congruence.
  - split; [intros H; inversion H|]. intros [[=] _].
Qed.

Lemma elem_of_collected rows metric v :
  v ∈ collected rows metric
  <-> exists row, row ∈ rows
        /\ parseNum (Row.get row metric) = Some v /\ PrimFloat.leb 0 v = true.
Proof.
  unfold collected. induction rows as [|row rows IH]; cbn [map concat].
  - split; [intros H; inversion H|]. intros (row & H & _). inversion H.
  - rewrite elem_of_app, IH, elem_of_contribution. split.
    + intros [H|(r & Hr & H)].
      * exists row. split; [apply list_elem_of_here|exact H].
      * exists r. split; [apply list_elem_of_further; exact Hr|exact H].
    + intros (r & Hr & H). apply elem_of_cons in Hr as [->|Hr].
      * left. exact H.
      * right. exists r. auto.
Qed.

(** ** Source index: which rows can be displayed *)

Lemma buildIndex_displayed (rows : list Row.t) (src dst : string) (r : Row.t) :
  displayed (buildIndex rows) src dst = Some r ->
  r ∈ rows
  /\ countryCode (Row.src_country r) = src /\ src <> ""%string
  /\ countryCode (Row.dst_country r) = dst /\ dst <> ""%string.
Proof.
  unfold buildIndex.
  assert (G : forall ix,
    (forall src dst r, displayed ix src dst = Some r ->
       countryCode (Row.src_country r) = src /\ src <> ""%string
       /\ countryCode (Row.dst_country r) = dst /\ dst <> ""%string) ->
    displayed (foldl indexRow ix rows) src dst = Some r ->
    (r ∈ rows \/ displayed ix src dst = Some r)
    /\ countryCode (Row.src_country r) = src /\ src <> ""%string
    /\ countryCode (Row.dst_country r) = dst /\ dst <> ""%string).
  { induction rows as [|row rows IH]; intros ix Hix H; simpl in H.
    - split; [right; exact H|]. apply Hix. exact H.
    - assert (Hstep : forall src dst r,
        displayed (indexRow ix row) src dst = Some r ->
        (r = row \/ displayed ix src dst = Some r)
        /\ countryCode (Row.src_country r) = src /\ src <> ""%string
        /\ countryCode (Row.dst_country r) = dst /\ dst <> ""%string).
      { intros s d r' Hd. unfold indexRow in Hd.
        fold (countryCode (Row.src_country row)) in Hd.
        fold (countryCode (Row.dst_country row)) in Hd.
        destruct (String.eqb (countryCode (Row.src_country row)) "") eqn:Es;
          [split; [right; exact Hd|apply Hix; exact Hd]|].
        destruct (String.eqb (countryCode (Row.dst_country row)) "") eqn:Ed;
          [split; [right; exact Hd|apply Hix; exact Hd]|].
        apply String.eqb_neq in Es, Ed.
        unfold displayed in Hd. cbn [orb bySrc] in Hd.
        destruct (decide (countryCode (Row.src_country row) = s)) as [<-|Hs].
        - rewrite lookup_insert_eq in Hd. cbn in Hd.
          destruct (decide (countryCode (Row.dst_country row) = d)) as [<-|Hd'].
          + rewrite lookup_insert_eq in Hd. injection Hd as <-. auto.
          + rewrite lookup_insert_ne in Hd by exact Hd'.
            assert (Hd2 : displayed ix (countryCode (Row.src_country row)) d = Some r').
            { unfold displayed.
              destruct (bySrc ix !! countryCode (Row.src_country row)); [exact Hd|].
              cbn in Hd. rewrite lookup_empty in Hd. discriminate. }
            split; [right; exact Hd2|apply Hix; exact Hd2].
        - rewrite lookup_insert_ne in Hd by exact Hs.
          split; [right; exact Hd|apply Hix; exact Hd]. }
      destruct (IH (indexRow ix row)) as ([Hin|Hprev] & Hrest).
      + intros s d r' Hd. apply Hstep in Hd. tauto.
      + exact H.
      + split; [left; right; exact Hin|exact Hrest].
      + split; [|exact Hrest]. apply Hstep in Hprev as ([->|Hp] & _).
        * left; left.
        * right; exact Hp. }
  intros H. apply G in H.
  - destruct H as ([Hin|Hemp] & Hrest); [tauto|].
    unfold displayed in Hemp. cbn in Hemp. rewrite lookup_empty in Hemp. discriminate.
  - intros s d r' Hd. unfold displayed in Hd. cbn in Hd.
    rewrite lookup_empty in Hd. discriminate.
Qed.

(** C10: for each tracked metric, [buildMetricValues] stores exactly the
    values [>= 0] parsed from that field over all rows (with
    multiplicity, sorted), whatever the rows' country cells; [buildIndex]
    only ever displays rows whose two country codes are non-empty.  So a
    row with a blank source country is never displayed, yet its value
    moves the auto scale: with it the range of [mean_ms] is
    [59.5 .. 950.5], without it [10 .. 10.000001]. *)
Theorem C10_metric_values_scope :
  (forall rows metric,
     metric ∈ METRIC_FIELDS ->
     exists vals,
       buildMetricValues rows !! metric = Some vals
       /\ vals ≡ₚ collected rows metric
       /\ forall v, v ∈ vals
            <-> exists row, row ∈ rows
                  /\ parseNum (Row.get row metric) = Some v
                  /\ PrimFloat.leb 0 v = true)
  /\ (forall rows src dst r,
        displayed (buildIndex rows) src dst = Some r ->
        r ∈ rows
        /\ countryCode (Row.src_country r) <> ""%string
        /\ countryCode (Row.dst_country r) <> ""%string)
  /\ (let rows := enrichAverageMetric [row_visible; row_hidden] in
      let hidden := Row.set_average_ms row_hidden (computeAverageMs row_hidden) in
      hidden ∈ rows
      /\ (forall src dst, displayed (buildIndex rows) src dst <> Some hidden)
      /\ computeGlobalScale scaleCfg0 (buildMetricValues rows) "mean_ms"
         = mkScale (Some 59.5) 950.5
      /\ computeGlobalScale scaleCfg0
           (buildMetricValues (enrichAverageMetric [row_visible])) "mean_ms"
         = mkScale (Some 10) 10.000001).
Proof.
  split; [|split].
  - intros rows metric Hin. exists (sortNumbers (collected rows metric)).
    split; [apply buildMetricValues_lookup; exact Hin|].
    split; [apply sortNumbers_perm|].
    intros v. rewrite sortNumbers_perm. apply elem_of_collected.
  - intros rows src dst r H.
    apply buildIndex_displayed in H as (Hin & <- & Hs & <- & Hd). auto.
  - cbv zeta. split; [|split; [|split]].
    + apply list_elem_of_further, list_elem_of_here.
    + intros src dst H. apply buildIndex_displayed in H as (_ & Hs & Hne & _ & _).
      apply Hne. rewrite <- Hs. vm_compute. reflexivity.
    + vm_compute. reflexivity.
    + vm_compute. reflexivity.
Qed.

(** ** StatisticsEstimator: fallback choice and repeated enrichment *)

(** X7: [firstNonNegative] returns the first argument that is a number
    [>= 0], having passed over only [null]s and numbers that are not
    [>= 0]; it returns [null] exactly when every argument is passed over. *)
Theorem X7_firstNonNegative_first (values : list (option float)) :
  match firstNonNegative values with
  | Some x =>
      exists before after,
        values = before ++ Some x :: after
        /\ Forall skipped before
        /\ PrimFloat.leb 0 x = true
  | None => Forall skipped values
  end.
Proof.
  induction values as [|[v|] values IH]; cbn [firstNonNegative].
  - constructor.
  - destruct (PrimFloat.leb 0 v) eqn:E.
    + exists [], values. repeat split; [constructor|exact E].
    + destruct (firstNonNegative values) as [x|].
      * destruct IH as (before & after & -> & Hb & Hx).
        exists (Some v :: before), after. repeat split; [|exact Hx].
        constructor; [exact E|exact Hb].
      * constructor; [exact E|exact IH].
  - destruct (firstNonNegative values) as [x|].
    + destruct IH as (before & after & -> & Hb & Hx).
      exists (None :: before), after. repeat split; [|exact Hx].
      constructor; [exact I|exact Hb].
    + constructor; [exact I|exact IH].
Qed.

Lemma computeAverageMs_finite (row : Row.t) :
  JS.isFinite (computeAverageMs row) = true.
Proof.
  unfold computeAverageMs.
  destruct (parseNum (Row.average_ms row)) as [existing|] eqn:Ha.
  { apply parseNum_Some in Ha. tauto. }
  destruct (PrimFloat.leb _ 0); [reflexivity|].
  destruct (parseNum (Row.mean_ms row)) as [mean|] eqn:Hm; [|reflexivity].
  destruct (JS.seq _ _); [reflexivity|].
  destruct (negb _ && PrimFloat.leb 0 mean); [apply parseNum_Some in Hm; tauto|].
  destruct (PrimFloat.leb _ (estimateInvalidCount _ _)); [reflexivity|].
  match goal with |- context [JS.isFinite ?c && PrimFloat.leb 0 ?c] =>
    destruct (JS.isFinite c && PrimFloat.leb 0 c) eqn:Hc end.
  { apply andb_prop in Hc as [? ?]. assumption. }
  destruct (firstNonNegative _) as [fallback|] eqn:Hf; [|reflexivity].
  apply firstNonNegative_Some in Hf as [Hin _]. simpl in Hin.
  destruct Hin as [H|[H|[H|[H|[]]]]]; apply parseNum_Some in H; tauto.
Qed.

(** X8: enrichment is idempotent: enriching an already enriched table
    changes nothing, because the stored average is finite and is then
    returned as the provided one. *)
Theorem X8_enrich_idempotent (rows : list Row.t) :
  enrichAverageMetric (enrichAverageMetric rows) = enrichAverageMetric rows.
Proof.
  unfold enrichAverageMetric. rewrite map_map. apply map_ext. intros row.
  assert (E : computeAverageMs (Row.set_average_ms row (computeAverageMs row))
              = computeAverageMs row).
  { unfold computeAverageMs at 1. cbn [Row.average_ms Row.set_average_ms].
    unfold parseNum at 1. rewrite computeAverageMs_finite. reflexivity. }
  rewrite E. reflexivity.
Qed.

(** ** ScaleComputer: metrics without values *)

Lemma foldl_pushMetric_other (rows : list Row.t) (mv : gmap string (list float))
    (metric : string) :
  metric ∉ METRIC_FIELDS ->
  foldl (fun mv row => foldl (pushMetric row) mv METRIC_FIELDS) mv rows !! metric
  = mv !! metric.
Proof.
  intros Hout. revert mv. induction rows as [|row rows IH]; intros mv; cbn [foldl].
  - reflexivity.
  - rewrite IH, foldl_pushMetric.
    rewrite (foldl_alter_lookup (fun m l => l ++ contribution row m))
      by apply METRIC_FIELDS_NoDup.
    rewrite decide_False by exact Hout. reflexivity.
Qed.

Lemma buildMetricValues_lookup_other (rows : list Row.t) (metric : string) :
  metric ∉ METRIC_FIELDS -> buildMetricValues rows !! metric = None.
Proof.
  intros Hout. unfold buildMetricValues.
  rewrite (foldl_alter_lookup (fun _ => sortNumbers)) by apply METRIC_FIELDS_NoDup.
  rewrite decide_False by exact Hout.
  rewrite foldl_pushMetric_other by exact Hout.
  rewrite foldl_insert_lookup, decide_False by exact Hout. apply lookup_empty.
Qed.

(** X9: the auto scale falls back to [{min: 0, max: 1}] for every metric
    name that is not tracked, and for a tracked metric as soon as no row
    has a value [>= 0] for it (an empty table included), whatever the
    percentile settings. *)
Theorem X9_default_scale (cfg : ScaleCfg) (rows : list Row.t) (metric : string) :
  (metric ∈ METRIC_FIELDS ->
   forall row v, row ∈ rows -> parseNum (Row.get row metric) = Some v ->
                 PrimFloat.leb 0 v = false) ->
  computeGlobalScale cfg (buildMetricValues rows) metric = mkScale (Some 0) 1.
Proof.
  intros H. unfold computeGlobalScale.
  destruct (decide (metric ∈ METRIC_FIELDS)) as [Hin|Hout].
  - rewrite buildMetricValues_lookup by exact Hin.
    assert (E : collected rows metric = []).
    { destruct (collected rows metric) as [|v l] eqn:Ec; [reflexivity|].
      assert (Hv : v ∈ collected rows metric) by (rewrite Ec; apply list_elem_of_here).
      apply elem_of_collected in Hv as (row & Hrow & Hp & Hpos).
      rewrite (H Hin row v Hrow Hp) in Hpos. discriminate. }
    rewrite E. reflexivity.
  - rewrite buildMetricValues_lookup_other by exact Hout. reflexivity.
Qed.

Lemma X9_default_scale_witness :
  computeGlobalScale scaleCfg0 (buildMetricValues [row_example]) "min_ms"
  = mkScale (Some 0) 1.
Proof.
  apply (X9_default_scale scaleCfg0 [row_example] "min_ms").
  intros _ row v Hrow Hp. apply list_elem_of_singleton in Hrow. subst row.
  injection Hp as <-. reflexivity.
Defined.

(** ** ColorMapper: the ramp position and its two ends *)

(** X10: [clamp01] maps every number other than [NaN] into [0, 1], and
    [NaN] to [NaN]. *)
Theorem X10_clamp01_range :
  (forall t, JS.isNaN t = false ->
             PrimFloat.leb 0 (clamp01 t) = true /\ PrimFloat.leb (clamp01 t) 1 = true)
  /\ (forall t, JS.isNaN t = true -> JS.isNaN (clamp01 t) = true).
Proof.
  split.
  - intros t Ht. unfold clamp01.
    assert (Hm : JS.isNaN (JS.min 1 t) = false /\ PrimFloat.leb (JS.min 1 t) 1 = true).
    { destruct (FloatFacts.min_cases 1 t eq_refl Ht) as [[-> _]|[-> H]];
        split; auto. }
    destruct Hm as [Hn Hle].
    destruct (FloatFacts.max_cases 0 (JS.min 1 t) eq_refl Hn) as [[-> _]|[-> H]].
    + split; reflexivity.
    + split; assumption.
  - intros t Ht. unfold clamp01, JS.max, JS.min. rewrite Ht. reflexivity.
Qed.

Lemma clamp01_zero z : z = 0 \/ z = -0 -> clamp01 z = 0.
Proof. intros [-> | ->]; reflexivity. Qed.

(** X11: a finite value equal to the lower bound of the range is painted
    with the "fast" colour [#00b050], whatever the upper bound is (equal
    to it, infinite or [NaN] included); under the ['log'] transform this
    needs the logarithm of the value to be finite. *)
Theorem X11_fast_anchor (log10 : float -> float) (cfg : ScaleCfg) (v maxV : float) :
  JS.isFinite v = true ->
  JS.isFinite (rampPosition log10 cfg v) = true ->
  valueToColor log10 cfg (Some v) v maxV = Some "#00b050"%string.
Proof.
  intros Hv Hp. unfold valueToColor, isFiniteNumber. rewrite Hv. cbn [negb].
  unfold rampPosition in Hp.
  assert (G : forall x d, JS.isFinite x = true ->
            clamp01 ((x - x) / (if JS.truthy d then d else 1)) = 0).
  { intros x d Hx. rewrite (FloatMore.sub_self x Hx).
    apply clamp01_zero, FloatMore.zero_div; [left; reflexivity|].
    destruct (JS.truthy d) eqn:E; [exact E|reflexivity]. }
  destruct (String.eqb (transform cfg) "log"); rewrite (G _ _ Hp); reflexivity.
Qed.

Lemma X11_fast_anchor_witness :
  valueToColor (fun x => x) scaleCfg0 (Some 20) 20 300 = Some "#00b050"%string.
Proof. apply (X11_fast_anchor (fun x => x) scaleCfg0 20 300); reflexivity. Defined.

(** X12: a finite value equal to the upper bound of the range is painted
    with the "slow" colour [#ff0000], provided the width of the range on
    the ramp axis ([max - min], or the difference of their logarithms
    under the ['log'] transform) is finite and not zero. *)
Theorem X12_slow_anchor (log10 : float -> float) (cfg : ScaleCfg) (minV v : float) :
  JS.isFinite v = true ->
  JS.isFinite (rampPosition log10 cfg v - rampPosition log10 cfg minV) = true ->
  JS.truthy (rampPosition log10 cfg v - rampPosition log10 cfg minV) = true ->
  valueToColor log10 cfg (Some v) minV v = Some "#ff0000"%string.
Proof.
  intros Hv Hf Ht. unfold valueToColor, isFiniteNumber. rewrite Hv. cbn [negb].
  unfold rampPosition in Hf, Ht.
  destruct (String.eqb (transform cfg) "log");
    rewrite Ht, (FloatMore.div_self _ Hf Ht); reflexivity.
Qed.

Lemma X12_slow_anchor_witness :
  valueToColor (fun x => x) scaleCfg0 (Some 300) 20 300 = Some "#ff0000"%string.
Proof. apply (X12_slow_anchor (fun x => x) scaleCfg0 20 300); reflexivity. Defined.

(** ** ColorMapper: colours as text *)

(** X13: printing a colour and reading it back is the identity: for
    channels that are integers from [0] to [255], [hexToRgb(rgbToHex(c))]
    is [c]; the text is [#] followed by six hexadecimal digits. *)
Theorem X13_hex_round_trip (r g b : Z) :
  (0 <= r < 256)%Z -> (0 <= g < 256)%Z -> (0 <= b < 256)%Z ->
  String.length (rgbToHex (mkRgb (JS.ofZ r) (JS.ofZ g) (JS.ofZ b))) = 7%nat
  /\ hexToRgb (rgbToHex (mkRgb (JS.ofZ r) (JS.ofZ g) (JS.ofZ b)))
     = Some (mkRgb (JS.ofZ r) (JS.ofZ g) (JS.ofZ b)).
Proof.
  intros Hr Hg Hb. unfold rgbToHex. cbn [red_ green_ blue_].
  destruct (toHex_channel r Hr) as (r1 & r2 & -> & _ & _ & Er).
  destruct (toHex_channel g Hg) as (g1 & g2 & -> & _ & _ & Eg).
  destruct (toHex_channel b Hb) as (b1 & b2 & -> & _ & Hsp & Eb).
  change (String "#" (String r1 (String r2 "") +:+ String g1 (String g2 "")
                      +:+ String b1 (String b2 "")))
    with (String "#" (String r1 (String r2 (String g1 (String g2
            (String b1 (String b2 EmptyString))))))).
  split; [reflexivity|].
  unfold hexToRgb. rewrite (trim_colour _ _ _ _ _ _ Hsp), Er, Eg, Eb. reflexivity.
Qed.

Lemma X13_hex_round_trip_witness :
  String.length (rgbToHex (mkRgb (JS.ofZ 0) (JS.ofZ 176) (JS.ofZ 80))) = 7%nat
  /\ hexToRgb (rgbToHex (mkRgb (JS.ofZ 0) (JS.ofZ 176) (JS.ofZ 80)))
     = Some (mkRgb (JS.ofZ 0) (JS.ofZ 176) (JS.ofZ 80)).
Proof. apply (X13_hex_round_trip 0 176 80); lia. Defined.

(** ** MetricValueIndex: the arrays are ascending *)

Lemma insertSorted_finite x l :
  JS.isFinite x = true ->
  Forall (fun y => JS.isFinite y = true) l ->
  Forall (fun y => JS.isFinite y = true) (insertSorted x l).
Proof.
  intros Hx Hl. rewrite insertSorted_perm. constructor; assumption.
Qed.

Lemma isFinite_not_nan x : JS.isFinite x = true -> JS.isNaN x = false.
Proof.
  intros H. apply FloatMore.isFinite_spec in H. apply FloatFacts.isNaN_false.
  destruct (Prim2SF x); try contradiction; discriminate.
Qed.

Lemma insertSorted_sorted x l :
  JS.isFinite x = true ->
  Forall (fun y => JS.isFinite y = true) l ->
  StronglySorted (fun a b => PrimFloat.leb a b = true) l ->
  StronglySorted (fun a b => PrimFloat.leb a b = true) (insertSorted x l).
Proof.
  intros Hx Hl Hs. induction Hs as [|y l Hs IH Hy]; cbn [insertSorted].
  - repeat constructor.
  - apply Forall_cons in Hl as [Hfy Hl].
    rewrite (FloatOrder.sub_pos_iff x y Hx Hfy).
    destruct (PrimFloat.ltb y x) eqn:E.
    + constructor; [apply IH; exact Hl|].
      rewrite insertSorted_perm. constructor; [|exact Hy].
      apply FloatFacts.ltb_leb. exact E.
    + assert (Hxy : PrimFloat.leb x y = true).
      { apply FloatFacts.not_ltb_leb; auto using isFinite_not_nan. }
      constructor; [constructor; assumption|].
      constructor; [exact Hxy|].
      eapply Forall_impl; [exact Hy|]. intros z Hz.
      exact (FloatOrder.leb_trans x y z Hxy Hz).
Qed.

Lemma sortNumbers_sorted l :
  Forall (fun y => JS.isFinite y = true) l ->
  StronglySorted (fun a b => PrimFloat.leb a b = true) (sortNumbers l)
  /\ Forall (fun y => JS.isFinite y = true) (sortNumbers l).
Proof.
  induction 1 as [|x l Hx Hl [IHs IHf]]; cbn [sortNumbers foldr].
  - split; constructor.
  - split; [apply insertSorted_sorted|apply insertSorted_finite]; assumption.
Qed.

Lemma sorted_ascending l :
  Forall (fun y => JS.isFinite y = true) l ->
  StronglySorted (fun a b => PrimFloat.leb a b = true) l ->
  ascending l.
Proof.
  intros Hf Hs. induction Hs as [|x l Hs IH Hx]; intros i j a b Hij Hi Hj.
  - rewrite lookup_nil in Hi. discriminate.
  - apply Forall_cons in Hf as [Hfx Hf].
    destruct i as [|i], j as [|j]; cbn in Hi, Hj.
    + injection Hi as <-. injection Hj as <-.
      apply FloatFacts.leb_refl, isFinite_not_nan, Hfx.
    + injection Hi as <-. rewrite Forall_forall in Hx. apply Hx.
      eapply list_elem_of_lookup_2. exact Hj.
    + lia.
    + apply (IH Hf i j a b); [lia|assumption..].
Qed.

Lemma collected_valid rows metric :
  Forall (fun v => JS.isFinite v = true /\ PrimFloat.leb 0 v = true) (collected rows metric).
Proof.
  apply Forall_forall. intros v Hv. apply elem_of_collected in Hv.
  destruct Hv as (row & _ & Hp & Hpos). apply parseNum_Some in Hp. tauto.
Qed.

Lemma metric_array rows metric vals :
  buildMetricValues rows !! metric = Some vals ->
  vals = sortNumbers (collected rows metric).
Proof.
  intros H. destruct (decide (metric ∈ METRIC_FIELDS)) as [Hin|Hout].
  - rewrite buildMetricValues_lookup in H by exact Hin. congruence.
  - rewrite buildMetricValues_lookup_other in H by exact Hout. discriminate.
Qed.

(** X14: every array stored by [buildMetricValues] is ascending, and each
    of its elements is a finite number [>= 0]: the sentinel [-1], [NaN]
    and absent cells never enter the percentile index. *)
Theorem X14_metric_arrays_ascending (rows : list Row.t) (metric : string) (vals : list float) :
  buildMetricValues rows !! metric = Some vals ->
  ascending vals
  /\ Forall (fun v => JS.isFinite v = true /\ PrimFloat.leb 0 v = true) vals.
Proof.
  intros H. apply metric_array in H. subst vals.
  pose proof (collected_valid rows metric) as Hv.
  assert (Hf : Forall (fun y => JS.isFinite y = true) (collected rows metric)).
  { eapply Forall_impl; [exact Hv|]. cbn. tauto. }
  destruct (sortNumbers_sorted _ Hf) as [Hs Hfs]. split.
  - apply sorted_ascending; assumption.
  - rewrite sortNumbers_perm. exact Hv.
Qed.

Lemma X14_metric_arrays_ascending_witness :
  ascending [10; 1000]
  /\ Forall (fun v => JS.isFinite v = true /\ PrimFloat.leb 0 v = true) [10; 1000].
Proof.
  apply (X14_metric_arrays_ascending [row_hidden; row_visible] "mean_ms" [10; 1000]).
  vm_compute. reflexivity.
Defined.

(** ** ScaleResolver: the full percentile range *)

Lemma add_eps_not_nan x :
  JS.isFinite x = true -> PrimFloat.leb 0 x = true -> JS.isNaN (x + 1e-6) = false.
Proof.
  intros Hf Hp. apply FloatFacts.isNaN_false. rewrite add_spec.
  apply FloatMore.isFinite_spec in Hf.
  rewrite FloatAxioms.leb_spec, FloatFacts.SF_zero in Hp.
  destruct (Prim2SF x) as [s|s| |[] m e]; try contradiction.
  - destruct s; cbn; discriminate.
  - cbn in Hp; discriminate.
  - unfold SF64add, SFadd.
    match goal with |- context [Prim2SF ?c] =>
      let v := eval vm_compute in (Prim2SF c) in change (Prim2SF c) with v end.
    cbv beta iota. eapply FloatFacts.signed_not_nan.
    match goal with |- FloatForm.signed _ (binary_normalize _ _ ?M _ _) =>
      replace false with (M <? 0)%Z at 1; [apply FloatFacts.binary_normalize_signed|]
    end.
    apply Z.ltb_ge. cbn [cond_Zopp]. lia.
Qed.

Lemma collected_length rows metric :
  (length (collected rows metric) <= length rows)%nat.
Proof.
  unfold collected. induction rows as [|row rows IH]; cbn [map concat length]; [lia|].
  rewrite length_app. unfold contribution at 1.
  destruct (parseNum _) as [v|]; [destruct (PrimFloat.leb 0 v)|]; cbn [length]; lia.
Qed.

(** X15: with the percentiles set to [0] and [100] the auto range of a
    tracked metric covers every value the table holds for it: each valid
    value [v] of a row satisfies [min <= v <= max], so no country is
    clamped to an end of the ramp. *)
Theorem X15_full_range_covers (cfg : ScaleCfg) (rows : list Row.t) (metric : string)
    (row : Row.t) (v : float) :
  pLow cfg = 0 -> pHigh cfg = 100 ->
  (Z.of_nat (length rows) < 2 ^ 53)%Z ->
  metric ∈ METRIC_FIELDS ->
  row ∈ rows -> parseNum (Row.get row metric) = Some v -> PrimFloat.leb 0 v = true ->
  exists lo,
    scaleMin (computeGlobalScale cfg (buildMetricValues rows) metric) = Some lo
    /\ PrimFloat.leb lo v = true
    /\ PrimFloat.leb v (scaleMax (computeGlobalScale cfg (buildMetricValues rows) metric)) = true.
Proof.
  intros Hlow Hhigh Hlen Hin Hrow Hp Hpos.
  assert (Hf : Forall (fun y => JS.isFinite y = true) (collected rows metric)).
  { eapply Forall_impl; [exact (collected_valid rows metric)|]. cbn. tauto. }
  destruct (sortNumbers_sorted _ Hf) as [Hs Hfs].
  pose proof (sorted_ascending _ Hfs Hs) as Hasc.
  assert (Hvalid : Forall (fun v => JS.isFinite v = true /\ PrimFloat.leb 0 v = true)
                     (sortNumbers (collected rows metric))).
  { rewrite sortNumbers_perm. apply collected_valid. }
  assert (Hv : v ∈ sortNumbers (collected rows metric)).
  { rewrite sortNumbers_perm. apply elem_of_collected. exists row. auto. }
  assert (Hl : (length (sortNumbers (collected rows metric)) <= length rows)%nat).
  { rewrite sortNumbers_perm. apply collected_length. }
  unfold computeGlobalScale.
  rewrite (buildMetricValues_lookup rows metric Hin). cbn [default from_option id].
  generalize dependent (sortNumbers (collected rows metric)). intros vals Hs Hfs Hasc Hvalid Hv Hl.
  assert (Hn : (1 <= Z.of_nat (length vals) < 2 ^ 53)%Z).
  { destruct vals; [inversion Hv|]. cbn [length] in *. lia. }
  destruct vals as [|v0 rest] eqn:Ev; [inversion Hv|]. cbv iota. rewrite <- Ev in *.
  rewrite Hlow, Hhigh, (q_first vals Hn), (q_last vals Hn).
  destruct (last vals) as [hi|] eqn:Ehi.
  2:{ apply last_None in Ehi. congruence. }
  assert (Hhd : head vals = Some v0) by (rewrite Ev; reflexivity).
  rewrite Hhd. cbn [scaleMin scaleMax toNumber].
  apply list_elem_of_lookup in Hv as [i Hi].
  pose proof (lookup_lt_Some _ _ _ Hi) as Hlt.
  assert (H0 : vals !! 0%nat = Some v0) by (rewrite Ev; reflexivity).
  rewrite last_lookup in Ehi.
  exists v0. split; [reflexivity|]. split.
  - apply (Hasc 0%nat i v0 v); [lia|assumption..].
  - assert (Hvh : PrimFloat.leb v hi = true).
    { apply (Hasc i (Nat.pred (length vals)) v hi); [lia|assumption..]. }
    rewrite Forall_forall in Hvalid.
    destruct (Hvalid v0 (list_elem_of_lookup_2 _ _ _ H0)) as [Hf0 Hp0].
    destruct (Hvalid hi (list_elem_of_lookup_2 _ _ _ Ehi)) as [Hfh _].
    destruct (FloatFacts.max_cases hi (v0 + 1e-6) (isFinite_not_nan _ Hfh)
                (add_eps_not_nan _ Hf0 Hp0)) as [[-> _]|[-> Hle]]; [exact Hvh|].
    exact (FloatOrder.leb_trans _ _ _ Hvh Hle).
Qed.

Lemma X15_full_range_covers_witness :
  exists lo,
    scaleMin (computeGlobalScale (mkScaleCfg true 20 300 0 100 "linear" "#dddddd")
                (buildMetricValues [row_hidden; row_visible]) "mean_ms") = Some lo
    /\ PrimFloat.leb lo 1000 = true
    /\ PrimFloat.leb 1000
         (scaleMax (computeGlobalScale (mkScaleCfg true 20 300 0 100 "linear" "#dddddd")
                      (buildMetricValues [row_hidden; row_visible]) "mean_ms")) = true.
Proof.
  apply (X15_full_range_covers (mkScaleCfg true 20 300 0 100 "linear" "#dddddd")
           [row_hidden; row_visible] "mean_ms" row_hidden 1000).
  - reflexivity.
  - reflexivity.
  - cbn [length]. lia.
  - apply (bool_decide_unpack _). vm_compute. reflexivity.
  - apply list_elem_of_here.
  - reflexivity.
  - reflexivity.
Defined.

(** ** Source index: lookups after [buildIndex] *)

Lemma displayed_indexRow (ix : Index) (r : Row.t) (src dst : string) :
  displayed (indexRow ix r) src dst
  = if filedUnder src dst r then Some r else displayed ix src dst.
Proof.
  unfold indexRow, filedUnder.
  fold (countryCode (Row.src_country r)). fold (countryCode (Row.dst_country r)).
  destruct (String.eqb (countryCode (Row.src_country r)) "") eqn:Es; [reflexivity|].
  destruct (String.eqb (countryCode (Row.dst_country r)) "") eqn:Ed; [reflexivity|].
  cbn [orb negb andb]. unfold displayed. cbn [bySrc].
  destruct (String.eqb_spec (countryCode (Row.src_country r)) src) as [<-|Hs].
  - rewrite lookup_insert_eq. cbn [mbind option_bind].
    destruct (String.eqb_spec (countryCode (Row.dst_country r)) dst) as [<-|Hd].
    + apply lookup_insert_eq.
    + rewrite lookup_insert_ne by exact Hd.
      destruct (bySrc ix !! countryCode (Row.src_country r)); [reflexivity|].
      apply lookup_empty.
  - rewrite lookup_insert_ne by exact Hs. reflexivity.
Qed.

Lemma displayed_foldl (rows : list Row.t) : forall (ix : Index) (src dst : string),
  displayed (foldl indexRow ix rows) src dst
  = match last (List.filter (filedUnder src dst) rows) with
    | Some r => Some r
    | None => displayed ix src dst
    end.
Proof.
  induction rows as [|r rows IH]; intros ix src dst; [reflexivity|].
  cbn [foldl List.filter]. rewrite IH, displayed_indexRow.
  destruct (filedUnder src dst r); [|reflexivity].
  destruct (List.filter (filedUnder src dst) rows) as [|r' l]; [reflexivity|].
  change (last (r :: r' :: l)) with (last (r' :: l)).
  destruct (last (r' :: l)) eqn:E; [reflexivity|].
  apply last_None in E. discriminate.
Qed.

Lemma allSrcCountrySet_indexRow (ix : Index) (r : Row.t) (src : string) :
  src ∈ allSrcCountrySet (indexRow ix r)
  <-> src ∈ allSrcCountrySet ix
      \/ filedUnder src (countryCode (Row.dst_country r)) r = true.
Proof.
  unfold indexRow, filedUnder.
  fold (countryCode (Row.src_country r)). fold (countryCode (Row.dst_country r)).
  destruct (String.eqb (countryCode (Row.src_country r)) "") eqn:Es;
    [cbn; intuition discriminate|].
  destruct (String.eqb (countryCode (Row.dst_country r)) "") eqn:Ed;
    [cbn; intuition discriminate|].
  cbn [orb negb andb allSrcCountrySet]. rewrite String.eqb_refl, andb_true_r.
  rewrite elem_of_union, elem_of_singleton.
  destruct (String.eqb_spec (countryCode (Row.src_country r)) src); split;
    intros [H|H]; auto; congruence.
Qed.

(** X5: the row shown for a pair of country codes is the last row of the
    table filed under that pair, so a later duplicate replaces an earlier
    one; a pair under which no row is filed shows nothing. *)
Theorem X5_index_last_row_wins (rows : list Row.t) (src dst : string) :
  displayed (buildIndex rows) src dst = last (List.filter (filedUnder src dst) rows).
Proof.
  unfold buildIndex. rewrite displayed_foldl.
  destruct (last (List.filter (filedUnder src dst) rows)); [reflexivity|].
  unfold displayed. cbn. rewrite lookup_empty. reflexivity.
Qed.

Lemma allSrcCountrySet_displayed (rows : list Row.t) (src : string) :
  src ∈ allSrcCountrySet (buildIndex rows)
  <-> exists dst r, displayed (buildIndex rows) src dst = Some r.
Proof.
  unfold buildIndex.
  assert (G : forall ix,
    (src ∈ allSrcCountrySet ix <-> exists dst r, displayed ix src dst = Some r) ->
    (src ∈ allSrcCountrySet (foldl indexRow ix rows)
     <-> exists dst r, displayed (foldl indexRow ix rows) src dst = Some r)).
  { induction rows as [|row rows IH]; intros ix Hix; [exact Hix|].
    cbn [foldl]. apply IH. rewrite allSrcCountrySet_indexRow, Hix. split.
    - intros [(dst & r & H)|H].
      + destruct (filedUnder src dst row) eqn:E.
        * exists dst, row. rewrite displayed_indexRow, E. reflexivity.
        * exists dst, r. rewrite displayed_indexRow, E. exact H.
      + exists (countryCode (Row.dst_country row)), row.
        rewrite displayed_indexRow, H. reflexivity.
    - intros (dst & r & H). rewrite displayed_indexRow in H.
      destruct (filedUnder src dst row) eqn:E.
      + right. unfold filedUnder in *.
        apply andb_prop in E as [E Ed]. apply String.eqb_eq in Ed. subst dst.
        rewrite E. apply String.eqb_refl.
      + left. eauto. }
  apply G. split.
  - intros H. apply elem_of_empty in H. contradiction.
  - intros (dst & r & H). unfold displayed in H. cbn in H.
    rewrite lookup_empty in H. discriminate.
Qed.

(** X6: the set of selectable sources holds exactly the codes under which
    some row is displayed: a source is offered if and only if at least
    one destination has data for it. *)
Theorem X6_sources_have_rows (rows : list Row.t) (src : string) :
  src ∈ allSrcCountrySet (buildIndex rows)
  <-> exists dst r, displayed (buildIndex rows) src dst = Some r.
Proof. exact (allSrcCountrySet_displayed rows src). Qed.

(** ** Country codes: the normal form *)

Module TextFacts.

Lemma append_cons a s t : String.append (String a s) t = String a (String.append s t).
Proof. reflexivity. Qed.

Lemma append_assoc s t u :
  String.append (String.append s t) u = String.append s (String.append t u).
Proof.
  induction s as [|a s IH]; [reflexivity|]. rewrite !append_cons, IH. reflexivity.
Qed.

Lemma rev_app_append s t : String.rev_app s t = String.append (String.rev s) t.
Proof.
  revert t. induction s as [|a s IH]; intros t; [reflexivity|].
  unfold String.rev. cbn [String.rev_app]. rewrite (IH (String a t)), (IH (String a "")).
  rewrite append_assoc. reflexivity.
Qed.

Lemma rev_cons a s : String.rev (String a s) = String.append (String.rev s) (String a "").
Proof. unfold String.rev at 1. cbn [String.rev_app]. apply rev_app_append. Qed.

Lemma append_empty_r s : String.append s "" = s.
Proof. induction s as [|a s IH]; [reflexivity|]. rewrite append_cons, IH. reflexivity. Qed.

Lemma rev_append s t :
  String.rev (String.append s t) = String.append (String.rev t) (String.rev s).
Proof.
  induction s as [|a s IH].
  - change (String.rev "") with ""%string. rewrite append_empty_r. reflexivity.
  - rewrite append_cons, !rev_cons, IH, append_assoc. reflexivity.
Qed.

Lemma rev_involutive s : String.rev (String.rev s) = s.
Proof.
  induction s as [|a s IH]; [reflexivity|].
  rewrite rev_cons, rev_append, IH. reflexivity.
Qed.

Lemma trimStart_headKept s : headKept (trimStart s).
Proof.
  induction s as [|c s IH]; cbn [trimStart]; [exact I|].
  destruct (isSpace c) eqn:E; [exact IH|exact E].
Qed.

Lemma trimStart_fixed s : headKept s -> trimStart s = s.
Proof. destruct s as [|c s]; cbn; [reflexivity|]. intros ->. reflexivity. Qed.

Lemma rev_empty s : String.rev s = ""%string -> s = ""%string.
Proof. intros H. rewrite <- (rev_involutive s), H. reflexivity. Qed.

Lemma trimStart_keeps_end s :
  headKept (String.rev s) -> headKept (String.rev (trimStart s)).
Proof.
  induction s as [|c s IH]; cbn [trimStart]; [auto|].
  destruct (isSpace c) eqn:E; [|auto].
  rewrite rev_cons. intros H.
  destruct (String.rev s) as [|d r] eqn:Er.
  - apply rev_empty in Er. subst s. exact I.
  - apply IH. exact H.
Qed.

Lemma trim_idempotent s : trim (trim s) = trim s.
Proof.
  unfold trim.
  set (b := trimStart (String.rev (trimStart s))).
  assert (Hb : headKept b) by apply trimStart_headKept.
  assert (He : headKept (String.rev b)).
  { apply trimStart_keeps_end. rewrite rev_involutive. apply trimStart_headKept. }
  rewrite (trimStart_fixed _ He), rev_involutive, (trimStart_fixed _ Hb). reflexivity.
Qed.

Lemma isSpace_upperChar c : isSpace (upperChar c) = isSpace c.
Proof. destruct c as [[] [] [] [] [] [] [] []]; reflexivity. Qed.

Lemma upperChar_idempotent c : upperChar (upperChar c) = upperChar c.
Proof. destruct c as [[] [] [] [] [] [] [] []]; reflexivity. Qed.

Lemma toUpperCase_idempotent s : toUpperCase (toUpperCase s) = toUpperCase s.
Proof.
  induction s as [|c s IH]; cbn [toUpperCase]; [reflexivity|].
  rewrite upperChar_idempotent, IH. reflexivity.
Qed.

Lemma toUpperCase_append s t :
  toUpperCase (String.append s t) = String.append (toUpperCase s) (toUpperCase t).
Proof.
  induction s as [|c s IH]; [reflexivity|].
  rewrite append_cons. cbn [toUpperCase]. rewrite append_cons, IH. reflexivity.
Qed.

Lemma toUpperCase_rev s : toUpperCase (String.rev s) = String.rev (toUpperCase s).
Proof.
  induction s as [|c s IH]; [reflexivity|]. cbn [toUpperCase].
  rewrite !rev_cons, toUpperCase_append, IH. reflexivity.
Qed.

Lemma toUpperCase_trimStart s : toUpperCase (trimStart s) = trimStart (toUpperCase s).
Proof.
  induction s as [|c s IH]; [reflexivity|]. cbn [trimStart toUpperCase].
  rewrite isSpace_upperChar. destruct (isSpace c); [exact IH|reflexivity].
Qed.

Lemma toUpperCase_trim s : toUpperCase (trim s) = trim (toUpperCase s).
Proof.
  unfold trim.
  rewrite toUpperCase_rev, toUpperCase_trimStart, toUpperCase_rev, toUpperCase_trimStart.
  reflexivity.
Qed.

Lemma code_normal s :
  toUpperCase (trim (toUpperCase (trim s))) = toUpperCase (trim s).
Proof.
  rewrite <- (toUpperCase_trim (trim s)), trim_idempotent, toUpperCase_idempotent.
  reflexivity.
Qed.

Lemma orText_empty a : orEmpty (orText a (Some ""%string)) = orEmpty a.
Proof.
  destruct a as [s|]; cbn; [|reflexivity].
  destruct (String.eqb s "") eqn:E; [|reflexivity].
  apply String.eqb_eq in E. subst s. reflexivity.
Qed.

End TextFacts.

(** X16: the country code [trim().toUpperCase()] is a normal form: applied
    to a code it returns the code unchanged.  So the keys of the index,
    the codes of the map features and the values handed to the source
    dropdown are all fixed points of the normalisation that
    [setSourceFromIso2] applies again. *)
Theorem X16_country_code_normal_form (cell : option string) (feature : option Feature.t) :
  countryCode (Some (countryCode cell)) = countryCode cell
  /\ countryCode (Some (getFeatureIso2 feature)) = getFeatureIso2 feature
  /\ forall rows src dst r,
       displayed (buildIndex rows) src dst = Some r ->
       countryCode (Some src) = src /\ countryCode (Some dst) = dst.
Proof.
  split; [|split].
  - apply TextFacts.code_normal.
  - apply TextFacts.code_normal.
  - intros rows src dst r H. apply buildIndex_displayed in H.
    destruct H as (_ & <- & _ & <- & _). split; apply TextFacts.code_normal.
Qed.

(** X17: a click on a country, [setSourceFromIso2(getFeatureIso2(feature))],
    selects a source exactly when the index displays at least one row
    sent from that country, and the source selected is then the
    feature's code itself. *)
Theorem X17_click_selects_source (rows : list Row.t) (feature : option Feature.t)
    (src : string) :
  setSourceFromIso2 (buildIndex rows) (getFeatureIso2 feature) = Some src
  <-> src = getFeatureIso2 feature
      /\ exists dst r, displayed (buildIndex rows) src dst = Some r.
Proof.
  unfold setSourceFromIso2. rewrite TextFacts.orText_empty. cbn [orEmpty].
  assert (E : toUpperCase (trim (getFeatureIso2 feature)) = getFeatureIso2 feature)
    by apply TextFacts.code_normal.
  rewrite E. set (code := getFeatureIso2 feature) in *. clearbody code.
  split.
  - destruct (String.eqb code "") eqn:Ee; [discriminate|]. cbn [orb].
    destruct (bool_decide (code ∈ allSrcCountrySet (buildIndex rows))) eqn:Ein;
      [|discriminate].
    cbn [negb]. intros [= <-]. split; [reflexivity|].
    apply bool_decide_eq_true in Ein. apply allSrcCountrySet_displayed. exact Ein.
  - intros [-> (dst & r & H)].
    assert (Hin : code ∈ allSrcCountrySet (buildIndex rows)).
    { apply allSrcCountrySet_displayed. eauto. }
    apply buildIndex_displayed in H. destruct H as (_ & _ & Hne & _).
    apply String.eqb_neq in Hne. rewrite Hne. cbn [orb].
    rewrite (bool_decide_eq_true_2 _ Hin). reflexivity.
Qed.

Close Scope float_scope.

(** ** RefreshScheduler: passes per burst *)

Module RefreshFacts.
Import Refresh.

Lemma run_app s t1 t2 :
  run s (t1 ++ t2) = match run s t1 with
                     | Some s' => run s' t2
                     | None => None
                     end.
Proof.
  revert s. induction t1 as [|e t1 IH]; intros s; simpl; [reflexivity|].
  destruct (step s e); [apply IH|reflexivity].
Qed.

Lemma run_signals_scheduled pending q k j :
  run (scheduled pending q k) (signals j)
  = Some (scheduled (match j with O => pending | S _ => true end) q k).
Proof.
  revert pending. induction j as [|j IH]; intros pending; [reflexivity|].
  change (signals (S j)) with (Signal :: signals j).
  simpl run. change (refreshLayer (scheduled pending q k)) with (scheduled true q k).
  rewrite IH. destruct j; reflexivity.
Qed.

Lemma run_signals_idle k j :
  run (idle k) (signals (S j)) = Some (scheduled true WaitOuter k).
Proof.
  change (signals (S j)) with (Signal :: signals j). simpl run.
  change (refreshLayer (idle k)) with (scheduled true WaitOuter k).
  rewrite run_signals_scheduled. destruct j; reflexivity.
Qed.

Lemma run_frames_idle k j : run (idle k) (replicate j Frame) = Some (idle k).
Proof. induction j as [|j IH]; [reflexivity|exact IH]. Qed.

Lemma run_cons s e t :
  run s (e :: t) = match step s e with Some s' => run s' t | None => None end.
Proof. reflexivity. Qed.

Lemma step_frame_outer pending k :
  step (scheduled pending WaitOuter k) Frame = Some (scheduled pending WaitRun k).
Proof. reflexivity. Qed.

Lemma step_frame_run pending k :
  step (scheduled pending WaitRun k) Frame = Some (scheduled false Running (S k)).
Proof. reflexivity. Qed.

Lemma step_end_pending k :
  step (scheduled true Running k) (PassEnd false) = Some (scheduled true WaitRun k).
Proof. reflexivity. Qed.

Lemma step_end_quiet k :
  step (scheduled false Running k) (PassEnd false) = Some (idle k).
Proof. reflexivity. Qed.

End RefreshFacts.

(** C9, as stated, fails: with one signal while idle and one while the
    first pass runs, a further signal while the second pass runs gives
    three passes; and when the first pass throws, the signal that arrived
    while it ran is dropped: nothing is queued (the phase is [Idle],
    [refreshScheduled] is off) and one pass is all there is. *)
Lemma C9_counterexample :
  Refresh.run (Refresh.idle 0)
    [Refresh.Signal; Refresh.Frame; Refresh.Frame;
     Refresh.Signal; Refresh.PassEnd false; Refresh.Frame;
     Refresh.Signal; Refresh.PassEnd false; Refresh.Frame;
     Refresh.PassEnd false]
  = Some (Refresh.idle 3)
  /\ Refresh.run (Refresh.idle 0)
       [Refresh.Signal; Refresh.Frame; Refresh.Frame;
        Refresh.Signal; Refresh.PassEnd true]
     = Some (Refresh.mkState true false true false Refresh.Idle 1).
Proof. split; reflexivity. Qed.

(** C9 (amended): a burst of [N = a + b + c + d >= 1] signals that starts
    while idle runs the recompute pass exactly once when no signal falls
    inside the first pass ([c = 0]), and exactly twice when at least one
    does ([c >= 1]), the first pass ends normally and no signal falls
    inside the second pass; the scheduler is idle again afterwards, and
    further frames run nothing.  The side conditions are needed: [e >= 1]
    signals inside the second pass queue a third pass, and a first pass
    that throws leaves one pass whatever arrived while it ran (nothing
    is queued afterwards, though [refreshPending] stays set). *)
Theorem C9_refresh_passes (a b c d k : nat) :
  1 <= a ->
  Refresh.run (Refresh.idle k) (Refresh.burst a b c d)
  = Some (Refresh.idle (match c with O => 1 | S _ => 2 end + k))
  /\ (forall j, Refresh.run (Refresh.idle (match c with O => 1 | S _ => 2 end + k))
                            (replicate j Refresh.Frame)
                = Some (Refresh.idle (match c with O => 1 | S _ => 2 end + k)))
  /\ (forall e,
        1 <= c -> 1 <= e ->
        Refresh.run (Refresh.idle k)
          (Refresh.signals a ++ [Refresh.Frame] ++ Refresh.signals b ++ [Refresh.Frame]
           ++ Refresh.signals c ++ [Refresh.PassEnd false]
           ++ Refresh.signals d ++ [Refresh.Frame]
           ++ Refresh.signals e ++ [Refresh.PassEnd false; Refresh.Frame;
                                    Refresh.PassEnd false])
        = Some (Refresh.idle (3 + k)))
  /\ Refresh.run (Refresh.idle k)
       (Refresh.signals a ++ [Refresh.Frame] ++ Refresh.signals b ++ [Refresh.Frame]
        ++ Refresh.signals c ++ [Refresh.PassEnd true])
     = Some (Refresh.mkState true false (match c with O => false | S _ => true end)
               false Refresh.Idle (1 + k)).
Proof.
  intros Ha. destruct a as [|a]; [lia|].
  assert (First : forall t,
    Refresh.run (Refresh.idle k)
      (Refresh.signals (S a) ++ [Refresh.Frame] ++ Refresh.signals b ++ [Refresh.Frame]
       ++ Refresh.signals c ++ t)
    = Refresh.run (Refresh.scheduled (match c with O => false | S _ => true end)
                     Refresh.Running (S k)) t).
  { intros t.
    rewrite RefreshFacts.run_app, RefreshFacts.run_signals_idle.
    cbn [app]. rewrite RefreshFacts.run_cons, RefreshFacts.step_frame_outer.
    rewrite RefreshFacts.run_app, RefreshFacts.run_signals_scheduled.
    replace (match b with O => true | S _ => true end) with true by (destruct b; reflexivity).
    rewrite RefreshFacts.run_cons, RefreshFacts.step_frame_run.
    rewrite RefreshFacts.run_app, RefreshFacts.run_signals_scheduled. reflexivity. }
  split; [|split; [|split]].
  - unfold Refresh.burst. rewrite First. destruct c as [|c].
    + cbn [app]. rewrite RefreshFacts.run_cons, RefreshFacts.step_end_quiet. reflexivity.
    + cbn [app]. rewrite RefreshFacts.run_cons, RefreshFacts.step_end_pending.
      rewrite RefreshFacts.run_app, RefreshFacts.run_signals_scheduled.
      replace (match d with O => true | S _ => true end) with true by (destruct d; reflexivity).
      cbn [app]. rewrite RefreshFacts.run_cons, RefreshFacts.step_frame_run.
      rewrite RefreshFacts.run_cons, RefreshFacts.step_end_quiet. reflexivity.
  - intros j. apply RefreshFacts.run_frames_idle.
  - intros e Hc He. rewrite First.
    destruct c as [|c]; [lia|]. destruct e as [|e]; [lia|].
    cbn [app]. rewrite RefreshFacts.run_cons, RefreshFacts.step_end_pending.
    rewrite RefreshFacts.run_app, RefreshFacts.run_signals_scheduled.
    replace (match d with O => true | S _ => true end) with true by (destruct d; reflexivity).
    cbn [app]. rewrite RefreshFacts.run_cons, RefreshFacts.step_frame_run.
    rewrite RefreshFacts.run_app, RefreshFacts.run_signals_scheduled.
    rewrite RefreshFacts.run_cons, RefreshFacts.step_end_pending.
    rewrite RefreshFacts.run_cons, RefreshFacts.step_frame_run.
    rewrite RefreshFacts.run_cons, RefreshFacts.step_end_quiet. reflexivity.
  - rewrite First. destruct c; reflexivity.
Qed.

Lemma C9_refresh_passes_witness :
  Refresh.run (Refresh.idle 0) (Refresh.burst 3 1 2 1) = Some (Refresh.idle 2)
  /\ (forall j, Refresh.run (Refresh.idle 2) (replicate j Refresh.Frame)
                = Some (Refresh.idle 2))
  /\ (forall e,
        1 <= 2 -> 1 <= e ->
        Refresh.run (Refresh.idle 0)
          (Refresh.signals 3 ++ [Refresh.Frame] ++ Refresh.signals 1 ++ [Refresh.Frame]
           ++ Refresh.signals 2 ++ [Refresh.PassEnd false]
           ++ Refresh.signals 1 ++ [Refresh.Frame]
           ++ Refresh.signals e ++ [Refresh.PassEnd false; Refresh.Frame;
                                    Refresh.PassEnd false])
        = Some (Refresh.idle 3))
  /\ Refresh.run (Refresh.idle 0)
       (Refresh.signals 3 ++ [Refresh.Frame] ++ Refresh.signals 1 ++ [Refresh.Frame]
        ++ Refresh.signals 2 ++ [Refresh.PassEnd true])
     = Some (Refresh.mkState true false true false Refresh.Idle 1).
Proof. apply (C9_refresh_passes 3 1 2 1 0). lia. Defined.

(** Each running pass queues at most one re-run: a signal that arrives
    while the second pass runs is past the burst and queues one further
    pass. *)
Lemma signal_in_second_pass :
  Refresh.run (Refresh.idle 0)
    [Refresh.Signal; Refresh.Frame; Refresh.Frame;
     Refresh.Signal; Refresh.PassEnd false; Refresh.Frame;
     Refresh.Signal; Refresh.Signal; Refresh.PassEnd false; Refresh.Frame;
     Refresh.PassEnd false]
  = Some (Refresh.idle 3).
Proof. reflexivity. Qed.

(** ** RefreshScheduler: invariants over arbitrary traces *)

Module RefreshTraces.
Import Refresh RefreshSpec.

Lemma step_owed s e s' :
  step s e = Some s' ->
  passes s' + owed s'
  <= passes s + owed s + match e with Signal => 1 | _ => 0 end.
Proof.
  destruct s as [g sch pen ld q k].
  destruct e as [| |[]]; destruct q, g, sch, pen; cbn;
    intros [= <-]; cbn; lia.
Qed.

Lemma run_owed t : forall s s',
  run s t = Some s' ->
  passes s' + owed s' <= passes s + owed s + countSignals t.
Proof.
  induction t as [|e t IH]; intros s s' H.
  - injection H as <-. cbn. lia.
  - cbn [run] in H. destruct (step s e) as [s1|] eqn:E; [|discriminate].
    apply IH in H. apply step_owed in E.
    unfold countSignals in *. cbn [List.filter].
    destruct e; cbn [length] in *; lia.
Qed.

Lemma step_consistent s e s' :
  consistent s = true -> step s e = Some s' -> consistent s' = true.
Proof.
  destruct s as [g sch pen ld q k].
  destruct e as [| |[]]; destruct q, g, sch, pen, ld; cbn;
    try discriminate; intros _ [= <-]; reflexivity.
Qed.

Lemma run_consistent t : forall s s',
  consistent s = true -> run s t = Some s' -> consistent s' = true.
Proof.
  induction t as [|e t IH]; intros s s' Hs H.
  - injection H as <-. exact Hs.
  - cbn [run] in H. destruct (step s e) as [s1|] eqn:E; [|discriminate].
    exact (IH s1 s' (step_consistent s e s1 Hs E) H).
Qed.

End RefreshTraces.

(** X1: along any trace of signals, frames and pass ends (normal or
    thrown) that starts idle, the recompute pass never runs more often
    than [refreshLayer] was called. *)
Theorem X1_passes_bounded_by_signals (k : nat) (t : list Refresh.event) (s : Refresh.state) :
  Refresh.run (Refresh.idle k) t = Some s ->
  Refresh.passes s <= k + RefreshSpec.countSignals t.
Proof.
  intros H. apply RefreshTraces.run_owed in H. cbn in H. lia.
Qed.

Lemma X1_passes_bounded_by_signals_witness :
  Refresh.passes (Refresh.idle 2) <= 0 + RefreshSpec.countSignals (Refresh.burst 3 1 2 1).
Proof.
  apply (X1_passes_bounded_by_signals 0 (Refresh.burst 3 1 2 1) (Refresh.idle 2)).
  reflexivity.
Defined.

(** X2: every state reached from idle keeps the flags and the queue in
    step: [refreshScheduled] is set exactly while a callback is queued or
    running, the loading indicator equals it, and a queued callback finds
    [refreshPending] set. *)
Theorem X2_flags_follow_queue (k : nat) (t : list Refresh.event) (s : Refresh.state) :
  Refresh.run (Refresh.idle k) t = Some s ->
  RefreshSpec.consistent s = true
  /\ (Refresh.refreshScheduled s = true <-> Refresh.queue s <> Refresh.Idle)
  /\ Refresh.mapLoading s = Refresh.refreshScheduled s.
Proof.
  intros H.
  assert (Hc : RefreshSpec.consistent s = true).
  { apply (RefreshTraces.run_consistent t (Refresh.idle k) s); [reflexivity|exact H]. }
  split; [exact Hc|]. clear H.
  destruct s as [g sch pen ld q j]. unfold RefreshSpec.consistent in Hc. cbn in *.
  destruct g, sch, ld, q; cbn in Hc; try discriminate; split;
    try reflexivity; split; congruence.
Qed.

Lemma X2_flags_follow_queue_witness :
  RefreshSpec.consistent (Refresh.scheduled true Refresh.WaitRun 0) = true
  /\ (Refresh.refreshScheduled (Refresh.scheduled true Refresh.WaitRun 0) = true
      <-> Refresh.queue (Refresh.scheduled true Refresh.WaitRun 0) <> Refresh.Idle)
  /\ Refresh.mapLoading (Refresh.scheduled true Refresh.WaitRun 0)
     = Refresh.refreshScheduled (Refresh.scheduled true Refresh.WaitRun 0).
Proof.
  apply (X2_flags_follow_queue 0 [Refresh.Signal; Refresh.Frame]). reflexivity.
Defined.

(** X3: no signal is lost.  In every state reached from idle, a call of
    [refreshLayer] is followed by a pass that starts after it: after the
    scheduler's next events (the end of the running pass, if any, and at
    most two frames) one more pass is running, with [refreshPending]
    cleared. *)
Theorem X3_signal_not_lost (k : nat) (t : list Refresh.event) (s : Refresh.state) :
  Refresh.run (Refresh.idle k) t = Some s ->
  exists s',
    Refresh.run (Refresh.refreshLayer s) (RefreshSpec.untilNextPass (Refresh.refreshLayer s))
    = Some s'
    /\ Refresh.queue s' = Refresh.Running
    /\ Refresh.passes s' = S (Refresh.passes s)
    /\ Refresh.refreshPending s' = false.
Proof.
  intros H.
  pose proof (RefreshTraces.run_consistent t (Refresh.idle k) s eq_refl H) as Hc. clear H.
  destruct s as [g sch pen ld q j]. unfold RefreshSpec.consistent in Hc. cbn in Hc.
  destruct g, sch, ld, q, pen; cbn in Hc; try discriminate;
    eexists; repeat split.
Qed.

Lemma X3_signal_not_lost_witness :
  exists s',
    Refresh.run (Refresh.refreshLayer (Refresh.scheduled false Refresh.Running 1))
      (RefreshSpec.untilNextPass (Refresh.refreshLayer (Refresh.scheduled false Refresh.Running 1)))
    = Some s'
    /\ Refresh.queue s' = Refresh.Running
    /\ Refresh.passes s' = S (Refresh.passes (Refresh.scheduled false Refresh.Running 1))
    /\ Refresh.refreshPending s' = false.
Proof.
  apply (X3_signal_not_lost 0 [Refresh.Signal; Refresh.Frame; Refresh.Frame]). reflexivity.
Defined.

(** X4: a pass that throws drops the queued re-run.  Whatever number of
    signals arrived while it ran, the scheduler is idle afterwards with
    the loading indicator off, frames run nothing, and the next signal
    schedules a pass as from idle. *)
Theorem X4_throw_drops_rerun (pending : bool) (k j m : nat) :
  exists s,
    Refresh.run (Refresh.scheduled pending Refresh.Running k)
      (Refresh.signals j ++ [Refresh.PassEnd true]) = Some s
    /\ Refresh.queue s = Refresh.Idle
    /\ Refresh.refreshScheduled s = false
    /\ Refresh.mapLoading s = false
    /\ Refresh.run s (replicate m Refresh.Frame) = Some s
    /\ Refresh.run s [Refresh.Signal; Refresh.Frame; Refresh.Frame]
       = Some (Refresh.scheduled false Refresh.Running (S k)).
Proof.
  rewrite RefreshFacts.run_app, RefreshFacts.run_signals_scheduled.
  eexists. split; [reflexivity|]. repeat split.
  induction m as [|m IH]; [reflexivity|exact IH].
Qed.
